(** * A shallow embedding of [vector<T, Alloc>] (src/vector.h)

    The container is a record of the three data members [arr_], [sz_] and
    [cap_].  Raw storage lives in a free store of blocks; every slot of a
    block is either unconstructed ([None]) or holds a live element
    ([Some x]).  Member functions are computations in a state-and-exception
    monad over the free store; an execution has one of three results: it
    returns, it leaves by a C++ exception, or it runs into behaviour the
    language leaves undefined (an access outside a block, the use of an
    unconstructed slot, ...) or unspecified (the order of two pointers into
    different blocks), where the embedding stops. *)

From Stdlib Require Import ZArith Lia Bool List.
From stdpp Require Import base list.
Import ListNotations.

Local Open Scope Z_scope.

(** ** Machine integers: [size_type] is a 64-bit unsigned integer *)

Definition size_max : Z := 2 ^ 64 - 1.

(** Arithmetic on [size_type] is arithmetic modulo [2^64]. *)
Definition wrap (z : Z) : Z := z mod 2 ^ 64.

(** No array spans more than [PTRDIFF_MAX] bytes, so no block has more
    slots than that. *)
Definition ptrdiff_max : Z := 2 ^ 63 - 1.

(** ** Pointers and iterators *)

(** A pointer is a block of the free store (or none) and an offset counted
    in elements.  [base_iterator] only wraps such a pointer. *)
Record ptr : Type := Ptr { base : option nat; off : Z }.

Definition nullptr : ptr := Ptr None 0.

Definition ptr_add (p : ptr) (n : Z) : ptr := Ptr (base p) (off p + n).

Infix "+p" := ptr_add (at level 50, left associativity).

Definition base_eqb (a b : option nat) : bool :=
  match a, b with
  | Some x, Some y => Nat.eqb x y
  | None, None => true
  | _, _ => false
  end.

(** [operator==] on iterators: [ptr == other.ptr]. *)
Definition ptr_eqb (p q : ptr) : bool := base_eqb (base p) (base q) && (off p =? off q).

(** The exceptions that leave the container's functions. *)
Inductive exn : Type :=
| out_of_range      (* std::out_of_range *)
| bad_alloc         (* the allocator cannot satisfy the request *)
| element_error.    (* whatever a constructor of T throws *)

(** The points at which the embedding stops, with the operation that ran
    into them: undefined behaviour or, for the order of pointers into
    different blocks, a result the language leaves unspecified. *)
Inductive fault : Type :=
| bad_access (p : ptr)           (* construct outside every allocated block *)
| read_not_live (p : ptr)        (* read of a slot that holds no element *)
| destroy_not_live (p : ptr)     (* destructor call on a slot that holds no element *)
| bad_deallocate (p : ptr)       (* deallocate of something allocate did not return *)
| unrelated_pointers (p q : ptr) (* order (unspecified) or difference (undefined) of
                                    pointers into different blocks *)
| inverted_range (p q : ptr).    (* [first != last] can never become false *)

(** The result of running a computation. *)
Inductive res (S A : Type) : Type :=
| Ok (a : A) (s : S)
| Throw (e : exn) (s : S)
| Fault (f : fault).

Arguments Ok {S A} a s.
Arguments Throw {S A} e s.
Arguments Fault {S A} f.

(** ** The monad: state, exceptions and undefined behaviour *)

Definition comp (S A : Type) : Type := S -> res S A.

Definition ret {S A} (a : A) : comp S A := fun s => Ok a s.

Definition bind {S A B} (m : comp S A) (k : A -> comp S B) : comp S B :=
  fun s => match m s with
           | Ok a s' => k a s'
           | Throw e s' => Throw e s'
           | Fault f => Fault f
           end.

Definition throw {S A} (e : exn) : comp S A := fun s => Throw e s.

Definition undefined {S A} (f : fault) : comp S A := fun _ => Fault f.

(** [try { m } catch (...) { h }] *)
Definition try_catch {S A} (m : comp S A) (h : exn -> comp S A) : comp S A :=
  fun s => match m s with
           | Throw e s' => h e s'
           | r => r
           end.

Declare Scope vec_scope.
Delimit Scope vec_scope with vec.
Notation "x <- m ;; k" := (bind m (fun x => k))
  (at level 100, m at next level, k at level 200, right associativity) : vec_scope.
Notation "m ;; k" := (bind m (fun _ => k))
  (at level 100, k at level 200, right associativity) : vec_scope.
Local Open Scope vec_scope.

(** The container's data members. *)
Record vector : Type := Vector { arr_ : ptr; sz_ : Z; cap_ : Z }.

(** The program state: the container [*this], the free store of blocks
    (one cell per slot; a freed block stays as [None], its address is never
    handed out again) and the number of constructor calls that could throw
    made so far. *)
Record program_state (T : Type) : Type := State {
  self : vector;
  heap : list (option (list (option T)));
  calls : nat
}.

Arguments State {T} self heap calls.
Arguments self {T} _.
Arguments heap {T} _.
Arguments calls {T} _.

Section Container.

(** The element type.  [moved x] is the state in which a move leaves its
    source.  [nothrow_move] says whether T's move constructor is [noexcept]
    and [copyable] whether T has a copy constructor: the two traits that
    [std::move_if_noexcept] selects on.  Constructor calls that may throw
    are numbered from zero, and [fails k] says whether call number [k]
    throws. *)
Variable T : Type.
Variable moved : T -> T.
Variable nothrow_move : bool.
Variable copyable : bool.
Variable fails : nat -> bool.

(** A block of raw storage: one cell per slot. *)
Local Abbreviation block := (list (option T)).

Local Abbreviation state := (program_state T).

Local Abbreviation M := (comp state).

(** Access to the data members of [*this]. *)
Definition this : M vector := fun s => Ok (self s) s.

Definition set_self (v : vector) : M unit :=
  fun s => Ok tt (State v (heap s) (calls s)).

Definition set_arr (p : ptr) : M unit :=
  v <- this ;; set_self (Vector p (sz_ v) (cap_ v)).

Definition set_sz (n : Z) : M unit :=
  v <- this ;; set_self (Vector (arr_ v) n (cap_ v)).

Definition set_cap (n : Z) : M unit :=
  v <- this ;; set_self (Vector (arr_ v) (sz_ v) n).

(** Runs a member function on another object [v] (a local or a
    parameter): [*this] is [v] while [m] runs, and comes back afterwards,
    also when [m] throws. *)
Definition on_object {A} (v : vector) (m : M A) : M (A * vector) :=
  fun s => match m (State v (heap s) (calls s)) with
           | Ok a s' => Ok (a, self s') (State (self s) (heap s') (calls s'))
           | Throw e s' => Throw e (State (self s) (heap s') (calls s'))
           | Fault f => Fault f
           end.

(** ** The free store *)

(** The cell a pointer designates: [None] when it points into no allocated
    block, [Some None] for an unconstructed slot, [Some (Some x)] for a
    live element. *)
Definition slot (h : list (option block)) (p : ptr) : option (option T) :=
  match base p with
  | Some l =>
      if 0 <=? off p then
        match h !! l with
        | Some (Some b) => b !! Z.to_nat (off p)
        | _ => None
        end
      else None
  | None => None
  end.

(** The free store with the cell at [p] set to [c]; nothing changes when
    [p] points into no allocated block. *)
Definition store (h : list (option block)) (p : ptr) (c : option T) : list (option block) :=
  match base p with
  | Some l =>
      if 0 <=? off p then
        match h !! l with
        | Some (Some b) => <[l := Some (<[Z.to_nat (off p) := c]> b)]> h
        | _ => h
        end
      else h
  | None => h
  end.

(** The number of slots of the block at [l], when it is allocated. *)
Definition block_len (h : list (option block)) (l : nat) : option Z :=
  match h !! l with
  | Some (Some b) => Some (Z.of_nat (length b))
  | _ => None
  end.

(** [alloc_traits::allocate(alloc_, n)]: a fresh block of [n] unconstructed
    slots.  The default allocator refuses a request that exceeds
    [PTRDIFF_MAX / sizeof(T)] (elements are taken to be one byte, the most
    generous case).  Memory is taken to be unbounded: every other request
    is satisfied, whereas [operator new] may also throw [bad_alloc] for a
    smaller one.  A request for zero slots returns a non-null pointer to an
    empty block. *)
Definition allocate (n : Z) : M ptr :=
  fun s =>
    if n >? ptrdiff_max then Throw bad_alloc s
    else Ok (Ptr (Some (length (heap s))) 0)
            (State (self s) (heap s ++ [Some (replicate (Z.to_nat n) None)]) (calls s)).

(** [alloc_traits::deallocate(alloc_, p, n)]: [p] must be the start of an
    allocated block of [n] slots.  The default allocator hands [p] to
    [operator delete], for which a null pointer is a no-op. *)
Definition deallocate (p : ptr) (n : Z) : M unit :=
  fun s =>
    match base p with
    | None => if off p =? 0 then Ok tt s else Fault (bad_deallocate p)
    | Some l =>
        match block_len (heap s) l with
        | Some len =>
            if (off p =? 0) && (len =? n)
            then Ok tt (State (self s) (<[l := None]> (heap s)) (calls s))
            else Fault (bad_deallocate p)
        | None => Fault (bad_deallocate p)
        end
    end.

(** [alloc_traits::construct(alloc_, p, args...)] where the constructor
    called may throw and [x] is the value it builds. *)
Definition construct (p : ptr) (x : T) : M unit :=
  fun s =>
    match slot (heap s) p with
    | None => Fault (bad_access p)
    | Some _ =>
        if fails (calls s)
        then Throw element_error (State (self s) (heap s) (S (calls s)))
        else Ok tt (State (self s) (store (heap s) p (Some x)) (S (calls s)))
    end.

(** Reading an element through a pointer or reference. *)
Definition read (p : ptr) : M T :=
  fun s =>
    match slot (heap s) p with
    | Some (Some x) => Ok x s
    | _ => Fault (read_not_live p)
    end.

(** [alloc_traits::construct(alloc_, dst, std::move_if_noexcept(src[0]))].
    [std::move_if_noexcept] yields an rvalue unless the move constructor
    may throw and there is a copy constructor.  So the element is built by
    a move that cannot throw and leaves the source moved-from; or by a copy
    that may throw and leaves the source as it is; or, for a type that can
    only be moved, by a move that may throw: when it returns the source is
    moved-from, and when it throws the source is taken to be as it was
    (the most a move constructor can promise). *)
Definition construct_moved (dst src : ptr) : M unit :=
  x <- read src ;;
  if nothrow_move then
    fun s =>
      match slot (heap s) dst with
      | None => Fault (bad_access dst)
      | Some _ =>
          Ok tt (State (self s)
                       (store (store (heap s) src (Some (moved x))) dst (Some x))
                       (calls s))
      end
  else if copyable then construct dst x
  else
    fun s =>
      match slot (heap s) dst with
      | None => Fault (bad_access dst)
      | Some _ =>
          if fails (calls s)
          then Throw element_error (State (self s) (heap s) (S (calls s)))
          else Ok tt (State (self s)
                            (store (store (heap s) src (Some (moved x))) dst (Some x))
                            (S (calls s)))
      end.

(** [alloc_traits::construct(alloc_, p, std::forward<T>(value))] for the
    parameter [T&& value] of [insert_impl]: the element is built by T's
    move constructor, which throws only if it is not [noexcept].  The
    object moved from is the caller's. *)
Definition construct_forwarded (p : ptr) (x : T) : M unit :=
  if nothrow_move then
    fun s =>
      match slot (heap s) p with
      | None => Fault (bad_access p)
      | Some _ => Ok tt (State (self s) (store (heap s) p (Some x)) (calls s))
      end
  else construct p x.

(** [alloc_traits::destroy(alloc_, p)] *)
Definition destroy (p : ptr) : M unit :=
  fun s =>
    match slot (heap s) p with
    | Some (Some _) => Ok tt (State (self s) (store (heap s) p None) (calls s))
    | _ => Fault (destroy_not_live p)
    end.

(** ** Iterator comparison and difference *)

(** [p < q] and [p <= q] on pointers.  Pointers into the same block are
    ordered by their offsets.  For pointers into different blocks the
    language leaves the result unspecified; the embedding, which has no
    addresses to compare, stops there. *)
Definition ptr_lt (p q : ptr) : M bool :=
  if base_eqb (base p) (base q) then ret (off p <? off q)
  else undefined (unrelated_pointers p q).

Definition ptr_gt (p q : ptr) : M bool := ptr_lt q p.

Definition ptr_le (p q : ptr) : M bool :=
  if base_eqb (base p) (base q) then ret (off p <=? off q)
  else undefined (unrelated_pointers p q).

Definition ptr_ge (p q : ptr) : M bool := ptr_le q p.

(** [p - q] *)
Definition ptr_diff (p q : ptr) : M Z :=
  if base_eqb (base p) (base q) then ret (off p - off q)
  else undefined (unrelated_pointers p q).

(** [a || b] and [a && b] evaluate [b] only when needed. *)
Definition or_else (a b : M bool) : M bool :=
  x <- a ;; if x then ret true else b.

Definition and_then (a b : M bool) : M bool :=
  x <- a ;; if x then b else ret false.

(** ** Loops *)

(** [try { for (; i < hi; ++i) body(i); } catch (...) { handler(i) }]
    running [n] rounds from [i]: the handler sees the value of the loop
    variable at the throw. *)
Fixpoint for_up (n : nat) (i : Z) (body : Z -> M unit) (handler : Z -> exn -> M unit) : M unit :=
  match n with
  | O => ret tt
  | S n' =>
      fun s => match body i s with
               | Ok _ s' => for_up n' (i + 1) body handler s'
               | Throw e s' => handler i e s'
               | Fault f => Fault f
               end
  end.

(** [for (i = hi; i > lo; --i) body(i)], [n] rounds from [i]. *)
Fixpoint for_down (n : nat) (i : Z) (body : Z -> M unit) : M unit :=
  match n with
  | O => ret tt
  | S n' => body i ;; for_down n' (i - 1) body
  end.

(** A loop outside every [try]: an exception just leaves it. *)
Definition rethrow (_ : Z) (e : exn) : M unit := throw e.

(** [for (size_type i = lo; i < hi; ++i) body(i)] *)
Definition for_range (lo hi : Z) (body : Z -> M unit) : M unit :=
  for_up (Z.to_nat (hi - lo)) lo body rethrow.

(** A [size_type] value used where a [difference_type] is expected
    ([begin() + index]) is read as a signed 64-bit integer. *)
Definition to_diff (z : Z) : Z := if z <? 2 ^ 63 then z else z - 2 ^ 64.

(** ** Iterators, element access, capacity *)

Definition begin (v : vector) : ptr := arr_ v.

Definition end_ (v : vector) : ptr := arr_ v +p sz_ v.

Definition size (v : vector) : Z := sz_ v.

Definition capacity (v : vector) : Z := cap_ v.

(** [if (arr_ == nullptr) return true; return false;] *)
Definition empty (v : vector) : bool := ptr_eqb (arr_ v) nullptr.

(** [operator[]]: [return arr_[index];] *)
Definition subscript (index : Z) : M T :=
  v <- this ;; read (arr_ v +p index).

Definition at_ (index : Z) : M T :=
  v <- this ;;
  if index >=? sz_ v then throw out_of_range
  else read (arr_ v +p index).

(** ** Constructors and destructor *)

(** [vector()] *)
Definition vector_default : vector := Vector nullptr 0 0.

(** The handler shared by the constructors, [reserve], [shrink_to_fit] and
    [emplace_back]: destroy the [index] elements built in the new block,
    release it, rethrow. *)
Definition discard_new (newarr : ptr) (newcap : Z) (index : Z) (e : exn) : M unit :=
  for_range 0 index (fun new_index => destroy (newarr +p new_index)) ;;
  deallocate newarr newcap ;;
  throw e.

(** [vector(std::initializer_list<T> init_list)] *)
Definition vector_from_list (init_list : list T) : M vector :=
  let n := Z.of_nat (length init_list) in
  arr <- allocate n ;;
  for_up (length init_list) 0
    (fun index =>
       match init_list !! Z.to_nat index with
       | Some value => construct (arr +p index) value
       | None => ret tt
       end)
    (discard_new arr n) ;;
  ret (Vector arr n n).

(** [vector(InputIt first, InputIt last)] for iterators of this class. *)
Definition vector_from_range (first last : ptr) : M vector :=
  d <- ptr_diff last first ;;
  let count := wrap d in
  let cap := count in
  arr <- allocate cap ;;
  (if d <? 0 then undefined (inverted_range first last) else ret tt) ;;
  for_up (Z.to_nat d) 0
    (fun index => x <- read (first +p index) ;; construct (arr +p index) x)
    (discard_new arr cap) ;;
  ret (Vector arr d cap).

Definition clear : M unit :=
  v <- this ;;
  for_range 0 (sz_ v) (fun i => destroy (arr_ v +p i)) ;;
  set_sz 0.

(** [~vector()] *)
Definition destructor : M unit :=
  clear ;;
  v <- this ;;
  if negb (ptr_eqb (arr_ v) nullptr) then deallocate (arr_ v) (cap_ v) else ret tt.

(** A local container [temp] lives while [body] runs and is destroyed when
    the scope is left, normally or by an exception. *)
Definition with_local {A} (temp : vector) (body : M A) : M A :=
  fun s => match body s with
           | Ok a s' => (on_object temp destructor ;; ret a) s'
           | Throw e s' => (on_object temp destructor ;; throw e) s'
           | Fault f => Fault f
           end.

(** ** Capacity *)

Definition reserve (newcap : Z) : M unit :=
  v <- this ;;
  newarr <- allocate newcap ;;
  for_up (Z.to_nat (sz_ v)) 0
    (fun index => construct_moved (newarr +p index) (arr_ v +p index))
    (discard_new newarr newcap) ;;
  for_range 0 (sz_ v) (fun index => destroy (arr_ v +p index)) ;;
  deallocate (arr_ v) (cap_ v) ;;
  set_arr newarr ;;
  set_cap newcap.

Definition shrink_to_fit : M unit :=
  v <- this ;;
  if sz_ v <? cap_ v then
    newarr <- allocate (sz_ v) ;;
    for_up (Z.to_nat (sz_ v)) 0
      (fun index => construct_moved (newarr +p index) (arr_ v +p index))
      (discard_new newarr (sz_ v)) ;;
    for_range 0 (sz_ v) (fun index => destroy (arr_ v +p index)) ;;
    deallocate (arr_ v) (cap_ v) ;;
    set_arr newarr ;;
    set_cap (sz_ v)
  else ret tt.

(** ** Modifiers *)

Definition emplace_back (x : T) : M unit :=
  v <- this ;;
  if sz_ v =? cap_ v then
    let newcap := if cap_ v >? 0 then wrap (cap_ v * 2) else 1 in
    newarr <- allocate newcap ;;
    try_catch (construct (newarr +p sz_ v) x) (discard_new newarr newcap 0) ;;
    for_up (Z.to_nat (sz_ v)) 0
      (fun index => construct_moved (newarr +p index) (arr_ v +p index))
      (discard_new newarr newcap) ;;
    for_range 0 (sz_ v) (fun index => destroy (arr_ v +p index)) ;;
    deallocate (arr_ v) (cap_ v) ;;
    set_arr newarr ;;
    set_cap newcap ;;
    set_sz (wrap (sz_ v + 1))
  else
    try_catch (construct (arr_ v +p sz_ v) x) throw ;;
    set_sz (wrap (sz_ v + 1)).

(** Both overloads of [push_back] forward to [emplace_back]. *)
Definition push_back (value : T) : M unit := emplace_back value.

Definition pop_back : M unit :=
  v <- this ;;
  if sz_ v >? 0 then
    set_sz (wrap (sz_ v - 1)) ;;
    destroy (arr_ v +p wrap (sz_ v - 1))
  else ret tt.

(** [if (pos < begin() || pos > end()) throw std::out_of_range(...)] *)
Definition check_position (pos : ptr) : M unit :=
  v <- this ;;
  bad <- or_else (ptr_lt pos (begin v)) (ptr_gt pos (end_ v)) ;;
  if bad then throw out_of_range else ret tt.

(** [if (sz_ + count > cap_) reserve(std::max(cap_ * 2, sz_ + count));] *)
Definition grow_for (count : Z) : M unit :=
  v <- this ;;
  if wrap (sz_ v + count) >? cap_ v
  then reserve (Z.max (wrap (cap_ v * 2)) (wrap (sz_ v + count)))
  else ret tt.

(** The [try] block that the forms of [insert] for several elements
    repeat: move the tail [count] slots to the right, from the back, then
    construct copies of the new elements in the gap; [src i] yields the
    [i]-th of them.  The handler destroys the slots from [index + count] up
    to the old size. *)
Definition open_gap_and_fill (index count : Z) (src : Z -> M T) : M unit :=
  v <- this ;;
  try_catch
    (for_down (Z.to_nat (sz_ v - index)) (sz_ v)
       (fun i =>
          construct_moved (arr_ v +p (i + count - 1)) (arr_ v +p (i - 1)) ;;
          destroy (arr_ v +p (i - 1))) ;;
     for_range 0 count
       (fun i => x <- src i ;; construct (arr_ v +p (index + i)) x) ;;
     set_sz (wrap (sz_ v + count)))
    (fun e =>
       for_range (wrap (index + count)) (sz_ v) (fun i => destroy (arr_ v +p i)) ;;
       throw e).

(** [insert_impl(pos, value)], behind both single-element overloads of
    [insert].  At [end()] the parameter, a named reference, is passed to
    [push_back] as an lvalue and copied.  Before the end the tail moves one
    slot to the right, from the back, and the new element is built from
    [std::forward<T>(value)]; the handler destroys the slots from
    [index + 1] up to the old size. *)
Definition insert_impl (pos : ptr) (value : T) : M ptr :=
  check_position pos ;;
  v <- this ;;
  if ptr_eqb pos (end_ v) then
    push_back value ;;
    v' <- this ;;
    ret (end_ v' +p (-1))
  else
    d <- ptr_diff pos (begin v) ;;
    let index := wrap d in
    (if sz_ v =? cap_ v
     then reserve (if cap_ v >? 0 then wrap (cap_ v * 2) else 1)
     else ret tt) ;;
    v <- this ;;
    try_catch
      (for_down (Z.to_nat (sz_ v - index)) (sz_ v)
         (fun i =>
            construct_moved (arr_ v +p i) (arr_ v +p (i - 1)) ;;
            destroy (arr_ v +p (i - 1))) ;;
       construct_forwarded (arr_ v +p index) value ;;
       set_sz (wrap (sz_ v + 1)))
      (fun e =>
         for_range (wrap (index + 1)) (sz_ v) (fun i => destroy (arr_ v +p i)) ;;
         throw e) ;;
    v' <- this ;;
    ret (begin v' +p to_diff index).

Definition insert (pos : ptr) (value : T) : M ptr := insert_impl pos value.

(** [insert(pos, count, value)] *)
Definition insert_n (pos : ptr) (count : Z) (value : T) : M ptr :=
  v <- this ;;
  d <- ptr_diff pos (begin v) ;;
  let index := wrap d in
  if count =? 0 then ret (begin v +p to_diff index)
  else
    check_position pos ;;
    grow_for count ;;
    open_gap_and_fill index count (fun _ => ret value) ;;
    v' <- this ;;
    ret (begin v' +p to_diff index).

(** The test of [insert_dispatch] for a source range inside the
    container's own elements:
    [first >= begin() && first < end() && last > begin() && last <= end()] *)
Definition aliases_own_storage (v : vector) (first last : ptr) : M bool :=
  and_then (ptr_ge first (begin v))
    (and_then (ptr_lt first (end_ v))
      (and_then (ptr_gt last (begin v)) (ptr_le last (end_ v)))).

(** [insert_dispatch(pos, first, last, int)], taken for random access
    iterators: [first] and [last] are pointers. *)
Definition insert_dispatch_int (pos first last : ptr) : M ptr :=
  check_position pos ;;
  v <- this ;;
  n <- ptr_diff last first ;;
  let count := wrap n in
  d <- ptr_diff pos (begin v) ;;
  let index := wrap d in
  if count =? 0 then ret (begin v +p to_diff index)
  else
    aliased <- aliases_own_storage v first last ;;
    if aliased then
      temp <- vector_from_range first last ;;
      with_local temp
        (let first := begin temp in
         grow_for count ;;
         open_gap_and_fill index count (fun i => read (first +p i)) ;;
         v' <- this ;;
         ret (begin v' +p to_diff index))
    else
      grow_for count ;;
      open_gap_and_fill index count (fun i => read (first +p i)) ;;
      v' <- this ;;
      ret (begin v' +p to_diff index).

(** [insert(pos, first, last)] for iterators of this class, whose category
    is [std::random_access_iterator_tag]. *)
Definition insert_range (pos first last : ptr) : M ptr :=
  insert_dispatch_int pos first last.

(** The elements an iterator range or an initializer list outside the free
    store yields, in order. *)
Definition nth_of (l : list T) (i : Z) : M T :=
  match l !! Z.to_nat i with
  | Some x => ret x
  | None => undefined (read_not_live nullptr)
  end.

(** [insert_dispatch(pos, first, last, float)], taken for the other
    iterator categories, for iterators that can pass over the range more
    than once (forward and bidirectional ones): [std::distance] walks the
    range before the elements are read.  [elems] is what the range
    yields. *)
Definition insert_dispatch_float (pos : ptr) (elems : list T) : M ptr :=
  check_position pos ;;
  v <- this ;;
  let count := wrap (Z.of_nat (length elems)) in
  d <- ptr_diff pos (begin v) ;;
  let index := wrap d in
  if count =? 0 then ret (begin v +p to_diff index)
  else
    grow_for count ;;
    open_gap_and_fill index count (nth_of elems) ;;
    v' <- this ;;
    ret (begin v' +p to_diff index).

(** [insert(pos, ilist)] *)
Definition insert_list (pos : ptr) (ilist : list T) : M ptr :=
  check_position pos ;;
  v <- this ;;
  let count := wrap (Z.of_nat (length ilist)) in
  d <- ptr_diff pos (begin v) ;;
  let index := wrap d in
  if count =? 0 then ret (begin v +p to_diff index)
  else
    grow_for count ;;
    open_gap_and_fill index count (nth_of ilist) ;;
    v' <- this ;;
    ret (begin v' +p to_diff index).

(** [erase(pos)]; the [iterator] and the [const_iterator] overload have
    the same body. *)
Definition erase (pos : ptr) : M ptr :=
  check_position pos ;;
  v <- this ;;
  d <- ptr_diff pos (begin v) ;;
  let index := wrap d in
  destroy (arr_ v +p index) ;;
  for_range index (wrap (sz_ v - 1))
    (fun i =>
       construct_moved (arr_ v +p i) (arr_ v +p (i + 1)) ;;
       destroy (arr_ v +p (i + 1))) ;;
  set_sz (wrap (sz_ v - 1)) ;;
  v' <- this ;;
  ret (begin v' +p to_diff index).

(** [erase(first, last)]; again one body for both overloads.  The loop
    variable [index_first] advances with [i]. *)
Definition erase_range (first last : ptr) : M ptr :=
  v <- this ;;
  bad <- or_else (ptr_lt first (begin v))
           (or_else (ptr_gt last (end_ v)) (ptr_gt first (end_ v))) ;;
  if bad then throw out_of_range
  else
    df <- ptr_diff first (begin v) ;;
    dl <- ptr_diff last (begin v) ;;
    let index_first := wrap df in
    let index_last := wrap dl in
    let count := wrap (index_last - index_first) in
    for_range index_first index_last (fun i => destroy (arr_ v +p i)) ;;
    for_range index_last (sz_ v)
      (fun i =>
         construct_moved (arr_ v +p (index_first + (i - index_last))) (arr_ v +p i) ;;
         destroy (arr_ v +p i)) ;;
    set_sz (wrap (sz_ v - count)) ;;
    v' <- this ;;
    ret (begin v' +p to_diff (index_first + Z.max 0 (sz_ v - index_last))).

(** ** Move assignment *)

(** [operator=(vector&& other)] for an [other] that is not [*this] (for
    [this == &other] the function returns at once).  The result is the
    state in which [other] is left. *)
Definition move_assign (other : vector) : M vector :=
  v <- this ;;
  (if negb (ptr_eqb (arr_ v) nullptr) then deallocate (arr_ v) (cap_ v) else ret tt) ;;
  set_arr (arr_ other) ;;
  let other := Vector nullptr (sz_ other) (cap_ other) in
  set_sz (sz_ other) ;;
  let other := Vector (arr_ other) 0 (cap_ other) in
  set_cap (cap_ other) ;;
  ret other.

(** ** [front] and [back] *)

(** [if (arr_ != nullptr) return *arr_;]: the slot the returned reference
    designates.  Without a block the function flows off its end and returns
    nothing, which is undefined behaviour for the caller. *)
Definition front (v : vector) : option ptr :=
  if negb (ptr_eqb (arr_ v) nullptr) then Some (arr_ v) else None.

(** [if (arr_ != nullptr) return *(arr_ + sz_ - 1);] *)
Definition back (v : vector) : option ptr :=
  if negb (ptr_eqb (arr_ v) nullptr) then Some (arr_ v +p sz_ v +p (-1)) else None.

(** ** More constructors *)

(** [vector(size_type sz, const_reference value)] *)
Definition vector_fill (sz : Z) (value : T) : M vector :=
  arr <- allocate sz ;;
  for_up (Z.to_nat sz) 0
    (fun index => construct (arr +p index) value)
    (discard_new arr sz) ;;
  ret (Vector arr sz sz).

(** [vector(size_type sz)]: the same with value-initialised elements;
    [value_initialized] is the value [T()] has. *)
Definition vector_sized (value_initialized : T) (sz : Z) : M vector :=
  arr <- allocate sz ;;
  for_up (Z.to_nat sz) 0
    (fun index => construct (arr +p index) value_initialized)
    (discard_new arr sz) ;;
  ret (Vector arr sz sz).

(** [vector(const vector& other)]: a block of [other.cap_] slots that
    receives copies of the [other.sz_] elements. *)
Definition vector_copy (other : vector) : M vector :=
  arr <- allocate (cap_ other) ;;
  for_up (Z.to_nat (sz_ other)) 0
    (fun index => x <- read (arr_ other +p index) ;; construct (arr +p index) x)
    (discard_new arr (cap_ other)) ;;
  ret (Vector arr (sz_ other) (cap_ other)).

(** ** Copy assignment, [swap] *)

(** [operator=(const vector& other)] for an [other] that is not [*this]
    (for [this == &other] the function returns at once). *)
Definition copy_assign (other : vector) : M unit :=
  v <- this ;;
  newarr <- allocate (cap_ other) ;;
  for_up (Z.to_nat (sz_ other)) 0
    (fun index => x <- read (arr_ other +p index) ;; construct (newarr +p index) x)
    (discard_new newarr (cap_ other)) ;;
  for_range 0 (sz_ v) (fun i => destroy (arr_ v +p i)) ;;
  deallocate (arr_ v) (cap_ v) ;;
  set_arr newarr ;;
  set_sz (sz_ other) ;;
  set_cap (cap_ other).

(** [swap(vector& other)]: the three data members change places.  The
    result is the state in which [other] is left. *)
Definition swap (other : vector) : M vector :=
  v <- this ;;
  set_sz (sz_ other) ;;
  let other := Vector (arr_ other) (sz_ v) (cap_ other) in
  set_cap (cap_ other) ;;
  let other := Vector (arr_ other) (sz_ other) (cap_ v) in
  set_arr (arr_ other) ;;
  let other := Vector (arr_ v) (sz_ other) (cap_ other) in
  ret other.

(** ** [resize] and [assign] *)

(** [resize(count, value)] *)
Definition resize (count : Z) (value : T) : M unit :=
  v <- this ;;
  (if sz_ v >? count then
     for_range count (sz_ v) (fun i => destroy (arr_ v +p i))
   else if sz_ v <? count then
     (if count >? cap_ v then reserve count else ret tt) ;;
     v <- this ;;
     for_up (Z.to_nat (count - sz_ v)) (sz_ v)
       (fun i => construct (arr_ v +p i) value)
       (fun i e =>
          for_range (sz_ v) i (fun new_i => destroy (arr_ v +p new_i)) ;;
          throw e)
   else ret tt) ;;
  set_sz count.

(** [assign(count, value)] *)
Definition assign (count : Z) (value : T) : M unit :=
  v <- this ;;
  if count <=? 0 then
    if negb (ptr_eqb (arr_ v) nullptr) then clear else ret tt
  else
    (if count >? cap_ v then
       newarr <- allocate count ;;
       for_up (Z.to_nat count) 0
         (fun i => construct (newarr +p i) value)
         (fun _ e => deallocate newarr count ;; throw e) ;;
       (if negb (ptr_eqb (arr_ v) nullptr)
        then clear ;; deallocate (arr_ v) (cap_ v)
        else ret tt) ;;
       set_arr newarr ;;
       set_cap count
     else
       clear ;;
       for_up (Z.to_nat count) 0
         (fun index => construct (arr_ v +p index) value)
         (fun index e =>
            for_range 0 index (fun new_index => destroy (arr_ v +p new_index)) ;;
            throw e)) ;;
    set_sz count.

(** ** Comparison *)

Variable eqb : T -> T -> bool.   (* [operator==] of T *)
Variable ltb : T -> T -> bool.   (* [operator<] of T *)

(** [std::equal(first1, last1, first2)] over [n = last1 - first1] elements *)
Fixpoint std_equal (n : nat) (first1 first2 : ptr) : M bool :=
  match n with
  | O => ret true
  | S n' =>
      a <- read first1 ;;
      b <- read first2 ;;
      if eqb a b then std_equal n' (first1 +p 1) (first2 +p 1) else ret false
  end.

(** [std::lexicographical_compare(first1, last1, first2, last2)], with
    [n1] and [n2] the lengths of the two ranges *)
Fixpoint lexicographical_compare (n1 n2 : nat) (first1 first2 : ptr) : M bool :=
  match n1, n2 with
  | S n1', S n2' =>
      a <- read first1 ;;
      b <- read first2 ;;
      if ltb a b then ret true
      else if ltb b a then ret false
      else lexicographical_compare n1' n2' (first1 +p 1) (first2 +p 1)
  | O, S _ => ret true
  | _, O => ret false
  end.

Definition op_eq (lhs rhs : vector) : M bool :=
  if size lhs =? size rhs
  then std_equal (Z.to_nat (sz_ lhs)) (begin lhs) (begin rhs)
  else ret false.

Definition op_ne (lhs rhs : vector) : M bool :=
  b <- op_eq lhs rhs ;; ret (negb b).

Definition op_lt (lhs rhs : vector) : M bool :=
  if negb (size lhs =? size rhs) then ret (size lhs <? size rhs)
  else lexicographical_compare (Z.to_nat (sz_ lhs)) (Z.to_nat (sz_ rhs)) (begin lhs) (begin rhs).

Definition op_gt (lhs rhs : vector) : M bool := op_lt rhs lhs.

Definition op_le (lhs rhs : vector) : M bool :=
  b <- op_lt rhs lhs ;; ret (negb b).

Definition op_ge (lhs rhs : vector) : M bool :=
  b <- op_lt lhs rhs ;; ret (negb b).

(** * The vocabulary of the properties *)

(** The store after an allocation. *)
Definition extend (h : list (option block)) (n : Z) : list (option block) :=
  h ++ [Some (replicate (Z.to_nat n) None)].

(** The [k]-th element of a sequence, none beyond its end. *)
Definition item (l : list T) (k : Z) : option T := l !! Z.to_nat k.

(** The cells at [a + lo .. a + hi) are the ones [f] gives. *)
Definition cells (h : list (option block)) (a : ptr) (lo hi : Z) (f : Z -> option T) : Prop :=
  forall k, lo <= k < hi -> slot h (a +p k) = Some (f k).

(** The class invariant, with the element sequence [l] the container
    holds: slots [0, sz_) are the live elements of [l] in order, slots
    [sz_, cap_) are unconstructed, and the block has [cap_] slots; without
    a block the capacity is zero. *)
Definition owns (h : list (option block)) (v : vector) (l : list T) : Prop :=
  sz_ v = Z.of_nat (length l) /\
  sz_ v <= cap_ v <= ptrdiff_max /\
  ((arr_ v = nullptr /\ cap_ v = 0) \/
   (exists loc, arr_ v = Ptr (Some loc) 0 /\
                block_len h loc = Some (cap_ v) /\
                cells h (arr_ v) 0 (cap_ v) (item l))).

(** The state [t] after [j] rounds of the loop that relocates the elements
    [l] from [a] to [b], started in state [s]. *)
Definition relocated (a b : ptr) (l : list T) (s : state) (j : Z) (t : state) : Prop :=
  self t = self s /\
  length (heap t) = length (heap s) /\
  (forall loc, block_len (heap t) loc = block_len (heap s) loc) /\
  cells (heap t) b 0 j (item l) /\
  cells (heap t) a 0 j
    (fun k => if nothrow_move || negb copyable
              then option_map moved (item l k) else item l k) /\
  (forall p, (forall k, 0 <= k < j -> p <> a +p k /\ p <> b +p k) ->
             slot (heap t) p = slot (heap s) p).

(** The store once the block at [p] is released. *)
Definition release (p : ptr) (h : list (option block)) : list (option block) :=
  match base p with
  | Some loc => <[loc := None]> h
  | None => h
  end.

(** Everything in the blocks that existed in [s], other than the block of
    [v], is the same in [s']. *)
Definition preserved (s s' : state) (v : vector) : Prop :=
  (length (heap s) <= length (heap s'))%nat /\
  (forall loc, (loc < length (heap s))%nat -> Some loc <> base (arr_ v) ->
     block_len (heap s') loc = block_len (heap s) loc) /\
  (forall p loc, base p = Some loc -> (loc < length (heap s))%nat ->
     base p <> base (arr_ v) -> slot (heap s') p = slot (heap s) p).

(** The elements [begin() .. end()) yields, read from the free store; there
    is none if one of the slots holds no element. *)
Definition contents (s : state) : option (list T) :=
  mapM (fun k => mjoin (slot (heap s) (arr_ (self s) +p Z.of_nat k)))
       (seq 0 (Z.to_nat (sz_ (self s)))).

(** [push_back] called with each of [values] in turn. *)
Fixpoint push_all (values : list T) : M unit :=
  match values with
  | [] => ret tt
  | value :: rest => push_back value ;; push_all rest
  end.

(** Elementwise equality of two sequences of one length. *)
Fixpoint all_equal (l1 l2 : list T) : bool :=
  match l1, l2 with
  | x :: r1, y :: r2 => if eqb x y then all_equal r1 r2 else false
  | _, _ => true
  end.

(** Lexicographic order on sequences by [operator<] of T. *)
Fixpoint lex_less (l1 l2 : list T) : bool :=
  match l1, l2 with
  | x :: r1, y :: r2 =>
      if ltb x y then true else if ltb y x then false else lex_less r1 r2
  | [], _ :: _ => true
  | _, [] => false
  end.

(** The elements of [l] lie at [p], [p + 1], ... *)
Definition laid_out (h : list (option block)) (p : ptr) (l : list T) : Prop :=
  forall k x, l !! k = Some x -> slot h (p +p Z.of_nat k) = Some (Some x).

(** The sequence with [new] put in before position [i]. *)
Definition spliced (l new : list T) (i : Z) : list T :=
  take (Z.to_nat i) l ++ new ++ drop (Z.to_nat i) l.

(** The block of [*this] while the tail is shifted: the loop variable is
    [i], the elements before it are in place, then come [count]
    unconstructed slots, then the elements already moved. *)
Definition gap_at (l : list T) (count i : Z) (k : Z) : option T :=
  if k <? i then item l k
  else if k <? i + count then None
  else item l (k - count).

(** The block while the gap is filled: [j] new elements are in. *)
Definition filled_to (l new : list T) (index count j : Z) (k : Z) : option T :=
  if k <? index then item l k
  else if k <? index + j then item new (k - index)
  else if k <? index + count then None
  else item l (k - count).

(** A state that differs from [s] at most inside the block of [*this],
    where the cells are the ones [f] gives. *)
Definition block_state (s : state) (f : Z -> option T) (t : state) : Prop :=
  self t = self s /\
  length (heap t) = length (heap s) /\
  (forall loc, block_len (heap t) loc = block_len (heap s) loc) /\
  (forall p, base p <> base (arr_ (self s)) -> slot (heap t) p = slot (heap s) p) /\
  cells (heap t) (arr_ (self s)) 0 (cap_ (self s)) f.

(** The elements at positions [f .. t) of [l]. *)
Definition sub_range (l : list T) (f t : Z) : list T :=
  take (Z.to_nat (t - f)) (drop (Z.to_nat f) l).

(** The block after the erased elements are destroyed. *)
Definition hole (l : list T) (i j : Z) (k : Z) : option T :=
  if k <? i then item l k else if k <? j then None else item l k.

(** The block while the tail moves down by [j - i]: the loop variable
    is [m]. *)
Definition closing (l : list T) (i j m : Z) (k : Z) : option T :=
  if k <? i then item l k
  else if k <? i + (m - j) then item l (k + (j - i))
  else if k <? m then None
  else item l k.

(** The part of [erase(first, last)] after the position check, for the
    index pair [i <= j]. *)
Definition erase_body (v : vector) (i j : Z) : M ptr :=
  for_range i j (fun k => destroy (arr_ v +p k)) ;;
  for_range j (sz_ v)
    (fun k =>
       construct_moved (arr_ v +p (i + (k - j))) (arr_ v +p k) ;;
       destroy (arr_ v +p k)) ;;
  set_sz (wrap (sz_ v - wrap (j - i))) ;;
  v' <- this ;;
  ret (begin v' +p to_diff (i + Z.max 0 (sz_ v - j))).

(** The state [t] after a loop that constructs elements in place has
    filled the slots [c + lo .. c + j) with the values [val] gives, started
    in state [s]. *)
Definition built (c : ptr) (lo : Z) (val : Z -> option T) (s : state) (j : Z) (t : state) : Prop :=
  self t = self s /\
  length (heap t) = length (heap s) /\
  (forall loc, block_len (heap t) loc = block_len (heap s) loc) /\
  cells (heap t) c lo j val /\
  (forall p, (forall k, lo <= k < j -> p <> c +p k) -> slot (heap t) p = slot (heap s) p).

(** Nothing that was in the store of [s] has changed in [s'], and the
    block at [loc] is not allocated in [s']. *)
Definition untouched (s s' : state) (loc : nat) : Prop :=
  self s' = self s /\
  (forall p, base p <> Some loc -> slot (heap s') p = slot (heap s) p) /\
  (forall l, l <> loc -> block_len (heap s') l = block_len (heap s) l) /\
  block_len (heap s') loc = None.

(** The capacity is zero with no element, or a power of two that is at
    least the size and less than twice the size. *)
Definition doubling (v : vector) : Prop :=
  (sz_ v = 0 /\ cap_ v = 0) \/
  (exists k : nat, cap_ v = 2 ^ Z.of_nat k /\ sz_ v <= cap_ v < 2 * sz_ v).

(** * The runs used as examples: [vector<int>] *)

(** Elements are integers; a moved-from integer is zero in these runs. *)
Definition moved_int (x : Z) : Z := 0.

(** No constructor ever throws. *)
Definition never (k : nat) : bool := false.

(** The constructor call number [n] throws. *)
Definition at_call (n k : nat) : bool := Nat.eqb n k.

(** A program starts with a default-constructed container and an empty
    free store. *)
Definition start : program_state Z := State vector_default [] 0.

(** The container [{10, 20, 30}] as three calls of [push_back] leave it:
    capacity 4, the third block of the run. *)
Definition three : program_state Z :=
  State (Vector (Ptr (Some 2%nat) 0) 3 4)
        [None; None; Some [Some 10; Some 20; Some 30; None]] 3.

(** The full container [{1, 2}] of a type whose moves may throw, after
    three constructor calls. *)
Definition two_full : program_state Z :=
  State (Vector (Ptr (Some 1%nat) 0) 2 2) [None; Some [Some 1; Some 2]] 3.


(** The containers [{9, 9}] and [{1, 2, 3}] built from initializer lists,
    and the free store that holds their blocks. *)
Definition nines : vector := Vector (Ptr (Some 0%nat) 0) 2 2.

Definition one_two_three : vector := Vector (Ptr (Some 1%nat) 0) 3 3.

Definition two_containers : program_state Z :=
  State vector_default [Some [Some 9; Some 9]; Some [Some 1; Some 2; Some 3]] 5.

(** The state in which [b] is [*this] and [a] is the argument. *)
Definition before_move : program_state Z := State vector_default (heap three) 3.

(** The same store with [{9, 9}] as [*this]. *)
Definition nines_is_this : program_state Z := State nines (heap two_containers) 5.

(** The container [{10, 20, 30}] after [insert(begin() + 1, 99)], for a
    move constructor that cannot throw: no constructor call is counted. *)
Definition three_with_99 : program_state Z :=
  State (Vector (Ptr (Some 2%nat) 0) 4 4)
        [None; None; Some [Some 10; Some 99; Some 20; Some 30]] 3.

(** The container [{10, 20, 30}] after [push_back(40)]. *)
Definition three_and_40 : program_state Z :=
  State (Vector (Ptr (Some 2%nat) 0) 4 4)
        [None; None; Some [Some 10; Some 20; Some 30; Some 40]] 4.

(** * Properties *)

Ltac case_compare :=
  repeat match goal with
         | |- context [?a <? ?b] => destruct (Z.ltb_spec a b)
         | |- context [?a =? ?b] => destruct (Z.eqb_spec a b)
         end;
  try lia; try reflexivity; try (f_equal; lia); try congruence.

(** ** The free store *)

Lemma slot_store_eq h p c c0 :
  slot h p = Some c0 -> slot (store h p c) p = Some c.
Proof.
  unfold slot, store. destruct p as [[l|] o]; simpl; [|discriminate].
  destruct (0 <=? o) eqn:Ho; [|discriminate].
  destruct (h !! l) as [[b|]|] eqn:Hl; try discriminate.
  intros Hb. rewrite list_lookup_insert_eq by (eapply lookup_lt_Some; eauto).
  apply list_lookup_insert_eq. eapply lookup_lt_Some; eauto.
Qed.

Lemma slot_store_ne h p q c :
  p <> q -> slot (store h p c) q = slot h q.
Proof.
  intros Hne. unfold slot, store.
  destruct p as [[l|] o], q as [[l'|] o']; simpl; try reflexivity.
  destruct (0 <=? o) eqn:Ho; [|reflexivity].
  destruct (0 <=? o') eqn:Ho'; [|reflexivity].
  destruct (h !! l) as [[b|]|] eqn:Hl; try reflexivity.
  destruct (decide (l = l')) as [->|Hll].
  - rewrite list_lookup_insert_eq by (eapply lookup_lt_Some; eauto).
    rewrite Hl. apply list_lookup_insert_ne.
    intros Heq. apply Hne. f_equal.
    apply Z.leb_le in Ho, Ho'. lia.
  - rewrite list_lookup_insert_ne by assumption. reflexivity.
Qed.

Lemma block_len_store h p c l : block_len (store h p c) l = block_len h l.
Proof.
  unfold block_len, store. destruct p as [[l0|] o]; simpl; try reflexivity.
  destruct (0 <=? o); [|reflexivity].
  destruct (h !! l0) as [[b|]|] eqn:Hl; try reflexivity.
  destruct (decide (l0 = l)) as [->|Hll].
  - rewrite list_lookup_insert_eq by (eapply lookup_lt_Some; eauto).
    rewrite Hl, length_insert. reflexivity.
  - rewrite list_lookup_insert_ne by assumption. reflexivity.
Qed.

Lemma length_store h p c : length (store h p c) = length h.
Proof.
  unfold store. destruct p as [[l0|] o]; simpl; try reflexivity.
  destruct (0 <=? o); [|reflexivity].
  destruct (h !! l0) as [[b|]|]; try reflexivity. apply length_insert.
Qed.

Lemma slot_outside h l o n :
  block_len h l = Some n -> ~ 0 <= o < n -> slot h (Ptr (Some l) o) = None.
Proof.
  unfold slot, block_len. simpl. intros Hb Ho.
  destruct (h !! l) as [[b|]|]; try discriminate.
  injection Hb as <-.
  destruct (0 <=? o) eqn:Hle; [|reflexivity].
  apply Z.leb_le in Hle. apply lookup_ge_None. lia.
Qed.

Lemma slot_extend_new h n o :
  0 <= o < n -> slot (extend h n) (Ptr (Some (length h)) o) = Some None.
Proof.
  intros Ho. unfold slot, extend. simpl.
  destruct (0 <=? o) eqn:Hle; [|apply Z.leb_gt in Hle; lia].
  rewrite lookup_app_r by lia. rewrite Nat.sub_diag. simpl.
  apply lookup_replicate_2. lia.
Qed.

Lemma slot_extend_new_add h n k :
  0 <= k < n -> slot (extend h n) (Ptr (Some (length h)) 0 +p k) = Some None.
Proof. intros Hk. unfold ptr_add. simpl. apply slot_extend_new. exact Hk. Qed.

Lemma slot_extend_old h n p :
  base p <> Some (length h) -> slot (extend h n) p = slot h p.
Proof.
  intros Hp. unfold slot, extend. destruct p as [[l|] o]; simpl in *; [|reflexivity].
  destruct (0 <=? o); [|reflexivity].
  destruct (decide (l < length h)%nat) as [Hlt|Hge].
  - rewrite lookup_app_l by assumption. reflexivity.
  - assert (l <> length h) by congruence.
    rewrite (lookup_ge_None_2 (h ++ _)) by (rewrite length_app; simpl; lia).
    rewrite (lookup_ge_None_2 h) by lia. reflexivity.
Qed.

Lemma block_len_extend_new h n :
  0 <= n -> block_len (extend h n) (length h) = Some n.
Proof.
  intros Hn. unfold block_len, extend.
  rewrite lookup_app_r by lia. rewrite Nat.sub_diag. simpl.
  rewrite length_replicate. f_equal. lia.
Qed.

Lemma block_len_extend_old h n l :
  l <> length h -> block_len (extend h n) l = block_len h l.
Proof.
  intros Hl. unfold block_len, extend.
  destruct (decide (l < length h)%nat) as [Hlt|Hge].
  - rewrite lookup_app_l by assumption. reflexivity.
  - rewrite (lookup_ge_None_2 (h ++ _)) by (rewrite length_app; simpl; lia).
    rewrite (lookup_ge_None_2 h) by lia. reflexivity.
Qed.

Lemma length_extend h n : length (extend h n) = S (length h).
Proof. unfold extend. rewrite length_app. simpl. lia. Qed.

Lemma slot_free_other h l p :
  base p <> Some l -> slot (<[l := None]> h) p = slot h p.
Proof.
  intros Hp. unfold slot. destruct p as [[l'|] o]; simpl in *; [|reflexivity].
  destruct (0 <=? o); [|reflexivity].
  rewrite list_lookup_insert_ne by congruence. reflexivity.
Qed.

Lemma block_len_free_other h l l' :
  l' <> l -> block_len (<[l := None]> h) l' = block_len h l'.
Proof.
  intros Hl. unfold block_len. rewrite list_lookup_insert_ne by congruence. reflexivity.
Qed.


(** ** Pointer arithmetic *)

Lemma ptr_add_add p n m : p +p n +p m = p +p (n + m).
Proof. unfold ptr_add. simpl. f_equal. lia. Qed.

Lemma ptr_add_0 p : p +p 0 = p.
Proof. destruct p. unfold ptr_add. simpl. f_equal. lia. Qed.

Lemma ptr_add_inj p n m : p +p n = p +p m -> n = m.
Proof. unfold ptr_add. intros H. injection H. lia. Qed.

Lemma ptr_add_ne p n m : n <> m -> p +p n <> p +p m.
Proof. intros Hne H. apply Hne. eapply ptr_add_inj. eassumption. Qed.

Lemma ptr_base_ne p q : base p <> base q -> p <> q.
Proof. congruence. Qed.

Lemma ptr_in_block p a : base p = base a -> p = a +p (off p - off a).
Proof. destruct p, a. unfold ptr_add. simpl. intros ->. f_equal. lia. Qed.

Lemma base_eqb_eq a b : base_eqb a b = true <-> a = b.
Proof.
  destruct a, b; simpl; try (split; congruence).
  rewrite Nat.eqb_eq. split; congruence.
Qed.

Lemma base_eqb_refl a : base_eqb a a = true.
Proof. apply base_eqb_eq. reflexivity. Qed.

Lemma ptr_eqb_eq p q : ptr_eqb p q = true <-> p = q.
Proof.
  unfold ptr_eqb. rewrite andb_true_iff, base_eqb_eq, Z.eqb_eq.
  destruct p, q. simpl. split; [intros [-> ->]; reflexivity | intros H; injection H; auto].
Qed.

(** ** Running the primitives *)

Lemma bind_Ok {A B} (m : M A) (k : A -> M B) s a s' :
  m s = Ok a s' -> bind m k s = k a s'.
Proof. unfold bind. intros ->. reflexivity. Qed.

Lemma bind_Throw {A B} (m : M A) (k : A -> M B) s e s' :
  m s = Throw e s' -> bind m k s = Throw e s'.
Proof. unfold bind. intros ->. reflexivity. Qed.

Lemma bind_Fault {A B} (m : M A) (k : A -> M B) s f :
  m s = Fault f -> bind m k s = Fault f.
Proof. unfold bind. intros ->. reflexivity. Qed.

Lemma bind_this {B} (k : vector -> M B) s : bind this k s = k (self s) s.
Proof. reflexivity. Qed.

Lemma construct_run p x s c0 :
  slot (heap s) p = Some c0 ->
  construct p x s =
    if fails (calls s)
    then Throw element_error (State (self s) (heap s) (S (calls s)))
    else Ok tt (State (self s) (store (heap s) p (Some x)) (S (calls s))).
Proof. unfold construct. intros ->. reflexivity. Qed.

Lemma read_run p s x : slot (heap s) p = Some (Some x) -> read p s = Ok x s.
Proof. unfold read. intros ->. reflexivity. Qed.

Lemma destroy_run p s x :
  slot (heap s) p = Some (Some x) ->
  destroy p s = Ok tt (State (self s) (store (heap s) p None) (calls s)).
Proof. unfold destroy. intros ->. reflexivity. Qed.

Lemma destroy_raw p s :
  slot (heap s) p = Some None \/ slot (heap s) p = None ->
  destroy p s = Fault (destroy_not_live p).
Proof. unfold destroy. intros [-> | ->]; reflexivity. Qed.

Lemma construct_moved_run dst src s x c0 :
  slot (heap s) src = Some (Some x) ->
  slot (heap s) dst = Some c0 ->
  construct_moved dst src s =
    if nothrow_move
    then Ok tt (State (self s)
                      (store (store (heap s) src (Some (moved x))) dst (Some x))
                      (calls s))
    else if fails (calls s)
    then Throw element_error (State (self s) (heap s) (S (calls s)))
    else Ok tt (State (self s)
                      (if copyable then store (heap s) dst (Some x)
                       else store (store (heap s) src (Some (moved x))) dst (Some x))
                      (S (calls s))).
Proof.
  intros Hsrc Hdst. unfold construct_moved.
  rewrite (bind_Ok _ _ _ _ _ (read_run _ _ _ Hsrc)).
  destruct nothrow_move; [rewrite Hdst; reflexivity|].
  destruct copyable.
  - apply (construct_run _ _ _ _ Hdst).
  - rewrite Hdst. reflexivity.
Qed.

Lemma construct_forwarded_run p x s c0 :
  slot (heap s) p = Some c0 ->
  construct_forwarded p x s =
    if nothrow_move
    then Ok tt (State (self s) (store (heap s) p (Some x)) (calls s))
    else if fails (calls s)
    then Throw element_error (State (self s) (heap s) (S (calls s)))
    else Ok tt (State (self s) (store (heap s) p (Some x)) (S (calls s))).
Proof.
  intros Hp. unfold construct_forwarded.
  destruct nothrow_move; [rewrite Hp; reflexivity|].
  apply (construct_run _ _ _ _ Hp).
Qed.

Lemma allocate_run n s :
  n <= ptrdiff_max ->
  allocate n s = Ok (Ptr (Some (length (heap s))) 0)
                    (State (self s) (extend (heap s) n) (calls s)).
Proof.
  intros Hn. unfold allocate.
  destruct (n >? ptrdiff_max) eqn:Hgt; [apply Z.gtb_lt in Hgt; lia | reflexivity].
Qed.

Lemma allocate_refuses n s :
  ptrdiff_max < n -> allocate n s = Throw bad_alloc s.
Proof.
  intros Hn. unfold allocate.
  destruct (n >? ptrdiff_max) eqn:Hgt; [reflexivity|].
  rewrite Z.gtb_ltb in Hgt. apply Z.ltb_ge in Hgt. lia.
Qed.

Lemma allocate_granted n s p s0 : allocate n s = Ok p s0 -> n <= ptrdiff_max.
Proof.
  unfold allocate. destruct (n >? ptrdiff_max) eqn:Hgt; [discriminate|].
  intros _. rewrite Z.gtb_ltb in Hgt. apply Z.ltb_ge in Hgt. exact Hgt.
Qed.

Lemma deallocate_run l n s :
  block_len (heap s) l = Some n ->
  deallocate (Ptr (Some l) 0) n s = Ok tt (State (self s) (<[l := None]> (heap s)) (calls s)).
Proof.
  intros Hl. unfold deallocate. simpl. rewrite Hl, Z.eqb_refl. reflexivity.
Qed.

(** ** Loop rules *)

(** An upward loop with invariant [I]: it ends normally with the invariant
    at the final index, or some round [j] throws and the handler runs from
    a state in [E j], or a round goes wrong (possible only if [FP]). *)
Lemma for_up_rule (I : Z -> state -> Prop) (E : Z -> exn -> state -> Prop) (FP : Prop)
    n i body handler s :
  I i s ->
  (forall j t, i <= j < i + Z.of_nat n -> I j t ->
     match body j t with
     | Ok _ t' => I (j + 1) t'
     | Throw e t' => E j e t'
     | Fault _ => FP
     end) ->
  (exists s', for_up n i body handler s = Ok tt s' /\ I (i + Z.of_nat n) s') \/
  (exists j e t, i <= j < i + Z.of_nat n /\ E j e t /\
                 for_up n i body handler s = handler j e t) \/
  (FP /\ exists f, for_up n i body handler s = Fault f).
Proof.
  revert i s. induction n as [|n IH]; intros i s Hi Hbody.
  - left. exists s. split; [reflexivity|]. replace (i + Z.of_nat 0) with i by lia. exact Hi.
  - simpl for_up. pose proof (Hbody i s ltac:(lia) Hi) as Hb.
    destruct (body i s) as [[] s1 | e s1 | f].
    + destruct (IH (i + 1) s1 Hb) as [(s' & Hr & Hs') | [(j & e & t & Hj & He & Hr) | (Hfp & f & Hr)]].
      * intros j t Hj. apply Hbody. lia.
      * left. exists s'. split; [exact Hr|].
        replace (i + Z.of_nat (S n)) with (i + 1 + Z.of_nat n) by lia. exact Hs'.
      * right; left. exists j, e, t. split; [lia|]. split; assumption.
      * right; right. split; [exact Hfp|]. exists f. exact Hr.
    + right; left. exists i, e, s1. split; [lia|]. split; [exact Hb | reflexivity].
    + right; right. split; [exact Hb|]. exists f. reflexivity.
Qed.

(** The same for a downward loop, which has no handler of its own. *)
Lemma for_down_rule (I : Z -> state -> Prop) (E : exn -> state -> Prop) (FP : Prop)
    n i body s :
  I i s ->
  (forall j t, i - Z.of_nat n < j <= i -> I j t ->
     match body j t with
     | Ok _ t' => I (j - 1) t'
     | Throw e t' => E e t'
     | Fault _ => FP
     end) ->
  (exists s', for_down n i body s = Ok tt s' /\ I (i - Z.of_nat n) s') \/
  (exists e t, E e t /\ for_down n i body s = Throw e t) \/
  (FP /\ exists f, for_down n i body s = Fault f).
Proof.
  revert i s. induction n as [|n IH]; intros i s Hi Hbody.
  - left. exists s. split; [reflexivity|]. replace (i - Z.of_nat 0) with i by lia. exact Hi.
  - assert (Hstep : for_down (S n) i body s =
                    match body i s with
                    | Ok _ s' => for_down n (i - 1) body s'
                    | Throw e s' => Throw e s'
                    | Fault f => Fault f
                    end) by reflexivity.
    rewrite Hstep. clear Hstep. pose proof (Hbody i s ltac:(lia) Hi) as Hb.
    destruct (body i s) as [[] s1 | e s1 | f].
    + destruct (IH (i - 1) s1 Hb) as [(s' & Hr & Hs') | [(e & t & He & Hr) | (Hfp & f & Hr)]].
      * intros j t Hj. apply Hbody. lia.
      * left. exists s'. split; [exact Hr|].
        replace (i - Z.of_nat (S n)) with (i - 1 - Z.of_nat n) by lia. exact Hs'.
      * right; left. exists e, t. split; assumption.
      * right; right. split; [exact Hfp|]. exists f. exact Hr.
    + right; left. exists e, s1. split; [exact Hb | reflexivity].
    + right; right. split; [exact Hb|]. exists f. reflexivity.
Qed.


(** ** What a container owns *)

Lemma item_lt l k : 0 <= k < Z.of_nat (length l) -> exists x, item l k = Some x.
Proof. intros Hk. unfold item. apply lookup_lt_is_Some_2. lia. Qed.

Lemma item_ge l k : Z.of_nat (length l) <= k -> item l k = None.
Proof. intros Hk. unfold item. apply lookup_ge_None_2. lia. Qed.

Lemma item_app_l l l' k : 0 <= k < Z.of_nat (length l) -> item (l ++ l') k = item l k.
Proof. intros Hk. unfold item. apply lookup_app_l. lia. Qed.

Lemma item_app_r l l' k :
  Z.of_nat (length l) <= k -> item (l ++ l') k = item l' (k - Z.of_nat (length l)).
Proof.
  intros Hk. unfold item. rewrite lookup_app_r by lia. f_equal. lia.
Qed.

(** ** Destroying a range of live elements *)

Lemma destroy_loop a lo hi s :
  (forall k, lo <= k < hi -> exists x, slot (heap s) (a +p k) = Some (Some x)) ->
  exists s', for_range lo hi (fun i => destroy (a +p i)) s = Ok tt s' /\
    self s' = self s /\ calls s' = calls s /\
    length (heap s') = length (heap s) /\
    (forall l, block_len (heap s') l = block_len (heap s) l) /\
    cells (heap s') a lo hi (fun _ => None) /\
    (forall p, (forall k, lo <= k < hi -> p <> a +p k) -> slot (heap s') p = slot (heap s) p).
Proof.
  intros Hlive. unfold for_range.
  set (I := fun (j : Z) (t : state) =>
    self t = self s /\ calls t = calls s /\
    length (heap t) = length (heap s) /\
    (forall l, block_len (heap t) l = block_len (heap s) l) /\
    cells (heap t) a lo j (fun _ => None) /\
    (forall p, (forall k, lo <= k < j -> p <> a +p k) -> slot (heap t) p = slot (heap s) p)).
  destruct (for_up_rule I (fun _ _ _ => False) False (Z.to_nat (hi - lo)) lo
              (fun i => destroy (a +p i)) rethrow s)
    as [(s' & Hr & Hs') | [(j & e & t & _ & [] & _) | ([] & _)]].
  - unfold I. repeat split; try reflexivity.
    intros k Hk. lia.
  - intros j t Hj (Hself & Hcalls & Hlen & Hbl & Hcells & Hframe).
    destruct (Hlive j ltac:(lia)) as [x Hx].
    assert (Hjt : slot (heap t) (a +p j) = Some (Some x)).
    { rewrite Hframe; [exact Hx|]. intros k Hk. apply ptr_add_ne. lia. }
    rewrite (destroy_run _ _ _ Hjt). unfold I. simpl.
    split; [exact Hself|]. split; [exact Hcalls|].
    split; [rewrite length_store; exact Hlen|].
    split; [intros l; rewrite block_len_store; apply Hbl|].
    split.
    + intros k Hk. destruct (decide (k = j)) as [->|Hne].
      * eapply slot_store_eq. exact Hjt.
      * rewrite slot_store_ne by (apply ptr_add_ne; lia). apply Hcells. lia.
    + intros p Hp. rewrite slot_store_ne.
      * apply Hframe. intros k Hk. apply Hp. lia.
      * intros Heq. apply (Hp j); [lia | symmetry; exact Heq].
  - exists s'. split; [exact Hr|].
    destruct Hs' as (Hself & Hcalls & Hlen & Hbl & Hcells & Hframe).
    destruct (Z.le_gt_cases lo hi).
    + replace (lo + Z.of_nat (Z.to_nat (hi - lo))) with hi in * by lia.
      repeat split; assumption.
    + replace (lo + Z.of_nat (Z.to_nat (hi - lo))) with lo in * by lia.
      repeat split; try assumption.
      * intros k Hk. lia.
      * intros p Hp. apply Hframe. intros k Hk. lia.
Qed.

(** ** Moving the elements into a new block *)

Lemma relocate_loop a b l s handler :
  base a <> base b ->
  cells (heap s) a 0 (Z.of_nat (length l)) (item l) ->
  let loop := for_up (length l) 0
                (fun index => construct_moved (b +p index) (a +p index)) handler in
  (exists s', loop s = Ok tt s' /\ relocated a b l s (Z.of_nat (length l)) s') \/
  (exists j e t, 0 <= j < Z.of_nat (length l) /\
     (nothrow_move = false /\ e = element_error /\ (exists k, fails k = true) /\
      relocated a b l s j t) /\
     loop s = handler j e t) \/
  ((exists j, 0 <= j < Z.of_nat (length l) /\ slot (heap s) (b +p j) = None) /\
   exists f, loop s = Fault f).
Proof.
  intros Hab Hsrc loop. unfold loop.
  apply (for_up_rule (relocated a b l s)
           (fun j e t => nothrow_move = false /\ e = element_error /\
                         (exists k, fails k = true) /\ relocated a b l s j t)
           (exists j, 0 <= j < Z.of_nat (length l) /\ slot (heap s) (b +p j) = None)).
  - unfold relocated. repeat split; try reflexivity; intros k Hk; lia.
  - intros j t Hj Hrel. pose proof Hrel as (Hself & Hlen & Hbl & Hb & Ha & Hframe).
    destruct (item_lt l j ltac:(lia)) as [x Hx].
    assert (Hsj : slot (heap t) (a +p j) = Some (Some x)).
    { rewrite Hframe.
      - rewrite (Hsrc j) by lia. rewrite Hx. reflexivity.
      - intros k Hk. split; [apply ptr_add_ne; lia | apply ptr_base_ne; exact Hab]. }
    assert (Hdj : slot (heap t) (b +p j) = slot (heap s) (b +p j)).
    { apply Hframe. intros k Hk. split; [|apply ptr_add_ne; lia].
      apply ptr_base_ne. simpl. congruence. }
    destruct (slot (heap s) (b +p j)) as [c0|] eqn:Hd0.
    + rewrite (construct_moved_run _ _ _ _ _ Hsj Hdj).
      assert (Hne : a +p j <> b +p j) by (apply ptr_base_ne; exact Hab).
      assert (Hmove : forall c, nothrow_move || negb copyable = true ->
                relocated a b l s (j + 1)
                  (State (self t)
                         (store (store (heap t) (a +p j) (Some (moved x))) (b +p j) (Some x))
                         c)).
      { intros c Hmv. unfold relocated. simpl. rewrite Hmv.
        unfold relocated in Ha. rewrite Hmv in Ha.
        split; [exact Hself|]. split; [rewrite !length_store; exact Hlen|].
        split; [intros loc; rewrite !block_len_store; apply Hbl|].
        split; [|split].
        - intros k Hk. destruct (decide (k = j)) as [->|Hkj].
          + rewrite Hx. eapply slot_store_eq.
            rewrite slot_store_ne by exact Hne. exact Hdj.
          + rewrite slot_store_ne by (apply ptr_add_ne; lia).
            rewrite slot_store_ne by (apply ptr_base_ne; simpl; congruence).
            apply Hb. lia.
        - intros k Hk. destruct (decide (k = j)) as [->|Hkj].
          + rewrite slot_store_ne by (apply ptr_base_ne; simpl; congruence).
            rewrite Hx. simpl. eapply slot_store_eq. exact Hsj.
          + rewrite slot_store_ne by (apply ptr_base_ne; simpl; congruence).
            rewrite slot_store_ne by (apply ptr_add_ne; lia).
            apply Ha. lia.
        - intros p Hp. destruct (Hp j ltac:(lia)) as [Hpa Hpb].
          rewrite slot_store_ne by congruence.
          rewrite slot_store_ne by congruence.
          apply Hframe. intros k Hk. apply Hp. lia. }
      assert (Hcopy : forall c, nothrow_move || negb copyable = false ->
                relocated a b l s (j + 1)
                  (State (self t) (store (heap t) (b +p j) (Some x)) c)).
      { intros c Hmv. unfold relocated. simpl. rewrite Hmv.
        unfold relocated in Ha. rewrite Hmv in Ha.
        split; [exact Hself|]. split; [rewrite length_store; exact Hlen|].
        split; [intros loc; rewrite block_len_store; apply Hbl|].
        split; [|split].
        - intros k Hk. destruct (decide (k = j)) as [->|Hkj].
          + rewrite Hx. eapply slot_store_eq. exact Hdj.
          + rewrite slot_store_ne by (apply ptr_add_ne; lia). apply Hb. lia.
        - intros k Hk. rewrite slot_store_ne by (apply ptr_base_ne; simpl; congruence).
          destruct (decide (k = j)) as [->|Hkj].
          + rewrite Hx. exact Hsj.
          + apply Ha. lia.
        - intros p Hp. destruct (Hp j ltac:(lia)) as [Hpa Hpb].
          rewrite slot_store_ne by congruence.
          apply Hframe. intros k Hk. apply Hp. lia. }
      destruct nothrow_move eqn:Hnt.
      * (* a move that cannot throw *)
        apply Hmove. reflexivity.
      * destruct (fails (calls t)) eqn:Hf.
        -- (* the copy, or the move, throws *)
           split; [reflexivity|]. split; [reflexivity|]. split; [eauto|].
           exact Hrel.
        -- destruct copyable; [apply Hcopy | apply Hmove]; reflexivity.
    + unfold construct_moved. rewrite (bind_Ok _ _ _ _ _ (read_run _ _ _ Hsj)).
      destruct nothrow_move; [|destruct copyable].
      * rewrite Hdj. exists j. split; [lia | exact Hd0].
      * unfold construct. rewrite Hdj. exists j. split; [lia | exact Hd0].
      * rewrite Hdj. exists j. split; [lia | exact Hd0].
Qed.


(** ** Facts about the invariant *)

Lemma block_len_Some_lt h loc n : block_len h loc = Some n -> (loc < length h)%nat.
Proof.
  unfold block_len. destruct (h !! loc) as [[b|]|] eqn:Hl; try discriminate.
  intros _. eapply lookup_lt_Some. exact Hl.
Qed.

(** The block of a container, if it has one, was allocated before. *)
Lemma owns_base h v l :
  owns h v l -> forall loc, base (arr_ v) = Some loc -> (loc < length h)%nat.
Proof.
  intros (_ & _ & [[Hnull _] | (loc0 & Harr & Hbl & _)]) loc Hb.
  - rewrite Hnull in Hb. discriminate.
  - rewrite Harr in Hb. simpl in Hb. injection Hb as <-.
    eapply block_len_Some_lt. exact Hbl.
Qed.

Lemma owns_live h v l :
  owns h v l -> cells h (arr_ v) 0 (Z.of_nat (length l)) (item l).
Proof.
  intros (Hsz & Hcap & [[Hnull Hc0] | (loc & Harr & Hbl & Hcells)]).
  - intros k Hk. lia.
  - intros k Hk. apply Hcells. lia.
Qed.

Lemma owns_raw h v l :
  owns h v l -> forall k, sz_ v <= k < cap_ v -> slot h (arr_ v +p k) = Some None.
Proof.
  intros (Hsz & Hcap & [[Hnull Hc0] | (loc & Harr & Hbl & Hcells)]) k Hk.
  - lia.
  - rewrite Hcells by lia. rewrite item_ge by lia. reflexivity.
Qed.

Lemma owns_outside h v l :
  owns h v l -> forall k, ~ 0 <= k < cap_ v -> slot h (arr_ v +p k) = None.
Proof.
  intros (Hsz & Hcap & [[Hnull Hc0] | (loc & Harr & Hbl & Hcells)]) k Hk.
  - rewrite Hnull. reflexivity.
  - rewrite Harr. unfold ptr_add. simpl. eapply slot_outside; [exact Hbl | lia].
Qed.

(** The invariant only looks at the container's own block. *)
Lemma owns_transfer h h' v l :
  owns h v l ->
  (forall loc, base (arr_ v) = Some loc -> block_len h' loc = block_len h loc) ->
  (forall k, 0 <= k < cap_ v -> slot h' (arr_ v +p k) = slot h (arr_ v +p k)) ->
  owns h' v l.
Proof.
  intros (Hsz & Hcap & Hblock) Hlen Hslots.
  split; [exact Hsz|]. split; [exact Hcap|].
  destruct Hblock as [Hnull | (loc & Harr & Hbl & Hcells)]; [left; exact Hnull|].
  right. exists loc. split; [exact Harr|]. split.
  - rewrite Hlen; [exact Hbl | rewrite Harr; reflexivity].
  - intros k Hk. rewrite Hslots by exact Hk. apply Hcells. exact Hk.
Qed.

Lemma length_release p h : length (release p h) = length h.
Proof. unfold release. destruct (base p); [apply length_insert | reflexivity]. Qed.

Lemma slot_release_other p h q :
  base q <> base p -> slot (release p h) q = slot h q.
Proof.
  unfold release. intros Hq. destruct (base p) eqn:Hp; [|reflexivity].
  apply slot_free_other. exact Hq.
Qed.

Lemma block_len_release_other p h loc :
  Some loc <> base p -> block_len (release p h) loc = block_len h loc.
Proof.
  unfold release. intros Hq. destruct (base p) eqn:Hp; [|reflexivity].
  apply block_len_free_other. congruence.
Qed.

Lemma deallocate_block p n t :
  (p = nullptr \/ exists loc, p = Ptr (Some loc) 0 /\ block_len (heap t) loc = Some n) ->
  deallocate p n t = Ok tt (State (self t) (release p (heap t)) (calls t)).
Proof.
  intros [-> | (loc & -> & Hbl)].
  - destruct t. reflexivity.
  - apply deallocate_run. exact Hbl.
Qed.

(** The handler of a failed relocation throws the exception on and leaves
    everything outside the new block as it was. *)
Lemma discard_new_run loc newcap j e t :
  block_len (heap t) loc = Some newcap ->
  (forall k, 0 <= k < j -> exists x, slot (heap t) (Ptr (Some loc) 0 +p k) = Some (Some x)) ->
  exists t', discard_new (Ptr (Some loc) 0) newcap j e t = Throw e t' /\
    self t' = self t /\
    length (heap t') = length (heap t) /\
    (forall l, l <> loc -> block_len (heap t') l = block_len (heap t) l) /\
    (forall p, base p <> Some loc -> slot (heap t') p = slot (heap t) p).
Proof.
  intros Hbl Hlive. unfold discard_new.
  destruct (destroy_loop (Ptr (Some loc) 0) 0 j t Hlive)
    as (t1 & Hr & Hself & Hcalls & Hlen & Hbl1 & _ & Hframe).
  rewrite (bind_Ok _ _ _ _ _ Hr).
  assert (Hd : block_len (heap t1) loc = Some newcap) by (rewrite Hbl1; exact Hbl).
  rewrite (bind_Ok _ _ _ _ _ (deallocate_run _ _ _ Hd)).
  eexists. split; [reflexivity|]. simpl.
  split; [exact Hself|]. split; [rewrite length_insert; exact Hlen|]. split.
  - intros l Hl. rewrite block_len_free_other by exact Hl. apply Hbl1.
  - intros p Hp. rewrite slot_free_other by exact Hp.
    apply Hframe. intros k _. apply ptr_base_ne. exact Hp.
Qed.


(** ** Moving into a new block and releasing the old one *)

(** What [reserve], [shrink_to_fit] and [emplace_back] do once the new
    block is there: relocate the elements, destroy the originals, release
    the old block.  Either all of it happens and the elements are in the
    new block, or a relocation throws, which for copies leaves the
    container as before, or the new block is too small. *)
Lemma migrate_run v l s1 newloc newcap (rest : M unit) :
  self s1 = v ->
  owns (heap s1) v l ->
  block_len (heap s1) newloc = Some newcap ->
  base (arr_ v) <> Some newloc ->
  let newarr := Ptr (Some newloc) 0 in
  let prog :=
    (for_up (Z.to_nat (sz_ v)) 0
       (fun index => construct_moved (newarr +p index) (arr_ v +p index))
       (discard_new newarr newcap) ;;
     for_range 0 (sz_ v) (fun index => destroy (arr_ v +p index)) ;;
     deallocate (arr_ v) (cap_ v) ;;
     rest) in
  (exists s2, prog s1 = rest s2 /\
     self s2 = v /\
     length (heap s2) = length (heap s1) /\
     block_len (heap s2) newloc = Some newcap /\
     cells (heap s2) newarr 0 (sz_ v) (item l) /\
     (forall k, ~ 0 <= k < sz_ v ->
        slot (heap s2) (newarr +p k) = slot (heap s1) (newarr +p k)) /\
     (forall p, base p <> Some newloc -> base p <> base (arr_ v) ->
        slot (heap s2) p = slot (heap s1) p) /\
     (forall loc, loc <> newloc -> Some loc <> base (arr_ v) ->
        block_len (heap s2) loc = block_len (heap s1) loc)) \/
  (exists e s2, prog s1 = Throw e s2 /\
     self s2 = v /\ (copyable = true -> owns (heap s2) v l) /\
     nothrow_move = false /\ e = element_error /\ (exists k, fails k = true) /\
     length (heap s2) = length (heap s1) /\
     (forall p, base p <> Some newloc -> base p <> base (arr_ v) ->
        slot (heap s2) p = slot (heap s1) p) /\
     (forall loc, loc <> newloc -> block_len (heap s2) loc = block_len (heap s1) loc)) \/
  ((exists j, 0 <= j < sz_ v /\ slot (heap s1) (newarr +p j) = None) /\
   exists f, prog s1 = Fault f).
Proof.
  intros Hself Hown Hnew Hbase newarr prog.
  pose proof Hown as (Hsz & Hcap & Hblock).
  assert (Hab : base (arr_ v) <> base newarr) by exact Hbase.
  pose proof (relocate_loop (arr_ v) newarr l s1 (discard_new newarr newcap) Hab
                (owns_live _ _ _ Hown)) as Hloop.
  cbv zeta in Hloop. unfold prog.
  replace (Z.to_nat (sz_ v)) with (length l) by lia.
  destruct Hloop as [(s2 & Hr & Hrel) | [(j & e & t & Hj & (Hnt & He & Hk & Hrel) & Hr)
                                       | ((j & Hj & Hnone) & f & Hr)]].
  - (* all elements are in the new block *)
    left. rewrite (bind_Ok _ _ _ _ _ Hr).
    destruct Hrel as (Hself2 & Hlen2 & Hbl2 & Hb2 & Ha2 & Hframe2).
    destruct (destroy_loop (arr_ v) 0 (sz_ v) s2) as
      (s3 & Hr3 & Hself3 & Hcalls3 & Hlen3 & Hbl3 & _ & Hframe3).
    { intros k Hk. rewrite Ha2 by lia.
      destruct (item_lt l k ltac:(lia)) as [x Hx]. rewrite Hx.
      destruct (nothrow_move || negb copyable); simpl; eauto. }
    rewrite (bind_Ok _ _ _ _ _ Hr3).
    rewrite (bind_Ok _ _ _ _ _ (deallocate_block (arr_ v) (cap_ v) s3 ltac:(
      destruct Hblock as [[Hnull _] | (loc & Harr & Hbl & _)];
      [left; exact Hnull | right; exists loc; split; [exact Harr|];
       rewrite Hbl3, Hbl2; exact Hbl]))).
    eexists. split; [reflexivity|]. simpl.
    split; [congruence|].
    split; [rewrite length_release; congruence|].
    split.
    { rewrite block_len_release_other by congruence. rewrite Hbl3, Hbl2. exact Hnew. }
    split.
    { intros k Hk. rewrite slot_release_other by (simpl; congruence).
      rewrite Hframe3 by (intros k' _; apply ptr_base_ne; simpl; congruence).
      apply Hb2. lia. }
    split.
    { intros k Hk. rewrite slot_release_other by (simpl; congruence).
      rewrite Hframe3 by (intros k' _; apply ptr_base_ne; simpl; congruence).
      apply Hframe2. intros k' Hk'. split.
      - apply ptr_base_ne. simpl. congruence.
      - apply ptr_add_ne. lia. }
    split.
    { intros p Hp1 Hp2. rewrite slot_release_other by exact Hp2.
      rewrite Hframe3 by (intros k' _; apply ptr_base_ne; exact Hp2).
      apply Hframe2. intros k' _. split; apply ptr_base_ne; simpl; congruence. }
    { intros loc Hl1 Hl2. rewrite block_len_release_other by exact Hl2.
      rewrite Hbl3. apply Hbl2. }
  - (* a copy, or a move, threw *)
    right; left.
    destruct Hrel as (Hself2 & Hlen2 & Hbl2 & Hb2 & Ha2 & Hframe2).
    rewrite Hnt in Ha2.
    destruct (discard_new_run newloc newcap j e t) as (t' & Hd & Hself' & Hlen' & Hbl' & Hframe').
    { rewrite Hbl2. exact Hnew. }
    { intros k Hk'. fold newarr. rewrite (Hb2 k Hk').
      destruct (item_lt l k ltac:(lia)) as [x Hx]. rewrite Hx. eauto. }
    assert (Hother : forall p, base p <> Some newloc -> base p <> base (arr_ v) ->
              slot (heap t) p = slot (heap s1) p).
    { intros p Hp Hpa. apply Hframe2.
      intros k Hk'. split; apply ptr_base_ne; simpl; congruence. }
    exists e, t'. split; [apply bind_Throw; rewrite Hr; exact Hd|].
    split; [congruence|]. split.
    { (* the originals of a copy are as they were *)
      intros Hcopy. rewrite Hcopy in Ha2. simpl in Ha2.
      apply (owns_transfer (heap s1)); [exact Hown | |].
      - intros loc Hloc. rewrite Hbl' by congruence. apply Hbl2.
      - intros k Hk'. rewrite Hframe' by (simpl; congruence).
        destruct (decide (0 <= k < j)) as [Hin|Hout].
        + rewrite Ha2 by exact Hin. symmetry. apply (owns_live _ _ _ Hown). lia.
        + apply Hframe2. intros k' Hk''. split.
          * apply ptr_add_ne. lia.
          * apply ptr_base_ne. simpl. congruence. }
    split; [exact Hnt|]. split; [exact He|]. split; [exact Hk|].
    split; [congruence|]. split.
    + intros p Hp Hpa. rewrite Hframe' by exact Hp. apply Hother; assumption.
    + intros loc Hloc. rewrite Hbl' by exact Hloc. apply Hbl2.
  - right; right. split; [exists j; split; [lia | exact Hnone]|].
    exists f. apply bind_Fault. exact Hr.
Qed.


Lemma preserved_same s s' v : heap s' = heap s -> preserved s s' v.
Proof. unfold preserved. intros ->. repeat split; intros; reflexivity. Qed.

Lemma preserved_refl s v : preserved s s v.
Proof. apply preserved_same. reflexivity. Qed.

(** The invariant survives an allocation. *)
Lemma owns_extend h v l n : owns h v l -> owns (extend h n) v l.
Proof.
  intros Hown. apply (owns_transfer h); [exact Hown | |].
  - intros loc Hloc. apply block_len_extend_old.
    pose proof (owns_base _ _ _ Hown loc Hloc). lia.
  - intros k Hk. apply slot_extend_old. simpl.
    destruct (base (arr_ v)) as [loc|] eqn:Hb; [|discriminate].
    pose proof (owns_base _ _ _ Hown loc Hb). intros Heq. injection Heq. lia.
Qed.

Lemma owns_fresh h v l : owns h v l -> base (arr_ v) <> Some (length h).
Proof.
  intros Hown Hb. pose proof (owns_base _ _ _ Hown _ Hb). lia.
Qed.

(** ** [reserve] *)

Lemma reserve_spec newcap s l :
  0 <= newcap ->
  owns (heap s) (self s) l ->
  let v := self s in
  (sz_ v <= newcap <= ptrdiff_max /\
   exists s', reserve newcap s = Ok tt s' /\
     self s' = Vector (Ptr (Some (length (heap s))) 0) (sz_ v) newcap /\
     owns (heap s') (self s') l /\ preserved s s' v) \/
  (exists e s', reserve newcap s = Throw e s' /\
     self s' = v /\
     (nothrow_move = true \/ copyable = true -> owns (heap s') v l) /\
     preserved s s' v /\
     ((e = bad_alloc /\ ptrdiff_max < newcap) \/
      (e = element_error /\ nothrow_move = false /\ exists k, fails k = true))) \/
  (newcap < sz_ v /\ exists f, reserve newcap s = Fault f).
Proof.
  intros Hnc Hown v. subst v. unfold reserve.
  rewrite bind_this. remember (self s) as v eqn:Hv.
  destruct (Z_le_gt_dec newcap ptrdiff_max) as [Hle|Hgt].
  2:{ right; left. exists bad_alloc, s.
      split; [apply bind_Throw, allocate_refuses; lia|].
      split; [congruence|]. split; [intros _; exact Hown|]. split; [apply preserved_refl|].
      left. split; [reflexivity | lia]. }
  rewrite (bind_Ok _ _ _ _ _ (allocate_run newcap s Hle)).
  rewrite <- Hv.
  set (s1 := State v (extend (heap s) newcap) (calls s)).
  remember (length (heap s)) as newloc eqn:Hnl.
  pose proof (migrate_run v l s1 newloc newcap
                (set_arr (Ptr (Some newloc) 0) ;; set_cap newcap)
                eq_refl (owns_extend _ _ _ newcap Hown)
                ltac:(rewrite Hnl; apply block_len_extend_new; exact Hnc)
                ltac:(rewrite Hnl; apply (owns_fresh _ _ _ Hown))) as Hm.
  cbv zeta in Hm.
  destruct Hm as [(s2 & Hr & Hself & Hlen & Hbl & Hcells & Hrest & Hframe & Hblf)
                 | [(e & s2 & Hr & Hself & Hown2 & Hnt & He & Hk & Hlen & Hframe & Hblf)
                   | ((j & Hj & Hnone) & f & Hr)]].
  - left.
    assert (Hfit : sz_ v <= newcap).
    { destruct (Z_le_gt_dec (sz_ v) newcap) as [|Hlt]; [assumption|].
      pose proof (Hcells newcap ltac:(lia)) as Hc.
      unfold ptr_add in Hc. simpl in Hc.
      rewrite (slot_outside _ _ _ _ Hbl) in Hc by lia. discriminate. }
    split; [lia|]. eexists. split; [rewrite Hr; reflexivity|]. simpl.
    rewrite Hself. split; [reflexivity|]. split.
    + destruct Hown as (Hsz & Hcap & _).
      split; [exact Hsz|]. split; [simpl; lia|]. right.
      exists newloc. split; [reflexivity|]. split; [exact Hbl|]. simpl.
      intros k Hk. destruct (Z_lt_ge_dec k (sz_ v)) as [Hlt|Hge].
      * apply Hcells. lia.
      * rewrite Hrest by lia. rewrite item_ge by lia.
        unfold s1. simpl. rewrite Hnl. apply slot_extend_new. simpl. lia.
    + unfold preserved. simpl. rewrite Hlen. unfold s1. simpl. rewrite length_extend.
      split; [lia|]. split.
      * intros loc Hloc Hne. rewrite Hblf by first [lia | assumption].
        apply block_len_extend_old. lia.
      * intros p loc Hp Hloc Hne. rewrite Hframe.
        -- apply slot_extend_old. rewrite Hp. intros Heq. injection Heq. lia.
        -- rewrite Hp. intros Heq. injection Heq. lia.
        -- exact Hne.
  - right; left. exists e, s2. split; [exact Hr|]. split; [exact Hself|].
    split; [intros [Hmv | Hcp]; [congruence | exact (Hown2 Hcp)]|]. split.
    + unfold preserved. simpl. rewrite Hlen. unfold s1. simpl. rewrite length_extend.
      split; [lia|]. split.
      * intros loc Hloc Hne. rewrite Hblf by lia.
        apply block_len_extend_old. lia.
      * intros p loc Hp Hloc Hne. rewrite Hframe.
        -- apply slot_extend_old. rewrite Hp. intros Heq. injection Heq. lia.
        -- rewrite Hp. intros Heq. injection Heq. lia.
        -- exact Hne.
    + right. auto.
  - right; right. split.
    + destruct (Z_le_gt_dec (sz_ v) newcap) as [Hfit|]; [|lia].
      unfold s1, ptr_add in Hnone. simpl in Hnone. rewrite Hnl in Hnone.
      rewrite (slot_extend_new (heap s) newcap (0 + j)) in Hnone by lia. discriminate.
    + exists f. exact Hr.
Qed.


(** ** Machine arithmetic *)

Lemma ptrdiff_max_eq : ptrdiff_max = 9223372036854775807.
Proof. reflexivity. Qed.

Lemma wrap_small z : 0 <= z < 18446744073709551616 -> wrap z = z.
Proof. intros Hz. unfold wrap. apply Z.mod_small. exact Hz. Qed.

(** ** [emplace_back] and [push_back] *)

Lemma length_snoc_Z (l : list T) x : Z.of_nat (length (l ++ [x])) = Z.of_nat (length l) + 1.
Proof. rewrite length_app, Nat2Z.inj_add. reflexivity. Qed.

(** The invariant after a cell of the block changed. *)
Lemma owns_store_other h v l p c :
  base p <> base (arr_ v) -> owns h v l -> owns (store h p c) v l.
Proof.
  intros Hp Hown. apply (owns_transfer h); [exact Hown | |].
  - intros loc _. apply block_len_store.
  - intros k _. apply slot_store_ne. apply ptr_base_ne. exact Hp.
Qed.

(** Appending in place: the first unconstructed slot receives [x]. *)
Lemma owns_append h v l x :
  owns h v l -> sz_ v < cap_ v ->
  owns (store h (arr_ v +p sz_ v) (Some x)) (Vector (arr_ v) (sz_ v + 1) (cap_ v)) (l ++ [x]).
Proof.
  intros Hown Hroom. pose proof Hown as (Hsz & Hcap & Hblock).
  split; [simpl; rewrite length_snoc_Z; lia|]. split; [simpl; lia|].
  destruct Hblock as [[_ Hc0] | (loc & Harr & Hbl & Hcells)]; [lia|].
  right. exists loc. simpl. split; [exact Harr|].
  split; [rewrite block_len_store; exact Hbl|].
  intros k Hk. destruct (decide (k = sz_ v)) as [->|Hne].
  - rewrite item_app_r by lia. rewrite Hsz, Z.sub_diag. simpl.
    eapply slot_store_eq. apply Hcells. lia.
  - rewrite slot_store_ne by (apply ptr_add_ne; lia).
    rewrite Hcells by exact Hk.
    destruct (Z_lt_ge_dec k (sz_ v)).
    + rewrite item_app_l by lia. reflexivity.
    + rewrite (item_ge l) by lia.
      rewrite (item_ge (l ++ [x])) by (rewrite length_snoc_Z; lia). reflexivity.
Qed.

Lemma try_construct_run p x s c0 (h : exn -> M unit) :
  slot (heap s) p = Some c0 ->
  try_catch (construct p x) h s =
    if fails (calls s)
    then h element_error (State (self s) (heap s) (S (calls s)))
    else Ok tt (State (self s) (store (heap s) p (Some x)) (S (calls s))).
Proof.
  intros Hp. unfold try_catch. rewrite (construct_run _ _ _ _ Hp).
  destruct (fails (calls s)); reflexivity.
Qed.

Lemma emplace_back_spec x s l :
  owns (heap s) (self s) l ->
  let v := self s in
  (exists s', emplace_back x s = Ok tt s' /\
     owns (heap s') (self s') (l ++ [x]) /\
     sz_ (self s') = sz_ v + 1 /\
     cap_ (self s') = (if sz_ v =? cap_ v
                       then (if cap_ v >? 0 then 2 * cap_ v else 1)
                       else cap_ v) /\
     preserved s s' v) \/
  (exists e s', emplace_back x s = Throw e s' /\
     self s' = v /\
     (nothrow_move = true \/ copyable = true -> owns (heap s') v l) /\
     preserved s s' v /\
     ((e = bad_alloc /\ sz_ v = cap_ v /\ ptrdiff_max < 2 * cap_ v) \/
      (e = element_error /\ exists k, fails k = true))).
Proof.
  intros Hown v. subst v. unfold emplace_back. rewrite bind_this.
  remember (self s) as v eqn:Hv.
  pose proof Hown as (Hsz & Hcap & Hblock).
  pose proof ptrdiff_max_eq as Hmax.
  destruct (sz_ v =? cap_ v) eqn:Hfull.
  - (* growth *)
    apply Z.eqb_eq in Hfull.
    set (newcap := if cap_ v >? 0 then wrap (cap_ v * 2) else 1).
    assert (Hnc : newcap = if cap_ v >? 0 then 2 * cap_ v else 1).
    { unfold newcap. destruct (cap_ v >? 0); [|reflexivity]. rewrite wrap_small; lia. }
    assert (Hroom : sz_ v < newcap).
    { rewrite Hnc. destruct (cap_ v >? 0) eqn:Hpos; [apply Z.gtb_lt in Hpos|]; lia. }
    clearbody newcap.
    destruct (Z_le_gt_dec newcap ptrdiff_max) as [Hle|Hgt].
    2:{ right. exists bad_alloc, s.
        split; [apply bind_Throw, allocate_refuses; lia|].
        split; [congruence|]. split; [intros _; exact Hown|]. split; [apply preserved_refl|].
        left. split; [reflexivity|]. split; [exact Hfull|].
        destruct (cap_ v >? 0); lia. }
    rewrite (bind_Ok _ _ _ _ _ (allocate_run newcap s Hle)). rewrite <- Hv.
    remember (length (heap s)) as newloc eqn:Hnl.
    set (newarr := Ptr (Some newloc) 0).
    set (s1 := State v (extend (heap s) newcap) (calls s)).
    assert (Hfresh : base (arr_ v) <> Some newloc)
      by (rewrite Hnl; apply (owns_fresh _ _ _ Hown)).
    assert (Hbl1 : block_len (heap s1) newloc = Some newcap)
      by (rewrite Hnl; apply block_len_extend_new; lia).
    assert (Hnew1 : forall k, 0 <= k < newcap -> slot (heap s1) (newarr +p k) = Some None).
    { intros k Hk. unfold s1, newarr. simpl. rewrite Hnl. apply slot_extend_new. simpl. lia. }
    assert (Hold1 : forall p, base p <> Some newloc -> slot (heap s1) p = slot (heap s) p).
    { intros p Hp. apply slot_extend_old. congruence. }
    assert (Hpres1 : forall t, length (heap t) = length (heap s1) ->
              (forall p, base p <> Some newloc -> base p <> base (arr_ v) ->
                 slot (heap t) p = slot (heap s1) p) ->
              (forall loc, loc <> newloc -> Some loc <> base (arr_ v) ->
                 block_len (heap t) loc = block_len (heap s1) loc) ->
              preserved s t v).
    { intros t Hlen Hslots Hbls. unfold preserved. rewrite Hlen. unfold s1. simpl.
      rewrite length_extend. split; [lia|]. split.
      - intros loc Hloc Hne. rewrite Hbls by first [lia | exact Hne].
        apply block_len_extend_old. lia.
      - intros p loc Hp Hloc Hne. rewrite Hslots, Hold1; [reflexivity | | | exact Hne];
          rewrite Hp; intros Heq; injection Heq; lia. }
    pose proof (try_construct_run _ x s1 _ (discard_new newarr newcap 0)
                  (Hnew1 (sz_ v) ltac:(lia))) as Htry.
    destruct (fails (calls s1)) eqn:Hf.
    + (* the constructor of the new element throws *)
      right.
      destruct (discard_new_run newloc newcap 0 element_error
                  (State (self s1) (heap s1) (S (calls s1))) Hbl1)
        as (t' & Hd & Hself' & Hlen' & Hbl' & Hframe').
      { intros k Hk. lia. }
      fold newarr in Hd. rewrite Hd in Htry.
      exists element_error, t'. split; [apply bind_Throw; exact Htry|].
      split; [exact Hself'|]. split.
      { intros _. apply (owns_transfer (heap s)); [exact Hown | |].
        - intros loc Hloc. rewrite Hbl' by congruence. simpl.
          apply block_len_extend_old. pose proof (owns_base _ _ _ Hown loc Hloc). lia.
        - intros k _. rewrite Hframe' by (simpl; congruence). simpl.
          apply Hold1. simpl. congruence. }
      split; [|right; split; [reflexivity | eauto]].
      apply Hpres1; [exact Hlen' | intros p Hp _; apply Hframe'; exact Hp
                    | intros loc Hloc _; apply Hbl'; exact Hloc].
    + (* the new element is in place; move the others *)
      rewrite (bind_Ok _ _ _ _ _ Htry).
      set (s2 := State (self s1) (store (heap s1) (newarr +p sz_ v) (Some x)) (S (calls s1))).
      assert (Hown2 : owns (heap s2) v l).
      { unfold s2. simpl. apply owns_store_other; [simpl; congruence|].
        apply owns_extend. exact Hown. }
      pose proof (migrate_run v l s2 newloc newcap
                    (set_arr newarr ;; set_cap newcap ;; set_sz (wrap (sz_ v + 1)))
                    eq_refl Hown2
                    ltac:(unfold s2; simpl; rewrite block_len_store; exact Hbl1)
                    Hfresh) as Hm.
      cbv zeta in Hm. fold newarr in Hm.
      destruct Hm as [(s3 & Hr & Hself3 & Hlen3 & Hbl3 & Hcells3 & Hrest3 & Hframe3 & Hblf3)
                     | [(e & s3 & Hr & Hself3 & Hown3 & Hnt & He & Hk & Hlen3 & Hframe3 & Hblf3)
                       | ((j & Hj & Hnone) & f & Hr)]].
      * left. rewrite Hr. eexists. split; [reflexivity|]. simpl.
        rewrite wrap_small by lia.
        split.
        { split; [simpl; rewrite length_snoc_Z; lia|]. split; [simpl; lia|].
          right. exists newloc. simpl. split; [reflexivity|]. split; [exact Hbl3|].
          intros k Hk. fold newarr. destruct (Z_lt_ge_dec k (sz_ v)) as [Hlt|Hge].
          - rewrite Hcells3 by lia. rewrite item_app_l by lia. reflexivity.
          - rewrite Hrest3 by lia. unfold s2. simpl.
            destruct (decide (k = sz_ v)) as [->|Hne].
            + rewrite item_app_r by lia. rewrite Hsz, Z.sub_diag. simpl.
              eapply slot_store_eq. apply Hnew1. lia.
            + rewrite slot_store_ne by (apply ptr_add_ne; lia).
              rewrite item_ge by (rewrite length_snoc_Z; lia).
              apply Hnew1. lia. }
        split; [reflexivity|]. split; [exact Hnc|].
        apply Hpres1; simpl.
        -- rewrite Hlen3. unfold s2. simpl. apply length_store.
        -- intros p Hp Hpa. rewrite Hframe3 by assumption. unfold s2. simpl.
           apply slot_store_ne. apply ptr_base_ne. simpl. congruence.
        -- intros loc Hloc Hla. rewrite Hblf3 by assumption. unfold s2. simpl.
           apply block_len_store.
      * right. exists e, s3. split; [exact Hr|]. split; [exact Hself3|].
        split; [intros [Hmv | Hcp]; [congruence | exact (Hown3 Hcp)]|].
        split; [|right; split; assumption].
        apply Hpres1.
        -- rewrite Hlen3. unfold s2. simpl. apply length_store.
        -- intros p Hp Hpa. rewrite Hframe3 by assumption. unfold s2. simpl.
           apply slot_store_ne. apply ptr_base_ne. simpl. congruence.
        -- intros loc Hloc _. rewrite Hblf3 by exact Hloc. unfold s2. simpl.
           apply block_len_store.
      * exfalso. unfold s2 in Hnone. simpl in Hnone.
        rewrite slot_store_ne in Hnone by (apply ptr_add_ne; lia).
        rewrite Hnew1 in Hnone by lia. discriminate.
  - (* there is room *)
    apply Z.eqb_neq in Hfull.
    assert (Hraw : slot (heap s) (arr_ v +p sz_ v) = Some None)
      by (apply (owns_raw _ _ _ Hown); lia).
    pose proof (try_construct_run _ x s _ throw Hraw) as Htry.
    destruct (fails (calls s)) eqn:Hf.
    + right. unfold throw in Htry. rewrite (bind_Throw _ _ _ _ _ Htry).
      exists element_error. eexists. split; [reflexivity|]. simpl.
      split; [congruence|]. split; [intros _; exact Hown|].
      split; [apply preserved_same; reflexivity|]. right. split; [reflexivity | eauto].
    + left. rewrite (bind_Ok _ _ _ _ _ Htry).
      eexists. split; [reflexivity|]. simpl. rewrite <- Hv. simpl.
      rewrite wrap_small by lia.
      split; [apply owns_append; [exact Hown | lia]|].
      split; [reflexivity|]. split.
      { destruct (sz_ v =? cap_ v) eqn:Heq; [apply Z.eqb_eq in Heq; lia | reflexivity]. }
      unfold preserved. simpl. rewrite length_store. split; [lia|]. split.
      * intros loc _ _. apply block_len_store.
      * intros p loc Hp _ Hne. apply slot_store_ne. apply ptr_base_ne. simpl. congruence.
Qed.


(** ** The element sequence of a container *)

Lemma mapM_seq_lookup (f : nat -> option T) (l : list T) n :
  length l = n ->
  (forall k x, l !! k = Some x -> f k = Some x) ->
  mapM f (seq 0 n) = Some l.
Proof.
  intros Hlen Hf. apply mapM_Some. apply Forall2_same_length_lookup_2.
  - rewrite length_seq. symmetry. exact Hlen.
  - intros i k x Hk Hx. apply lookup_seq in Hk as [-> _]. simpl. apply Hf. exact Hx.
Qed.

Lemma owns_contents s l : owns (heap s) (self s) l -> contents s = Some l.
Proof.
  intros Hown. unfold contents. apply mapM_seq_lookup.
  - destruct Hown as (Hsz & _). lia.
  - intros k x Hx. rewrite (owns_live _ _ _ Hown).
    + unfold item. rewrite Nat2Z.id, Hx. reflexivity.
    + apply lookup_lt_Some in Hx. lia.
Qed.

Lemma owns_subscript s l i x :
  owns (heap s) (self s) l -> l !! i = Some x -> subscript (Z.of_nat i) s = Ok x s.
Proof.
  intros Hown Hx. unfold subscript. rewrite bind_this. apply read_run.
  rewrite (owns_live _ _ _ Hown).
  - unfold item. rewrite Nat2Z.id, Hx. reflexivity.
  - apply lookup_lt_Some in Hx. lia.
Qed.

Lemma owns_default h : owns h vector_default [].
Proof.
  split; [reflexivity|]. split; [simpl; rewrite ptrdiff_max_eq; lia|].
  left. split; reflexivity.
Qed.

(** ** A sequence of [push_back] calls *)

Lemma push_all_spec values : forall s l,
  owns (heap s) (self s) l ->
  (forall s', push_all values s = Ok tt s' -> owns (heap s') (self s') (l ++ values)) /\
  ((forall k, fails k = false) ->
   Z.of_nat (length l) + Z.of_nat (length values) <= 2 ^ 62 ->
   exists s', push_all values s = Ok tt s').
Proof.
  induction values as [|x values IH]; intros s l Hown.
  - split.
    + intros s' Hr. injection Hr as <-. rewrite app_nil_r. exact Hown.
    + intros _ _. exists s. reflexivity.
  - simpl push_all. unfold push_back.
    destruct (emplace_back_spec x s l Hown)
      as [(s1 & Hr & Hown1 & Hsz1 & Hcap1 & _) | (e & s1 & Hr & _ & _ & _ & Hwhy)].
    + rewrite (bind_Ok _ _ _ _ _ Hr).
      destruct (IH s1 (l ++ [x]) Hown1) as [Hpart Htot].
      rewrite <- app_assoc in Hpart. simpl in Hpart.
      split; [exact Hpart|].
      intros Hnofail Hbound. apply Htot; [exact Hnofail|].
      rewrite length_snoc_Z. simpl length in Hbound. lia.
    + rewrite (bind_Throw _ _ _ _ _ Hr). split; [discriminate|].
      intros Hnofail Hbound. exfalso.
      destruct Hwhy as [(_ & Hfull & Hbig) | (_ & k & Hk)].
      * destruct Hown as (Hsz & _). rewrite ptrdiff_max_eq in Hbig.
        simpl length in Hbound.
        change (2 ^ 62) with 4611686018427387904 in Hbound. lia.
      * rewrite Hnofail in Hk. discriminate.
Qed.

(** C1: after the [push_back] calls for [values] on a default-constructed
    container have returned, [size()] is their number and the element at
    every index [i] is the [i]-th value pushed; and the calls do return
    when no constructor throws and there are at most [2^62] values. *)
Theorem push_back_sequence values h c :
  let r := push_all values (State vector_default h c) in
  (forall s', r = Ok tt s' ->
     size (self s') = Z.of_nat (length values) /\
     forall i x, values !! i = Some x -> subscript (Z.of_nat i) s' = Ok x s') /\
  ((forall k, fails k = false) -> Z.of_nat (length values) <= 2 ^ 62 ->
   exists s', r = Ok tt s').
Proof.
  intros r. subst r.
  destruct (push_all_spec values (State vector_default h c) [] (owns_default h))
    as [Hpart Htot].
  split.
  - intros s' Hr. pose proof (Hpart s' Hr) as Hown. simpl in Hown.
    split.
    + destruct Hown as (Hsz & _). exact Hsz.
    + intros i x Hx. eapply owns_subscript; eassumption.
  - intros Hnofail Hbound. apply Htot; [exact Hnofail | simpl; lia].
Qed.



(** ** Comparison *)

Lemma all_equal_spec l1 : forall l2,
  length l1 = length l2 ->
  (all_equal l1 l2 = true <->
   forall i x y, l1 !! i = Some x -> l2 !! i = Some y -> eqb x y = true).
Proof.
  induction l1 as [|x r1 IH]; intros [|y r2] Hlen; simpl in Hlen; try discriminate.
  - split; [intros _ i x y Hx; discriminate | reflexivity].
  - simpl. destruct (eqb x y) eqn:Hxy.
    + rewrite IH by lia. split.
      * intros H [|i] a b Ha Hb; simpl in *; [congruence | eauto].
      * intros H i a b Ha Hb. apply (H (S i)); assumption.
    + split; [discriminate|]. intros H.
      rewrite <- Hxy. apply (H 0%nat); reflexivity.
Qed.

Lemma laid_out_cons h p x l :
  laid_out h p (x :: l) -> slot h p = Some (Some x) /\ laid_out h (p +p 1) l.
Proof.
  intros H. split.
  - rewrite <- (ptr_add_0 p). apply (H 0%nat). reflexivity.
  - intros k y Hy. rewrite ptr_add_add.
    replace (1 + Z.of_nat k) with (Z.of_nat (S k)) by lia. apply H. exact Hy.
Qed.

Lemma owns_laid_out h v l : owns h v l -> laid_out h (begin v) l.
Proof.
  intros Hown k x Hx. unfold begin. rewrite (owns_live _ _ _ Hown).
  - unfold item. rewrite Nat2Z.id, Hx. reflexivity.
  - apply lookup_lt_Some in Hx. lia.
Qed.

Lemma std_equal_run s l1 : forall l2 p q,
  length l1 = length l2 ->
  laid_out (heap s) p l1 -> laid_out (heap s) q l2 ->
  std_equal (length l1) p q s = Ok (all_equal l1 l2) s.
Proof.
  induction l1 as [|x r1 IH]; intros [|y r2] p q Hlen Hp Hq; simpl in Hlen; try discriminate.
  - reflexivity.
  - apply laid_out_cons in Hp as [Hx Hp]. apply laid_out_cons in Hq as [Hy Hq].
    simpl. rewrite (bind_Ok _ _ _ _ _ (read_run _ _ _ Hx)).
    rewrite (bind_Ok _ _ _ _ _ (read_run _ _ _ Hy)).
    destruct (eqb x y); [|reflexivity]. apply IH; [lia | assumption | assumption].
Qed.

Lemma lexicographical_compare_run s l1 : forall l2 p q,
  laid_out (heap s) p l1 -> laid_out (heap s) q l2 ->
  lexicographical_compare (length l1) (length l2) p q s = Ok (lex_less l1 l2) s.
Proof.
  induction l1 as [|x r1 IH]; intros [|y r2] p q Hp Hq; try reflexivity.
  apply laid_out_cons in Hp as [Hx Hp]. apply laid_out_cons in Hq as [Hy Hq].
  simpl. rewrite (bind_Ok _ _ _ _ _ (read_run _ _ _ Hx)).
  rewrite (bind_Ok _ _ _ _ _ (read_run _ _ _ Hy)).
  destruct (ltb x y); [reflexivity|]. destruct (ltb y x); [reflexivity|].
  apply IH; assumption.
Qed.

Lemma op_lt_run s lhs rhs l1 l2 :
  owns (heap s) lhs l1 -> owns (heap s) rhs l2 ->
  op_lt lhs rhs s =
    Ok (if size lhs =? size rhs then lex_less l1 l2 else size lhs <? size rhs) s.
Proof.
  intros H1 H2. unfold op_lt. destruct (size lhs =? size rhs); simpl; [|reflexivity].
  destruct H1 as (Hs1 & H1'). destruct H2 as (Hs2 & H2').
  rewrite Hs1, Hs2, !Nat2Z.id.
  apply lexicographical_compare_run; apply owns_laid_out; split; assumption.
Qed.

(** C6: [==] holds iff the sizes match and all corresponding elements
    compare equal; [<] is decided by the sizes whenever they differ, and
    by elementwise lexicographic comparison only when they are equal; the
    other four operators are derived from these two. *)
Theorem comparison_operators s lhs rhs l1 l2 :
  owns (heap s) lhs l1 -> owns (heap s) rhs l2 ->
  exists beq blt bgt,
    op_eq lhs rhs s = Ok beq s /\
    op_lt lhs rhs s = Ok blt s /\
    op_lt rhs lhs s = Ok bgt s /\
    (beq = true <->
       size lhs = size rhs /\
       forall i x y, l1 !! i = Some x -> l2 !! i = Some y -> eqb x y = true) /\
    (size lhs < size rhs -> blt = true) /\
    (size rhs < size lhs -> blt = false) /\
    (size lhs = size rhs -> blt = lex_less l1 l2) /\
    op_ne lhs rhs s = Ok (negb beq) s /\
    op_gt lhs rhs s = Ok bgt s /\
    op_le lhs rhs s = Ok (negb bgt) s /\
    op_ge lhs rhs s = Ok (negb blt) s.
Proof.
  intros H1 H2.
  pose proof (op_lt_run s lhs rhs l1 l2 H1 H2) as Hlt.
  pose proof (op_lt_run s rhs lhs l2 l1 H2 H1) as Hgt.
  assert (Heq : op_eq lhs rhs s =
                Ok (if size lhs =? size rhs then all_equal l1 l2 else false) s).
  { unfold op_eq. destruct (size lhs =? size rhs) eqn:Hsz; [|reflexivity].
    apply Z.eqb_eq in Hsz. unfold size in Hsz.
    pose proof H1 as (Hs1 & _). pose proof H2 as (Hs2 & _).
    rewrite Hs1, Nat2Z.id.
    apply std_equal_run; [lia | apply owns_laid_out; assumption..]. }
  eexists _, _, _. split; [exact Heq|]. split; [exact Hlt|]. split; [exact Hgt|].
  split; [|split; [|split; [|split; [|split; [|split; [|split]]]]]].
  - destruct (size lhs =? size rhs) eqn:Hsz.
    + apply Z.eqb_eq in Hsz. rewrite all_equal_spec.
      * split; [intros H; split; assumption | intros [_ H]; exact H].
      * destruct H1 as (Hs1 & _), H2 as (Hs2 & _). unfold size in Hsz. lia.
    + apply Z.eqb_neq in Hsz. split; [discriminate | intros [H _]; contradiction].
  - intros Hless. destruct (size lhs =? size rhs) eqn:Hsz.
    + apply Z.eqb_eq in Hsz. lia.
    + apply Z.ltb_lt. exact Hless.
  - intros Hless. destruct (size lhs =? size rhs) eqn:Hsz.
    + apply Z.eqb_eq in Hsz. lia.
    + apply Z.ltb_ge. lia.
  - intros Hsz. apply Z.eqb_eq in Hsz. rewrite Hsz. reflexivity.
  - unfold op_ne. rewrite (bind_Ok _ _ _ _ _ Heq). reflexivity.
  - exact Hgt.
  - unfold op_le. rewrite (bind_Ok _ _ _ _ _ Hgt). reflexivity.
  - unfold op_ge. rewrite (bind_Ok _ _ _ _ _ Hlt). reflexivity.
Qed.


(** ** Move assignment *)

(** C8 (as the code has it): move assignment into another container
    clears the source's block pointer and resets the source's size to
    zero, but leaves the source's capacity at its old value; the
    destination takes over the source's block, size and capacity. *)
Theorem move_assign_steals s l other :
  owns (heap s) (self s) l ->
  exists source' s',
    move_assign other s = Ok source' s' /\
    arr_ source' = nullptr /\
    size source' = 0 /\
    capacity source' = capacity other /\
    begin (self s') = begin other /\
    size (self s') = size other /\
    capacity (self s') = capacity other /\
    heap s' = release (arr_ (self s)) (heap s).
Proof.
  intros Hown. unfold move_assign. rewrite bind_this.
  assert (Hfree : (if negb (ptr_eqb (arr_ (self s)) nullptr)
                   then deallocate (arr_ (self s)) (cap_ (self s)) else ret tt) s =
                  Ok tt (State (self s) (release (arr_ (self s)) (heap s)) (calls s))).
  { destruct Hown as (_ & _ & [[Hnull _] | (loc & Harr & Hbl & _)]).
    - rewrite Hnull. destruct s. reflexivity.
    - rewrite Harr. simpl. apply deallocate_block. right. exists loc. split; [reflexivity|].
      exact Hbl. }
  rewrite (bind_Ok _ _ _ _ _ Hfree).
  eexists _, _. split; [reflexivity|]. simpl. repeat split; reflexivity.
Qed.

(** ** [empty] and [clear] *)

Lemma empty_iff v : empty v = true <-> arr_ v = nullptr.
Proof. unfold empty. apply ptr_eqb_eq. Qed.

Lemma clear_spec s l :
  owns (heap s) (self s) l ->
  exists s', clear s = Ok tt s' /\
    self s' = Vector (arr_ (self s)) 0 (cap_ (self s)) /\
    owns (heap s') (self s') [] /\
    length (heap s') = length (heap s) /\
    (forall loc, block_len (heap s') loc = block_len (heap s) loc) /\
    (forall p, base p <> base (arr_ (self s)) -> slot (heap s') p = slot (heap s) p).
Proof.
  intros Hown. unfold clear. rewrite bind_this.
  destruct (destroy_loop (arr_ (self s)) 0 (sz_ (self s)) s)
    as (s1 & Hr & Hself & Hcalls & Hlen & Hbl & Hraw & Hframe).
  { intros k Hk. pose proof Hown as (Hsz & _).
    rewrite (owns_live _ _ _ Hown) by lia.
    destruct (item_lt l k ltac:(lia)) as [x Hx]. rewrite Hx. eauto. }
  rewrite (bind_Ok _ _ _ _ _ Hr).
  eexists. split; [reflexivity|]. simpl. rewrite Hself.
  split; [reflexivity|]. split; [|split; [exact Hlen|split; [exact Hbl|]]].
  - pose proof Hown as (Hsz & Hcap & Hblock).
    split; [reflexivity|]. split; [simpl; lia|].
    destruct Hblock as [Hnull | (loc & Harr & Hbl0 & Hcells)]; [left; exact Hnull|].
    right. exists loc. simpl. split; [exact Harr|]. split; [rewrite Hbl; exact Hbl0|].
    intros k Hk. rewrite item_ge by (simpl; lia).
    destruct (Z_lt_ge_dec k (sz_ (self s))).
    + apply Hraw. lia.
    + rewrite Hframe by (intros k' Hk'; apply ptr_add_ne; lia).
      apply (owns_raw _ _ _ Hown). lia.
  - intros p Hp. apply Hframe. intros k _. apply ptr_base_ne. exact Hp.
Qed.

(** C9 (as the code has it): [empty()] is true iff the block pointer is
    null.  A container that satisfies the class invariant and has capacity
    has a block, so [empty()] is false for it, also once [clear()] has
    brought its size to zero. *)
Theorem empty_tests_pointer :
  (forall v, empty v = true <-> arr_ v = nullptr) /\
  (forall s l, owns (heap s) (self s) l -> capacity (self s) <> 0 ->
     empty (self s) = false /\
     exists s', clear s = Ok tt s' /\
       size (self s') = 0 /\
       capacity (self s') = capacity (self s) /\
       empty (self s') = false).
Proof.
  split; [exact empty_iff|].
  intros s l Hown Hcap.
  assert (Hne : empty (self s) = false).
  { destruct (empty (self s)) eqn:He; [|reflexivity].
    apply empty_iff in He.
    destruct Hown as (_ & _ & [[_ Hc0] | (loc & Harr & _)]).
    - contradiction.
    - rewrite Harr in He. discriminate. }
  split; [exact Hne|].
  destruct (clear_spec s l Hown) as (s' & Hr & Hself & _).
  exists s'. split; [exact Hr|]. rewrite Hself. simpl.
  repeat split; try reflexivity. exact Hne.
Qed.

(** ** [erase] at [end()] *)

Lemma check_position_in s pos :
  base pos = base (arr_ (self s)) ->
  off (arr_ (self s)) <= off pos <= off (arr_ (self s)) + sz_ (self s) ->
  check_position pos s = Ok tt s.
Proof.
  intros Hb Ho. unfold check_position. rewrite bind_this.
  unfold or_else, ptr_lt, ptr_gt, ptr_lt, begin, end_. simpl.
  rewrite Hb, base_eqb_refl. unfold bind, ret.
  destruct (off pos <? off (arr_ (self s))) eqn:H1; [apply Z.ltb_lt in H1; lia|].
  destruct (off (arr_ (self s)) + sz_ (self s) <? off pos) eqn:H2;
    [apply Z.ltb_lt in H2; lia | reflexivity].
Qed.

Lemma check_position_out s pos :
  base pos = base (arr_ (self s)) ->
  off pos < off (arr_ (self s)) \/ off (arr_ (self s)) + sz_ (self s) < off pos ->
  check_position pos s = Throw out_of_range s.
Proof.
  intros Hb Ho. unfold check_position. rewrite bind_this.
  unfold or_else, ptr_lt, ptr_gt, ptr_lt, begin, end_. simpl.
  rewrite Hb, base_eqb_refl. unfold bind, ret.
  destruct (off pos <? off (arr_ (self s))) eqn:H1; [reflexivity|].
  apply Z.ltb_ge in H1.
  destruct (off (arr_ (self s)) + sz_ (self s) <? off pos) eqn:H2;
    [reflexivity | apply Z.ltb_ge in H2; lia].
Qed.

Lemma owns_off h v l : owns h v l -> off (arr_ v) = 0.
Proof.
  intros (_ & _ & [[-> _] | (loc & -> & _)]); reflexivity.
Qed.

Lemma owns_size_range h v l : owns h v l -> 0 <= sz_ v <= ptrdiff_max.
Proof. intros (Hsz & Hcap & _). lia. Qed.

(** C10: [erase(end())] passes the position check of [erase], so no
    [out_of_range] is thrown; the function then calls the destructor on the
    slot at index [size()], which holds no element, and this is where the
    execution becomes undefined.  On an empty container the size
    arithmetic [sz_ - 1] of the loop bound and of the decrement wraps to
    the largest [size_type] value. *)
Theorem erase_at_end s l :
  owns (heap s) (self s) l ->
  let v := self s in
  check_position (end_ v) s = Ok tt s /\
  (slot (heap s) (arr_ v +p size v) = Some None \/
   slot (heap s) (arr_ v +p size v) = None) /\
  erase (end_ v) s = Fault (destroy_not_live (arr_ v +p size v)) /\
  (size v = 0 -> wrap (sz_ v - 1) = size_max).
Proof.
  intros Hown v. subst v.
  pose proof (owns_off _ _ _ Hown) as Hoff.
  pose proof (owns_size_range _ _ _ Hown) as Hrange.
  pose proof ptrdiff_max_eq as Hmax.
  assert (Hcheck : check_position (end_ (self s)) s = Ok tt s).
  { apply check_position_in; unfold end_; simpl; [reflexivity | lia]. }
  assert (Hdead : slot (heap s) (arr_ (self s) +p size (self s)) = Some None \/
                  slot (heap s) (arr_ (self s) +p size (self s)) = None).
  { unfold size. destruct Hown as (Hsz & Hcap & Hblock).
    destruct (Z_lt_ge_dec (sz_ (self s)) (cap_ (self s))).
    - left. apply (owns_raw _ _ l); [split; [|split]; assumption | lia].
    - right. apply (owns_outside _ _ l); [split; [|split]; assumption | lia]. }
  split; [exact Hcheck|]. split; [exact Hdead|]. split.
  - unfold erase. rewrite (bind_Ok _ _ _ _ _ Hcheck). rewrite bind_this.
    unfold ptr_diff, begin, end_. simpl. rewrite base_eqb_refl.
    unfold bind at 1. unfold ret.
    replace (off (arr_ (self s)) + sz_ (self s) - off (arr_ (self s))) with (sz_ (self s)) by lia.
    rewrite wrap_small by lia.
    apply bind_Fault. apply destroy_raw. exact Hdead.
  - unfold size. intros ->. reflexivity.
Qed.

(** ** [reserve] below the capacity *)

(** C3 fails on the code: [reserve] has no test of [newcap] against the
    capacity, so a request between the size and the capacity moves the
    elements to a smaller block and lowers [capacity()]. *)
Theorem reserve_reduces_capacity s l newcap :
  owns (heap s) (self s) l ->
  (forall k, fails k = false) ->
  size (self s) <= newcap < capacity (self s) ->
  exists s', reserve newcap s = Ok tt s' /\
    capacity (self s') = newcap /\
    capacity (self s') < capacity (self s) /\
    size (self s') = size (self s) /\
    contents s' = Some l.
Proof.
  intros Hown Hnofail Hnc. unfold size, capacity in *.
  pose proof (owns_size_range _ _ _ Hown) as Hrange.
  destruct (reserve_spec newcap s l ltac:(lia) Hown)
    as [(_ & s' & Hr & Hself & Hown' & _)
       | [(e & s' & Hr & _ & _ & _ & [[_ Hbig] | (_ & _ & k & Hk)]) | (Hlt & _)]].
  - exists s'. split; [exact Hr|]. rewrite Hself. simpl.
    split; [reflexivity|]. split; [lia|]. split; [reflexivity|].
    apply owns_contents. exact Hown'.
  - destruct Hown as (_ & Hcap & _). lia.
  - rewrite Hnofail in Hk. discriminate.
  - lia.
Qed.

(** ** The position check of [insert] *)

(** C7 fails on the code for the count form: with [count == 0] the
    function returns before the position check, whatever [pos] is. *)
Theorem insert_n_zero_unchecked s pos value :
  base pos = base (arr_ (self s)) ->
  insert_n pos 0 value s =
    Ok (begin (self s) +p to_diff (wrap (off pos - off (arr_ (self s))))) s.
Proof.
  intros Hb. unfold insert_n. rewrite bind_this.
  unfold ptr_diff, begin. rewrite Hb, base_eqb_refl. reflexivity.
Qed.

(** The other forms, and the count form for a positive count, do check. *)
Lemma insert_checks_position s pos :
  base pos = base (arr_ (self s)) ->
  off pos < off (arr_ (self s)) \/ off (arr_ (self s)) + sz_ (self s) < off pos ->
  (forall value, insert pos value s = Throw out_of_range s) /\
  (forall first last, insert_dispatch_int pos first last s = Throw out_of_range s) /\
  (forall elems, insert_dispatch_float pos elems s = Throw out_of_range s) /\
  (forall ilist, insert_list pos ilist s = Throw out_of_range s) /\
  (forall count value, count <> 0 -> insert_n pos count value s = Throw out_of_range s).
Proof.
  intros Hb Ho. pose proof (check_position_out s pos Hb Ho) as Hc.
  repeat split; intros.
  - unfold insert, insert_impl. apply bind_Throw. exact Hc.
  - unfold insert_dispatch_int. apply bind_Throw. exact Hc.
  - unfold insert_dispatch_float. apply bind_Throw. exact Hc.
  - unfold insert_list. apply bind_Throw. exact Hc.
  - unfold insert_n. rewrite bind_this.
    unfold ptr_diff, begin. rewrite Hb, base_eqb_refl.
    unfold bind at 1. unfold ret.
    destruct (count =? 0) eqn:Hz; [apply Z.eqb_eq in Hz; contradiction|].
    apply bind_Throw. exact Hc.
Qed.


(** ** Opening a gap and filling it *)

(** A computation that ends by throwing does not return. *)
Lemma ends_in_throw_not_Ok {A B} (m : M B) e s (a : A) s' :
  (m ;; throw e) s <> Ok a s'.
Proof. unfold bind, throw. destruct (m s); discriminate. Qed.

Lemma discard_new_not_Ok newarr newcap index e s u s' :
  discard_new newarr newcap index e s <> Ok u s'.
Proof.
  unfold discard_new. unfold bind at 1.
  destruct (for_range 0 index _ s); try discriminate.
  apply ends_in_throw_not_Ok.
Qed.

Lemma try_catch_Ok {A} (m : M A) h s a s' : m s = Ok a s' -> try_catch m h s = Ok a s'.
Proof. unfold try_catch. intros ->. reflexivity. Qed.

Lemma try_catch_Throw {A} (m : M A) h s e s' :
  m s = Throw e s' -> try_catch m h s = h e s'.
Proof. unfold try_catch. intros ->. reflexivity. Qed.

Lemma length_spliced l new i :
  Z.of_nat (length (spliced l new i)) = Z.of_nat (length l) + Z.of_nat (length new).
Proof.
  unfold spliced. rewrite !length_app, length_take, length_drop. lia.
Qed.

Lemma item_spliced l new i k :
  0 <= i <= Z.of_nat (length l) -> 0 <= k ->
  item (spliced l new i) k =
    if k <? i then item l k
    else if k <? i + Z.of_nat (length new) then item new (k - i)
    else item l (k - Z.of_nat (length new)).
Proof.
  intros Hi Hk. unfold spliced, item.
  destruct (k <? i) eqn:H1.
  - apply Z.ltb_lt in H1. rewrite lookup_app_l by (rewrite length_take; lia).
    apply lookup_take_lt. lia.
  - apply Z.ltb_ge in H1. rewrite lookup_app_r by (rewrite length_take; lia).
    rewrite length_take. replace (Z.to_nat i `min` length l)%nat with (Z.to_nat i) by lia.
    destruct (k <? i + Z.of_nat (length new)) eqn:H2.
    + apply Z.ltb_lt in H2. rewrite lookup_app_l by lia. f_equal. lia.
    + apply Z.ltb_ge in H2. rewrite lookup_app_r by lia.
      rewrite lookup_drop. f_equal. lia.
Qed.

Lemma block_state_store s f t k c :
  block_state s f t -> 0 <= k < cap_ (self s) ->
  block_state s (fun k' => if k' =? k then c else f k')
    (State (self t) (store (heap t) (arr_ (self s) +p k) c) (calls t)).
Proof.
  intros (Hself & Hlen & Hbl & Hframe & Hcells) Hk.
  split; [exact Hself|]. simpl.
  split; [rewrite length_store; exact Hlen|].
  split; [intros loc; rewrite block_len_store; apply Hbl|].
  split.
  - intros p Hp. rewrite slot_store_ne by (apply not_eq_sym, ptr_base_ne; exact Hp).
    apply Hframe. exact Hp.
  - intros k' Hk'. destruct (k' =? k) eqn:Heq.
    + apply Z.eqb_eq in Heq. subst k'. eapply slot_store_eq. apply Hcells. exact Hk.
    + apply Z.eqb_neq in Heq. rewrite slot_store_ne by (apply ptr_add_ne; lia).
      apply Hcells. exact Hk'.
Qed.

Lemma block_state_ext s f g t :
  block_state s f t -> (forall k, 0 <= k < cap_ (self s) -> f k = g k) ->
  block_state s g t.
Proof.
  intros (Hself & Hlen & Hbl & Hframe & Hcells) Hfg.
  repeat split; try assumption.
  intros k Hk. rewrite <- Hfg by exact Hk. apply Hcells. exact Hk.
Qed.


(** One round of the loop that shifts the tail. *)
Lemma shift_round s l count index i t :
  owns (heap s) (self s) l ->
  1 <= count -> sz_ (self s) + count <= cap_ (self s) ->
  0 <= index < i -> i <= sz_ (self s) ->
  block_state s (gap_at l count i) t ->
  let a := arr_ (self s) in
  match (construct_moved (a +p (i + count - 1)) (a +p (i - 1)) ;;
         destroy (a +p (i - 1))) t with
  | Ok _ t' => block_state s (gap_at l count (i - 1)) t'
  | Throw _ _ => exists k, fails k = true
  | Fault _ => False
  end.
Proof.
  intros Hown Hcount Hfit Hindex Hi Hbs a. subst a.
  pose proof Hown as (Hsz & Hcap & _).
  pose proof Hbs as (Hself & Hlen & Hbl & Hframe & Hcells).
  destruct (item_lt l (i - 1) ltac:(lia)) as [x Hx].
  assert (Hsrc : slot (heap t) (arr_ (self s) +p (i - 1)) = Some (Some x)).
  { rewrite Hcells by lia. unfold gap_at. rewrite <- Hx. case_compare. }
  assert (Hdst : slot (heap t) (arr_ (self s) +p (i + count - 1)) = Some None).
  { rewrite Hcells by lia. unfold gap_at. case_compare. }
  assert (Hne : arr_ (self s) +p (i - 1) <> arr_ (self s) +p (i + count - 1))
    by (apply ptr_add_ne; lia).
  unfold bind. rewrite (construct_moved_run _ _ _ _ _ Hsrc Hdst).
  assert (Hmove : forall c,
            match destroy (arr_ (self s) +p (i - 1))
                    (State (self t)
                       (store (store (heap t) (arr_ (self s) +p (i - 1)) (Some (moved x)))
                              (arr_ (self s) +p (i + count - 1)) (Some x)) c) with
            | Ok _ t' => block_state s (gap_at l count (i - 1)) t'
            | Throw _ _ => exists k, fails k = true
            | Fault _ => False
            end).
  { intros c.
    pose proof (block_state_store s _ t (i - 1) (Some (moved x)) Hbs ltac:(lia)) as H1.
    pose proof (block_state_store s _ _ (i + count - 1) (Some x) H1 ltac:(lia)) as H2.
    simpl in H2.
    erewrite destroy_run.
    2:{ simpl. rewrite slot_store_ne by (apply not_eq_sym; exact Hne).
        eapply slot_store_eq. exact Hsrc. }
    pose proof (block_state_store s _ _ (i - 1) None H2 ltac:(lia)) as H3.
    simpl in H3. simpl.
    eapply block_state_ext; [exact H3|].
    intros k Hk. simpl. unfold gap_at. rewrite <- Hx. case_compare. }
  destruct nothrow_move; [apply Hmove|].
  destruct (fails (calls t)) eqn:Hf; [eauto|].
  destruct copyable; [|apply Hmove].
  - pose proof (block_state_store s _ t (i + count - 1) (Some x) Hbs ltac:(lia)) as H2.
    erewrite destroy_run.
    2:{ simpl. rewrite slot_store_ne by (apply not_eq_sym; exact Hne). exact Hsrc. }
    pose proof (block_state_store s _ _ (i - 1) None H2 ltac:(lia)) as H3.
    simpl in H3. simpl.
    eapply block_state_ext; [exact H3|].
    intros k Hk. simpl. unfold gap_at. rewrite <- Hx. case_compare.
Qed.

Lemma owns_block_state s l :
  owns (heap s) (self s) l -> block_state s (item l) s.
Proof.
  intros Hown. repeat split; try reflexivity.
  destruct Hown as (Hsz & Hcap & [[Hnull Hc0] | (loc & Harr & Hbl & Hcells)]).
  - intros k Hk. lia.
  - exact Hcells.
Qed.

(** One round of the loop that fills the gap. *)
Lemma fill_round s l new index count (src : Z -> M T) j t :
  owns (heap s) (self s) l ->
  count = Z.of_nat (length new) ->
  sz_ (self s) + count <= cap_ (self s) ->
  0 <= index <= sz_ (self s) -> 0 <= j < count ->
  (forall t, (forall p, base p <> base (arr_ (self s)) -> slot (heap t) p = slot (heap s) p) ->
     forall i x, new !! i = Some x -> src (Z.of_nat i) t = Ok x t) ->
  block_state s (filled_to l new index count j) t ->
  match (x <- src j ;; construct (arr_ (self s) +p (index + j)) x) t with
  | Ok _ t' => block_state s (filled_to l new index count (j + 1)) t'
  | Throw _ _ => exists k, fails k = true
  | Fault _ => False
  end.
Proof.
  intros Hown Hcount Hfit Hindex Hj Hsrc Hbs.
  pose proof Hown as (Hsz & Hcap & _).
  pose proof Hbs as (Hself & Hlen & Hbl & Hframe & Hcells).
  destruct (item_lt new j ltac:(lia)) as [x Hx].
  assert (Hread : src j t = Ok x t).
  { replace j with (Z.of_nat (Z.to_nat j)) by lia. apply Hsrc; [exact Hframe | exact Hx]. }
  rewrite (bind_Ok _ _ _ _ _ Hread).
  assert (Hdst : slot (heap t) (arr_ (self s) +p (index + j)) = Some None).
  { rewrite Hcells by lia. unfold filled_to. case_compare. }
  rewrite (construct_run _ _ _ _ Hdst).
  destruct (fails (calls t)) eqn:Hf; [eauto|].
  pose proof (block_state_store s _ t (index + j) (Some x) Hbs ltac:(lia)) as H1.
  eapply block_state_ext; [exact H1|].
  intros k Hk. simpl. unfold filled_to. rewrite <- Hx. case_compare.
Qed.

Lemma open_gap_and_fill_spec s l new index count (src : Z -> M T) :
  owns (heap s) (self s) l ->
  count = Z.of_nat (length new) -> 1 <= count ->
  sz_ (self s) + count <= cap_ (self s) ->
  0 <= index <= sz_ (self s) ->
  (forall t, (forall p, base p <> base (arr_ (self s)) -> slot (heap t) p = slot (heap s) p) ->
     forall i x, new !! i = Some x -> src (Z.of_nat i) t = Ok x t) ->
  (exists s', open_gap_and_fill index count src s = Ok tt s' /\
     self s' = Vector (arr_ (self s)) (sz_ (self s) + count) (cap_ (self s)) /\
     owns (heap s') (self s') (spliced l new index) /\
     length (heap s') = length (heap s) /\
     (forall loc, block_len (heap s') loc = block_len (heap s) loc) /\
     (forall p, base p <> base (arr_ (self s)) -> slot (heap s') p = slot (heap s) p)) \/
  ((forall u s', open_gap_and_fill index count src s <> Ok u s') /\
   exists k, fails k = true).
Proof.
  intros Hown Hcount Hpos Hfit Hindex Hsrc.
  pose proof Hown as (Hsz & Hcap & Hblock).
  pose proof ptrdiff_max_eq as Hmax.
  unfold open_gap_and_fill. rewrite bind_this.
  set (v := self s) in *.
  set (handler := fun e : exn =>
         for_range (wrap (index + count)) (sz_ v) (fun i => destroy (arr_ v +p i)) ;;
         throw e).
  assert (Hhandler : forall e t u s', handler e t <> Ok u s').
  { intros e t u s'. apply ends_in_throw_not_Ok. }
  (* the tail moves to the right *)
  destruct (for_down_rule (fun i t => block_state s (gap_at l count i) t)
              (fun _ _ => exists k, fails k = true) False
              (Z.to_nat (sz_ v - index)) (sz_ v)
              (fun i => construct_moved (arr_ v +p (i + count - 1)) (arr_ v +p (i - 1)) ;;
                        destroy (arr_ v +p (i - 1))) s)
    as [(s1 & Hr1 & Hs1) | [(e & t & Hk & Hr1) | ([] & _)]].
  { eapply block_state_ext; [apply owns_block_state; exact Hown|].
    intros k Hk. unfold gap_at. fold v. case_compare.
    - rewrite item_ge by lia. reflexivity.
    - rewrite !item_ge by lia. reflexivity. }
  { intros j t Hj Hbs. apply (shift_round s l count index j t); try assumption; fold v; lia. }
  2:{ right. split; [|exact Hk]. intros u s'.
      rewrite (try_catch_Throw _ _ _ _ _ (bind_Throw _ _ _ _ _ Hr1)). apply Hhandler. }
  replace (sz_ v - Z.of_nat (Z.to_nat (sz_ v - index))) with index in Hs1 by lia.
  (* the new elements go into the gap *)
  destruct (for_up_rule (fun j t => block_state s (filled_to l new index count j) t)
              (fun _ _ _ => exists k, fails k = true) False
              (Z.to_nat (count - 0)) 0
              (fun i => x <- src i ;; construct (arr_ v +p (index + i)) x) rethrow s1)
    as [(s2 & Hr2 & Hs2) | [(j & e & t & _ & Hk & Hr2) | ([] & _)]].
  { eapply block_state_ext; [exact Hs1|].
    intros k Hk. unfold gap_at, filled_to. case_compare. }
  { intros j t Hj Hbs. apply (fill_round s l new index count src j t); try assumption; lia. }
  2:{ right. split; [|exact Hk]. intros u s'.
      unfold rethrow, throw in Hr2.
      rewrite (try_catch_Throw _ _ _ _ _
                 (eq_trans (bind_Ok _ _ _ _ _ Hr1) (bind_Throw _ _ _ _ _ Hr2))).
      apply Hhandler. }
  replace (0 + Z.of_nat (Z.to_nat (count - 0))) with count in Hs2 by lia.
  left. destruct Hs2 as (Hself2 & Hlen2 & Hbl2 & Hframe2 & Hcells2).
  eexists. split.
  { apply try_catch_Ok. rewrite (bind_Ok _ _ _ _ _ Hr1).
    unfold for_range. rewrite (bind_Ok _ _ _ _ _ Hr2). reflexivity. }
  simpl. rewrite Hself2. fold v. rewrite wrap_small by lia.
  split; [reflexivity|].
  split; [|split; [exact Hlen2 | split; [exact Hbl2 | exact Hframe2]]].
  split; [simpl; rewrite length_spliced; lia|]. split; [simpl; lia|].
  destruct Hblock as [[Hnull Hc0] | (loc & Harr & Hbl & _)]; [lia|].
  right. exists loc. simpl. split; [exact Harr|]. split; [rewrite Hbl2; exact Hbl|].
  intros k Hk. rewrite Hcells2 by exact Hk.
  rewrite item_spliced by lia. unfold filled_to. rewrite <- Hcount. case_compare.
Qed.


(** ** Growing for [count] more elements *)

Lemma grow_for_spec s l count :
  owns (heap s) (self s) l ->
  0 <= count <= ptrdiff_max ->
  (exists s', grow_for count s = Ok tt s' /\
     owns (heap s') (self s') l /\
     sz_ (self s') = sz_ (self s) /\
     sz_ (self s) + count <= cap_ (self s') /\
     preserved s s' (self s) /\
     (self s' = self s \/ arr_ (self s') = Ptr (Some (length (heap s))) 0)) \/
  ((forall u s', grow_for count s <> Ok u s') /\
   (ptrdiff_max < Z.max (2 * cap_ (self s)) (sz_ (self s) + count) \/
    exists k, fails k = true)).
Proof.
  intros Hown Hcount. pose proof Hown as (Hsz & Hcap & _).
  pose proof ptrdiff_max_eq as Hmax.
  unfold grow_for. rewrite bind_this.
  rewrite (wrap_small (sz_ (self s) + count)) by lia.
  rewrite (wrap_small (cap_ (self s) * 2)) by lia.
  destruct (sz_ (self s) + count >? cap_ (self s)) eqn:Hgrow.
  - apply Z.gtb_lt in Hgrow.
    set (newcap := Z.max (cap_ (self s) * 2) (sz_ (self s) + count)).
    destruct (reserve_spec newcap s l ltac:(lia) Hown)
      as [(Hnc & s' & Hr & Hself & Hown' & Hpres)
         | [(e & s' & Hr & _ & _ & _ & Hwhy) | (Hlt & _)]].
    + left. exists s'. split; [exact Hr|]. split; [exact Hown'|].
      rewrite Hself. simpl. split; [reflexivity|]. split; [lia|].
      split; [exact Hpres|]. right. reflexivity.
    + right. split; [intros u s0; rewrite Hr; discriminate|].
      destruct Hwhy as [[_ Hbig] | (_ & _ & Hk)]; [left | right; exact Hk].
      replace (2 * cap_ (self s)) with (cap_ (self s) * 2) by lia. exact Hbig.
    + lia.
  - rewrite Z.gtb_ltb in Hgrow. apply Z.ltb_ge in Hgrow.
    left. exists s. split; [reflexivity|]. split; [exact Hown|].
    split; [reflexivity|]. split; [lia|]. split; [apply preserved_refl|].
    left. reflexivity.
Qed.

(** ** The temporary copy of a range of the container's own elements *)

Lemma length_sub_range l f t :
  0 <= f <= t -> t <= Z.of_nat (length l) ->
  Z.of_nat (length (sub_range l f t)) = t - f.
Proof.
  intros Hf Ht. unfold sub_range. rewrite length_take, length_drop. lia.
Qed.

Lemma item_sub_range l f t k :
  0 <= f -> 0 <= k < t - f -> item (sub_range l f t) k = item l (f + k).
Proof.
  intros Hf Hk. unfold sub_range, item.
  rewrite lookup_take_lt by lia. rewrite lookup_drop. f_equal. lia.
Qed.

Lemma vector_from_range_spec s l f t :
  owns (heap s) (self s) l ->
  0 <= f <= t -> t <= sz_ (self s) ->
  let a := arr_ (self s) in
  let temp := Vector (Ptr (Some (length (heap s))) 0) (t - f) (t - f) in
  (exists s1, vector_from_range (a +p f) (a +p t) s = Ok temp s1 /\
     self s1 = self s /\
     owns (heap s1) temp (sub_range l f t) /\
     owns (heap s1) (self s) l /\
     length (heap s1) = S (length (heap s))) \/
  ((forall u s', vector_from_range (a +p f) (a +p t) s <> Ok u s') /\
   exists k, fails k = true).
Proof.
  intros Hown Hf Ht a temp. subst a temp.
  pose proof Hown as (Hsz & Hcap & _).
  pose proof ptrdiff_max_eq as Hmax.
  remember (length (heap s)) as loc eqn:Hloc.
  set (c := Ptr (Some loc) 0).
  set (s0 := State (self s) (extend (heap s) (t - f)) (calls s)).
  assert (Hprog : vector_from_range (arr_ (self s) +p f) (arr_ (self s) +p t) s =
            (for_up (Z.to_nat (t - f)) 0
               (fun index => x <- read (arr_ (self s) +p f +p index) ;;
                             construct (c +p index) x)
               (discard_new c (t - f)) ;;
             ret (Vector c (t - f) (t - f))) s0).
  { unfold vector_from_range, ptr_diff. simpl. rewrite base_eqb_refl.
    unfold bind at 1. unfold ret at 1.
    replace (off (arr_ (self s)) + t - (off (arr_ (self s)) + f)) with (t - f) by lia.
    rewrite wrap_small by lia.
    rewrite (bind_Ok _ _ _ _ _ (allocate_run (t - f) s ltac:(lia))).
    destruct (t - f <? 0) eqn:Hneg; [apply Z.ltb_lt in Hneg; lia|].
    rewrite <- Hloc. reflexivity. }
  rewrite Hprog. clear Hprog.
  assert (Hfresh : base (arr_ (self s)) <> Some loc)
    by (rewrite Hloc; apply (owns_fresh _ _ _ Hown)).
  set (I := fun (j : Z) (u : state) =>
    self u = self s /\
    length (heap u) = S (length (heap s)) /\
    block_len (heap u) loc = Some (t - f) /\
    (forall l', l' <> loc -> block_len (heap u) l' = block_len (heap s) l') /\
    (forall p, base p <> Some loc -> slot (heap u) p = slot (heap s) p) /\
    cells (heap u) c 0 (t - f) (fun k => if k <? j then item l (f + k) else None)).
  destruct (for_up_rule I (fun _ _ _ => exists k, fails k = true) False
              (Z.to_nat (t - f)) 0
              (fun index => x <- read (arr_ (self s) +p f +p index) ;;
                            construct (c +p index) x)
              (discard_new c (t - f)) s0)
    as [(s1 & Hr & Hs1) | [(j & e & u & _ & Hk & Hr) | ([] & _)]].
  - unfold I, s0. simpl. split; [reflexivity|]. split; [apply length_extend|].
    split; [rewrite Hloc; apply block_len_extend_new; lia|].
    split; [intros l' Hl'; apply block_len_extend_old; lia|].
    split; [intros p Hp; apply slot_extend_old; congruence|].
    intros k Hk. unfold c. rewrite Hloc. rewrite slot_extend_new_add by lia.
    case_compare.
  - intros j u Hj (Hself & Hlen & Hbl & Hblo & Hframe & Hcells).
    destruct (item_lt l (f + j) ltac:(lia)) as [x Hx].
    assert (Hsrc : slot (heap u) (arr_ (self s) +p f +p j) = Some (Some x)).
    { rewrite Hframe by (simpl; exact Hfresh). rewrite ptr_add_add.
      rewrite (owns_live _ _ _ Hown) by lia. rewrite Hx. reflexivity. }
    rewrite (bind_Ok _ _ _ _ _ (read_run _ _ _ Hsrc)).
    assert (Hdst : slot (heap u) (c +p j) = Some None).
    { rewrite Hcells by lia. case_compare. }
    rewrite (construct_run _ _ _ _ Hdst).
    destruct (fails (calls u)) eqn:Hfl; [eauto|].
    unfold I. simpl. split; [exact Hself|].
    split; [rewrite length_store; exact Hlen|].
    split; [rewrite block_len_store; exact Hbl|].
    split; [intros l' Hl'; rewrite block_len_store; apply Hblo; exact Hl'|].
    split.
    + intros p Hp. rewrite slot_store_ne by (apply not_eq_sym, ptr_base_ne; exact Hp).
      apply Hframe. exact Hp.
    + intros k Hk. destruct (decide (k = j)) as [->|Hne].
      * erewrite slot_store_eq by exact Hdst. rewrite <- Hx. case_compare.
      * rewrite slot_store_ne by (apply ptr_add_ne; lia).
        rewrite Hcells by exact Hk. case_compare.
  - left. exists s1. rewrite (bind_Ok _ _ _ _ _ Hr).
    destruct Hs1 as (Hself & Hlen & Hbl & Hblo & Hframe & Hcells).
    split; [reflexivity|]. split; [exact Hself|]. split; [|split; [|congruence]].
    + split; [simpl; rewrite length_sub_range; lia|]. split; [simpl; lia|].
      right. exists loc. simpl. split; [reflexivity|]. split; [exact Hbl|].
      intros k Hk. fold c. rewrite Hcells by lia.
      rewrite item_sub_range by lia. case_compare.
    + apply (owns_transfer (heap s)); [exact Hown | |].
      * intros l' Hl'. apply Hblo. congruence.
      * intros k _. apply Hframe. simpl. exact Hfresh.
  - right. split; [|exact Hk]. intros u0 s'. unfold bind at 1. rewrite Hr.
    pose proof (discard_new_not_Ok c (t - f) j e u) as Hno.
    destruct (discard_new c (t - f) j e u) as [[] u1| |]; try discriminate.
    exfalso. eapply Hno. reflexivity.
Qed.


(** ** The destructor and local containers *)

Lemma bind_not_Ok {A B} (m : M A) (k : A -> M B) s :
  (forall a s', m s <> Ok a s') -> forall b s', bind m k s <> Ok b s'.
Proof.
  intros Hm b s'. unfold bind. destruct (m s) as [a s1| |]; try discriminate.
  exfalso. eapply Hm. reflexivity.
Qed.

Lemma destructor_spec s l :
  owns (heap s) (self s) l ->
  exists s', destructor s = Ok tt s' /\
    length (heap s') = length (heap s) /\
    (forall loc, Some loc <> base (arr_ (self s)) ->
       block_len (heap s') loc = block_len (heap s) loc) /\
    (forall p, base p <> base (arr_ (self s)) -> slot (heap s') p = slot (heap s) p).
Proof.
  intros Hown. unfold destructor.
  destruct (clear_spec s l Hown) as (s1 & Hr & Hself & Hown1 & Hlen & Hbl & Hframe).
  rewrite (bind_Ok _ _ _ _ _ Hr). rewrite bind_this. rewrite Hself. simpl.
  assert (Hfree : (if negb (ptr_eqb (arr_ (self s)) nullptr)
                   then deallocate (arr_ (self s)) (cap_ (self s)) else ret tt) s1 =
                  Ok tt (State (self s1) (release (arr_ (self s)) (heap s1)) (calls s1))).
  { destruct Hown as (_ & _ & [[Hnull _] | (loc & Harr & Hbl0 & _)]).
    - rewrite Hnull. destruct s1. reflexivity.
    - rewrite Harr. simpl. apply deallocate_block. right. exists loc.
      split; [reflexivity|]. rewrite Hbl. exact Hbl0. }
  rewrite Hfree. eexists. split; [reflexivity|]. simpl.
  split; [rewrite length_release; exact Hlen|]. split.
  - intros loc Hloc. rewrite block_len_release_other by exact Hloc. apply Hbl.
  - intros p Hp. rewrite slot_release_other by exact Hp. apply Hframe. exact Hp.
Qed.

(** Leaving the scope of a local container [temp] after [body] returned. *)
Lemma with_local_Ok {A} (temp : vector) (body : M A) s a s1 lt :
  body s = Ok a s1 ->
  owns (heap s1) temp lt ->
  exists s2, with_local temp body s = Ok a s2 /\
    self s2 = self s1 /\
    length (heap s2) = length (heap s1) /\
    (forall loc, Some loc <> base (arr_ temp) ->
       block_len (heap s2) loc = block_len (heap s1) loc) /\
    (forall p, base p <> base (arr_ temp) -> slot (heap s2) p = slot (heap s1) p).
Proof.
  intros Hbody Hown. unfold with_local. rewrite Hbody.
  destruct (destructor_spec (State temp (heap s1) (calls s1)) lt Hown)
    as (s' & Hr & Hlen & Hbl & Hframe).
  unfold bind, on_object. rewrite Hr. eexists. split; [reflexivity|]. simpl.
  repeat split; assumption.
Qed.

Lemma with_local_not_Ok {A} (temp : vector) (body : M A) s :
  (forall a s', body s <> Ok a s') -> forall a s', with_local temp body s <> Ok a s'.
Proof.
  intros Hbody a s'. unfold with_local.
  destruct (body s) as [a1 s1 | e s1 | f0] eqn:Hb.
  - exfalso. eapply Hbody. reflexivity.
  - apply ends_in_throw_not_Ok.
  - discriminate.
Qed.

(** ** Inserting a range of the container's own elements *)

Lemma aliases_own_storage_run s f t :
  0 <= f < t -> t <= sz_ (self s) ->
  let v := self s in
  aliases_own_storage v (begin v +p f) (begin v +p t) s = Ok true s.
Proof.
  intros Hf Ht v. subst v.
  unfold aliases_own_storage, and_then, ptr_ge, ptr_gt, ptr_le, ptr_lt, begin, end_.
  simpl. rewrite !base_eqb_refl. unfold bind, ret.
  destruct (off (arr_ (self s)) <=? off (arr_ (self s)) + f) eqn:H1;
    [|apply Z.leb_gt in H1; lia].
  destruct (off (arr_ (self s)) + f <? off (arr_ (self s)) + sz_ (self s)) eqn:H2;
    [|apply Z.ltb_ge in H2; lia].
  destruct (off (arr_ (self s)) <? off (arr_ (self s)) + t) eqn:H3;
    [|apply Z.ltb_ge in H3; lia].
  destruct (off (arr_ (self s)) + t <=? off (arr_ (self s)) + sz_ (self s)) eqn:H4;
    [|apply Z.leb_gt in H4; lia].
  reflexivity.
Qed.

Lemma to_diff_small z : 0 <= z <= ptrdiff_max -> to_diff z = z.
Proof.
  intros Hz. rewrite ptrdiff_max_eq in Hz. unfold to_diff.
  change (2 ^ 63) with 9223372036854775808.
  destruct (z <? 9223372036854775808) eqn:H; [reflexivity | apply Z.ltb_ge in H; lia].
Qed.

Lemma spliced_nil l i : spliced l [] i = l.
Proof. unfold spliced. simpl. apply take_drop. Qed.

Lemma sub_range_empty l f : sub_range l f f = [].
Proof. unfold sub_range. rewrite Z.sub_diag. reflexivity. Qed.


Lemma insert_own_range_spec s l ip f t :
  owns (heap s) (self s) l ->
  0 <= ip <= sz_ (self s) -> 0 <= f <= t -> t <= sz_ (self s) ->
  let v := self s in
  let run := insert_dispatch_int (begin v +p ip) (begin v +p f) (begin v +p t) s in
  (exists r s', run = Ok r s' /\
     owns (heap s') (self s') (spliced l (sub_range l f t) ip) /\
     sz_ (self s') = sz_ v + (t - f) /\
     r = begin (self s') +p ip) \/
  ((forall r s', run <> Ok r s') /\
   (ptrdiff_max < Z.max (2 * cap_ v) (sz_ v + (t - f)) \/ exists k, fails k = true)).
Proof.
  intros Hown Hip Hf Ht v run. subst v run.
  pose proof Hown as (Hsz & Hcap & _).
  pose proof ptrdiff_max_eq as Hmax.
  pose proof (owns_off _ _ _ Hown) as Hoff.
  set (v := self s) in *.
  set (sub := sub_range l f t).
  assert (Hsublen : Z.of_nat (length sub) = t - f)
    by (apply length_sub_range; lia).
  (* up to the test for an empty range *)
  assert (Hprog : insert_dispatch_int (begin v +p ip) (begin v +p f) (begin v +p t) s =
            (if t - f =? 0 then ret (begin v +p ip)
             else
               aliased <- aliases_own_storage v (begin v +p f) (begin v +p t) ;;
               if aliased then
                 temp <- vector_from_range (begin v +p f) (begin v +p t) ;;
                 with_local temp
                   (let first := begin temp in
                    grow_for (t - f) ;;
                    open_gap_and_fill ip (t - f) (fun i => read (first +p i)) ;;
                    v' <- this ;;
                    ret (begin v' +p to_diff ip))
               else
                 grow_for (t - f) ;;
                 open_gap_and_fill ip (t - f) (fun i => read (begin v +p f +p i)) ;;
                 v' <- this ;;
                 ret (begin v' +p to_diff ip)) s).
  { unfold insert_dispatch_int.
    rewrite (bind_Ok _ _ _ _ _ (check_position_in s (begin v +p ip) eq_refl
               ltac:(unfold begin; simpl; fold v; lia))).
    rewrite bind_this. fold v.
    unfold ptr_diff, begin. simpl. rewrite !base_eqb_refl.
    unfold bind at 1. unfold ret at 1. unfold bind at 1. unfold ret at 1.
    replace (off (arr_ v) + t - (off (arr_ v) + f)) with (t - f) by lia.
    replace (off (arr_ v) + ip - off (arr_ v)) with ip by lia.
    rewrite (wrap_small (t - f)) by lia. rewrite (wrap_small ip) by lia.
    rewrite (to_diff_small ip) by lia. reflexivity. }
  rewrite Hprog. clear Hprog. unfold begin.
  destruct (t - f =? 0) eqn:Hempty.
  - (* nothing to insert *)
    apply Z.eqb_eq in Hempty. left. exists (arr_ v +p ip), s.
    split; [reflexivity|]. assert (t = f) as -> by lia.
    unfold sub. rewrite sub_range_empty, spliced_nil.
    split; [exact Hown|]. split; [fold v; lia | reflexivity].
  - apply Z.eqb_neq in Hempty.
    pose proof (aliases_own_storage_run s f t ltac:(lia) Ht) as Halias.
    cbv zeta in Halias. unfold begin in Halias. fold v in Halias.
    rewrite (bind_Ok _ _ _ _ _ Halias).
    (* the temporary copy *)
    destruct (vector_from_range_spec s l f t Hown Hf Ht)
      as [(s1 & Hr1 & Hself1 & Howntemp & Hown1 & Hlen1) | (Hno & Hk)].
    2:{ right. split; [|right; exact Hk]. apply bind_not_Ok. exact Hno. }
    cbv zeta in Hr1. fold v in Hr1. fold sub in Howntemp.
    rewrite (bind_Ok _ _ _ _ _ Hr1).
    set (temp := Vector (Ptr (Some (length (heap s))) 0) (t - f) (t - f)) in *.
    assert (Htempbase : base (arr_ temp) <> base (arr_ v)).
    { simpl. intros Heq. symmetry in Heq. apply (owns_fresh _ _ _ Hown) in Heq. exact Heq. }
    rewrite <- Hself1 in Hown1.
    (* room for the new elements *)
    destruct (grow_for_spec s1 l (t - f) Hown1 ltac:(lia))
      as [(s2 & Hr2 & Hown2 & Hsz2 & Hfit2 & Hpres2 & Harr2) | (Hno & Hwhy)].
    2:{ right. split.
        - apply with_local_not_Ok. apply bind_not_Ok. exact Hno.
        - rewrite Hself1 in Hwhy. exact Hwhy. }
    assert (Htemp2 : forall k, slot (heap s2) (arr_ temp +p k) = slot (heap s1) (arr_ temp +p k)).
    { intros k. destruct Hpres2 as (_ & _ & Hslots).
      apply (Hslots _ (length (heap s))); [reflexivity | lia |].
      rewrite Hself1. exact Htempbase. }
    assert (Htempbase2 : base (arr_ temp) <> base (arr_ (self s2))).
    { destruct Harr2 as [-> | ->].
      - rewrite Hself1. exact Htempbase.
      - simpl. intros Heq. injection Heq. lia. }
    (* the gap and the new elements *)
    destruct (open_gap_and_fill_spec s2 l sub ip (t - f)
                (fun i => read (arr_ temp +p i)) Hown2
                ltac:(lia) ltac:(lia) ltac:(lia) ltac:(rewrite Hsz2, Hself1; fold v; lia))
      as [(s3 & Hr3 & Hself3 & Hown3 & Hlen3 & Hbl3 & Hframe3) | (Hno & Hk)].
    { intros u Hu i x Hx. apply read_run.
      rewrite Hu by exact Htempbase2. rewrite Htemp2.
      rewrite (owns_live _ _ _ Howntemp).
      - unfold item. rewrite Nat2Z.id, Hx. reflexivity.
      - apply lookup_lt_Some in Hx. lia. }
    2:{ right. split; [|right; exact Hk].
        apply with_local_not_Ok. rewrite (bind_Ok _ _ _ _ _ Hr2).
        apply bind_not_Ok. exact Hno. }
    (* the temporary goes away *)
    assert (Hbody : (grow_for (t - f) ;;
                     open_gap_and_fill ip (t - f) (fun i => read (arr_ temp +p i)) ;;
                     v' <- this ;; ret (arr_ v' +p to_diff ip)) s1 =
                    Ok (arr_ (self s3) +p to_diff ip) s3).
    { rewrite (bind_Ok _ _ _ _ _ Hr2). rewrite (bind_Ok _ _ _ _ _ Hr3). reflexivity. }
    assert (Howntemp3 : owns (heap s3) temp sub).
    { apply (owns_transfer (heap s1)); [exact Howntemp | |].
      - intros loc Hloc. rewrite Hbl3. destruct Hpres2 as (_ & Hbls & _).
        simpl in Hloc. injection Hloc as <-.
        apply Hbls; [lia|]. rewrite Hself1. exact Htempbase.
      - intros k _. rewrite Hframe3 by exact Htempbase2. apply Htemp2. }
    destruct (with_local_Ok temp _ s1 _ s3 sub Hbody Howntemp3)
      as (s4 & Hr4 & Hself4 & Hlen4 & Hbl4 & Hframe4).
    cbv zeta. rewrite Hr4.
    left. eexists _, s4. split; [reflexivity|].
    assert (Hbase3 : base (arr_ (self s3)) = base (arr_ (self s2)))
      by (rewrite Hself3; reflexivity).
    rewrite Hself4. split; [|split].
    + apply (owns_transfer (heap s3)); [exact Hown3 | |].
      * intros loc Hloc. apply Hbl4. intros Heq. apply Htempbase2.
        rewrite <- Hbase3, Hloc. symmetry. exact Heq.
      * intros k _. apply Hframe4. simpl. intros Heq. apply Htempbase2.
        rewrite <- Hbase3. symmetry. exact Heq.
    + rewrite Hself3. simpl. rewrite Hsz2, Hself1. reflexivity.
    + rewrite to_diff_small by lia. reflexivity.
Qed.


(** C5: a range insert whose source [first, last) lies inside the
    container's own elements.  For a range that is not empty the test for
    aliasing succeeds, and the copy made then is a block of its own that
    holds the elements of the range while the container is still as it
    was.  When the insert returns, the container holds the original
    sequence with a copy of the original sub-range put in before [pos];
    and it does return when no constructor throws and the capacity is below
    [2^62]. *)
Theorem insert_own_range s l ip f t :
  owns (heap s) (self s) l ->
  0 <= ip <= size (self s) -> 0 <= f <= t -> t <= size (self s) ->
  let v := self s in
  let pos := begin v +p ip in
  let first := begin v +p f in
  let last := begin v +p t in
  (f < t -> aliases_own_storage v first last s = Ok true s) /\
  (forall temp s1, vector_from_range first last s = Ok temp s1 ->
     base (arr_ temp) <> base (arr_ v) /\
     owns (heap s1) temp (sub_range l f t) /\
     self s1 = v /\ owns (heap s1) v l) /\
  (forall r s', insert_range pos first last s = Ok r s' ->
     contents s' = Some (spliced l (sub_range l f t) ip) /\
     size (self s') = size v + (t - f) /\
     r = begin (self s') +p ip) /\
  ((forall k, fails k = false) -> capacity v < 2 ^ 62 ->
   exists r s', insert_range pos first last s = Ok r s').
Proof.
  intros Hown Hip Hf Ht v pos first last. subst v pos first last.
  unfold size, capacity, insert_range in *.
  split; [|split; [|split]].
  - intros Hlt. apply aliases_own_storage_run; lia.
  - intros temp s1 Hr.
    destruct (vector_from_range_spec s l f t Hown Hf Ht)
      as [(s1' & Hr1 & Hself1 & Howntemp & Hown1 & _) | (Hno & _)].
    + cbv zeta in Hr1. unfold begin in Hr. rewrite Hr1 in Hr. injection Hr as <- <-.
      split; [|split; [exact Howntemp | split; [exact Hself1 | exact Hown1]]].
      simpl. intros Heq. symmetry in Heq.
      apply (owns_fresh _ _ _ Hown) in Heq. exact Heq.
    + exfalso. eapply Hno. exact Hr.
  - intros r s' Hr.
    destruct (insert_own_range_spec s l ip f t Hown Hip Hf Ht)
      as [(r' & s'' & Hr' & Hown' & Hsz' & Hret) | (Hno & _)].
    + cbv zeta in Hr'. rewrite Hr' in Hr. injection Hr as <- <-.
      split; [apply owns_contents; exact Hown' | split; assumption].
    + exfalso. eapply Hno. exact Hr.
  - intros Hnofail Hcap.
    destruct (insert_own_range_spec s l ip f t Hown Hip Hf Ht)
      as [(r' & s'' & Hr' & _) | (_ & [Hbig | (k & Hk)])].
    + exists r', s''. exact Hr'.
    + exfalso. pose proof Hown as (Hsz & Hc & _).
      rewrite ptrdiff_max_eq in *.
      change (2 ^ 62) with 4611686018427387904 in Hcap. lia.
    + rewrite Hnofail in Hk. discriminate.
Qed.


(** ** [erase] of a range *)

(** One round of the loop that moves the tail down: the element at [src]
    is relocated to [dst], its old slot is destroyed. *)
Lemma relocate_within s f t src dst y :
  block_state s f t ->
  0 <= src < cap_ (self s) -> 0 <= dst < cap_ (self s) ->
  f src = Some y ->
  let a := arr_ (self s) in
  match (construct_moved (a +p dst) (a +p src) ;; destroy (a +p src)) t with
  | Ok _ t' =>
      block_state s (fun x => if x =? src then None
                              else if x =? dst then Some y else f x) t'
  | Throw _ _ => exists k, fails k = true
  | Fault _ => False
  end.
Proof.
  intros Hbs Hsrc Hdst Hy a. subst a.
  pose proof Hbs as (Hself & Hlen & Hbl & Hframe & Hcells).
  assert (Hs : slot (heap t) (arr_ (self s) +p src) = Some (Some y))
    by (rewrite Hcells by lia; rewrite Hy; reflexivity).
  pose proof (Hcells dst Hdst) as Hd.
  unfold bind. rewrite (construct_moved_run _ _ _ _ _ Hs Hd).
  assert (Hmove : forall c,
            match destroy (arr_ (self s) +p src)
                    (State (self t)
                       (store (store (heap t) (arr_ (self s) +p src) (Some (moved y)))
                              (arr_ (self s) +p dst) (Some y)) c) with
            | Ok _ t' =>
                block_state s (fun x => if x =? src then None
                                        else if x =? dst then Some y else f x) t'
            | Throw _ _ => exists k, fails k = true
            | Fault _ => False
            end).
  { intros c.
    pose proof (block_state_store s _ t src (Some (moved y)) Hbs Hsrc) as H1.
    pose proof (block_state_store s _ _ dst (Some y) H1 Hdst) as H2.
    simpl in H2.
    destruct H2 as (Hself2 & Hlen2 & Hbl2 & Hframe2 & Hcells2).
    pose proof (Hcells2 src Hsrc) as Hlive. simpl in Hlive.
    assert (exists z, slot
              (store (store (heap t) (arr_ (self s) +p src) (Some (moved y)))
                 (arr_ (self s) +p dst) (Some y)) (arr_ (self s) +p src) = Some (Some z)).
    { rewrite Hlive. rewrite Z.eqb_refl. destruct (src =? dst); eauto. }
    destruct H as [z Hz].
    erewrite destroy_run by (simpl; exact Hz).
    pose proof (block_state_store s _ (State (self t) _ c) src None
                  (conj Hself2 (conj Hlen2 (conj Hbl2 (conj Hframe2 Hcells2)))) Hsrc) as H3.
    simpl in H3. simpl.
    eapply block_state_ext; [exact H3|].
    intros k Hk. simpl. case_compare. }
  destruct nothrow_move; [apply Hmove|].
  destruct (fails (calls t)) eqn:Hf; [eauto|].
  destruct copyable; [|apply Hmove].
  - pose proof (block_state_store s _ t dst (Some y) Hbs Hdst) as H2.
    destruct H2 as (Hself2 & Hlen2 & Hbl2 & Hframe2 & Hcells2).
    pose proof (Hcells2 src Hsrc) as Hlive. simpl in Hlive.
    assert (exists z, slot (store (heap t) (arr_ (self s) +p dst) (Some y))
                        (arr_ (self s) +p src) = Some (Some z)).
    { rewrite Hlive. rewrite Hy. destruct (src =? dst); eauto. }
    destruct H as [z Hz].
    erewrite destroy_run by (simpl; exact Hz).
    pose proof (block_state_store s _ _ src None
                  (conj Hself2 (conj Hlen2 (conj Hbl2 (conj Hframe2 Hcells2)))) Hsrc) as H3.
    simpl in H3. simpl.
    eapply block_state_ext; [exact H3|].
    intros k Hk. simpl. case_compare.
Qed.

Lemma destroy_range_state s l i j :
  owns (heap s) (self s) l ->
  0 <= i -> j <= sz_ (self s) ->
  exists s1, for_range i j (fun k => destroy (arr_ (self s) +p k)) s = Ok tt s1 /\
    block_state s (hole l i j) s1.
Proof.
  intros Hown Hi Hj. pose proof Hown as (Hsz & Hcap & _).
  destruct (destroy_loop (arr_ (self s)) i j s)
    as (s1 & Hr & Hself & _ & Hlen & Hbl & Hraw & Hframe).
  { intros k Hk. rewrite (owns_live _ _ _ Hown) by lia.
    destruct (item_lt l k ltac:(lia)) as [x Hx]. rewrite Hx. eauto. }
  exists s1. split; [exact Hr|].
  split; [exact Hself|]. split; [exact Hlen|]. split; [exact Hbl|]. split.
  - intros p Hp. apply Hframe. intros k _. apply ptr_base_ne. exact Hp.
  - intros k Hk. unfold hole.
    destruct (Z.ltb_spec k i); [|destruct (Z.ltb_spec k j)].
    + rewrite Hframe by (intros k' Hk'; apply ptr_add_ne; lia).
      destruct (owns_block_state s l Hown) as (_ & _ & _ & _ & Hc). apply Hc. exact Hk.
    + apply Hraw. lia.
    + rewrite Hframe by (intros k' Hk'; apply ptr_add_ne; lia).
      destruct (owns_block_state s l Hown) as (_ & _ & _ & _ & Hc). apply Hc. exact Hk.
Qed.

Lemma erase_range_checks s i j :
  off (arr_ (self s)) = 0 -> 0 <= i <= j -> j <= sz_ (self s) ->
  let v := self s in
  (bad <- or_else (ptr_lt (begin v +p i) (begin v))
            (or_else (ptr_gt (begin v +p j) (end_ v)) (ptr_gt (begin v +p i) (end_ v))) ;;
   ret bad) s = Ok false s.
Proof.
  intros Hoff Hi Hj v. subst v.
  unfold or_else, ptr_gt, ptr_lt, begin, end_. simpl. rewrite !base_eqb_refl.
  unfold bind, ret.
  destruct (off (arr_ (self s)) + i <? off (arr_ (self s))) eqn:H1;
    [apply Z.ltb_lt in H1; lia|].
  destruct (off (arr_ (self s)) + sz_ (self s) <? off (arr_ (self s)) + j) eqn:H2;
    [apply Z.ltb_lt in H2; lia|].
  destruct (off (arr_ (self s)) + sz_ (self s) <? off (arr_ (self s)) + i) eqn:H3;
    [apply Z.ltb_lt in H3; lia|].
  reflexivity.
Qed.

Lemma erase_range_unfold s l i j :
  owns (heap s) (self s) l -> 0 <= i <= j -> j <= sz_ (self s) ->
  erase_range (begin (self s) +p i) (begin (self s) +p j) s = erase_body (self s) i j s.
Proof.
  intros Hown Hi Hj. pose proof Hown as (Hsz & Hcap & _).
  pose proof (owns_off _ _ _ Hown) as Hoff. pose proof ptrdiff_max_eq as Hmax.
  unfold erase_range. rewrite bind_this.
  pose proof (erase_range_checks s i j Hoff Hi Hj) as Hc. cbv zeta in Hc.
  unfold bind at 1 in Hc. unfold bind at 1.
  destruct (or_else _ _ s) as [b s0| |]; try discriminate.
  unfold ret in Hc. injection Hc as -> ->.
  unfold ptr_diff, begin. simpl. rewrite !base_eqb_refl.
  unfold bind at 1. unfold ret at 1. unfold bind at 1. unfold ret at 1.
  replace (off (arr_ (self s)) + i - off (arr_ (self s))) with i by lia.
  replace (off (arr_ (self s)) + j - off (arr_ (self s))) with j by lia.
  rewrite (wrap_small i) by lia. rewrite (wrap_small j) by lia.
  reflexivity.
Qed.


Lemma item_erased l i j k :
  0 <= i <= j -> j <= Z.of_nat (length l) -> 0 <= k ->
  item (take (Z.to_nat i) l ++ drop (Z.to_nat j) l) k =
    if k <? i then item l k else item l (k + (j - i)).
Proof.
  intros Hi Hj Hk. unfold item. destruct (Z.ltb_spec k i).
  - rewrite lookup_app_l by (rewrite length_take; lia). apply lookup_take_lt. lia.
  - rewrite lookup_app_r by (rewrite length_take; lia).
    rewrite length_take, lookup_drop. f_equal. lia.
Qed.

(** [erase(first, last)] for a range that is not empty, or is at the end:
    when it returns, the elements [i .. j) are gone, the others are in
    their order, and the block is the same. *)
Lemma erase_range_spec s l i j :
  owns (heap s) (self s) l ->
  0 <= i <= j -> j <= sz_ (self s) -> i < j \/ j = sz_ (self s) ->
  let v := self s in
  let run := erase_range (begin v +p i) (begin v +p j) s in
  (exists r s', run = Ok r s' /\
     self s' = Vector (arr_ v) (sz_ v - (j - i)) (cap_ v) /\
     owns (heap s') (self s') (take (Z.to_nat i) l ++ drop (Z.to_nat j) l)) \/
  ((forall r s', run <> Ok r s') /\ exists k, fails k = true).
Proof.
  intros Hown Hi Hj Hne v run. subst v run.
  rewrite (erase_range_unfold s l i j Hown Hi Hj). unfold erase_body.
  pose proof Hown as (Hsz & Hcap & Hblock). pose proof ptrdiff_max_eq as Hmax.
  destruct (destroy_range_state s l i j Hown ltac:(lia) Hj) as (s1 & Hr1 & Hs1).
  rewrite (bind_Ok _ _ _ _ _ Hr1).
  destruct (for_up_rule (fun m t => block_state s (closing l i j m) t)
              (fun _ _ _ => exists k, fails k = true) False
              (Z.to_nat (sz_ (self s) - j)) j
              (fun k => construct_moved (arr_ (self s) +p (i + (k - j))) (arr_ (self s) +p k) ;;
                        destroy (arr_ (self s) +p k)) rethrow s1)
    as [(s2 & Hr2 & Hs2) | [(m & e & t & _ & Hk & Hr2) | ([] & _)]].
  - eapply block_state_ext; [exact Hs1|].
    intros k Hk. unfold hole, closing. case_compare.
  - intros m t Hm Hbs.
    destruct (item_lt l m ltac:(lia)) as [y Hy].
    pose proof (relocate_within s _ t m (i + (m - j)) y Hbs ltac:(lia) ltac:(lia)) as Hstep.
    cbv zeta in Hstep.
    destruct ((construct_moved (arr_ (self s) +p (i + (m - j))) (arr_ (self s) +p m) ;;
               destroy (arr_ (self s) +p m)) t) as [[] t'| |].
    + eapply block_state_ext; [apply Hstep|].
      * unfold closing. rewrite <- Hy. case_compare.
      * intros k Hk. simpl. unfold closing. rewrite <- Hy. case_compare.
    + apply Hstep. unfold closing. rewrite <- Hy. case_compare.
    + apply Hstep. unfold closing. rewrite <- Hy. case_compare.
  - left. replace (j + Z.of_nat (Z.to_nat (sz_ (self s) - j))) with (sz_ (self s)) in Hs2 by lia.
    unfold for_range. rewrite (bind_Ok _ _ _ _ _ Hr2).
    destruct Hs2 as (Hself2 & Hlen2 & Hbl2 & Hframe2 & Hcells2).
    eexists _, _. split; [reflexivity|]. simpl. rewrite Hself2.
    rewrite (wrap_small (j - i)) by lia. rewrite wrap_small by lia.
    split; [reflexivity|].
    split; [simpl; rewrite length_app, length_take, length_drop; lia|].
    split; [simpl; lia|].
    destruct Hblock as [[Hnull Hc0] | (loc & Harr & Hbl & _)].
    + left. split; [exact Hnull | exact Hc0].
    + right. exists loc. simpl. split; [exact Harr|]. split; [rewrite Hbl2; exact Hbl|].
      intros k Hk. rewrite Hcells2 by exact Hk. rewrite item_erased by lia.
      unfold closing. case_compare; rewrite !item_ge by lia; reflexivity.
  - right. split; [|exact Hk]. intros r s'. unfold for_range.
    unfold rethrow, throw in Hr2. rewrite (bind_Throw _ _ _ _ _ Hr2). discriminate.
Qed.

(** C4 fails on the code for an empty range before the end: the second
    loop of [erase(first, last)] then constructs every element from
    [first] on over itself and destroys it, while [size()] still counts
    it; reading such an element is undefined. *)
Theorem erase_empty_range_destroys s l j :
  owns (heap s) (self s) l ->
  (forall k, fails k = false) ->
  0 <= j < size (self s) ->
  let v := self s in
  exists r s',
    erase_range (begin v +p j) (begin v +p j) s = Ok r s' /\
    size (self s') = size v /\
    capacity (self s') = capacity v /\
    (forall k, j <= k < size v -> slot (heap s') (begin v +p k) = Some None) /\
    contents s' = None /\
    subscript j s' = Fault (read_not_live (begin v +p j)).
Proof.
  intros Hown Hnofail Hj v. subst v. unfold size, capacity in *.
  rewrite (erase_range_unfold s l j j Hown ltac:(lia) ltac:(lia)).
  unfold erase_body, begin.
  pose proof Hown as (Hsz & Hcap & Hblock). pose proof ptrdiff_max_eq as Hmax.
  destruct (destroy_range_state s l j j Hown ltac:(lia) ltac:(lia)) as (s1 & Hr1 & Hs1).
  rewrite (bind_Ok _ _ _ _ _ Hr1).
  destruct (for_up_rule (fun m t => block_state s (hole l j m) t)
              (fun _ _ _ => exists k, fails k = true) False
              (Z.to_nat (sz_ (self s) - j)) j
              (fun k => construct_moved (arr_ (self s) +p (j + (k - j))) (arr_ (self s) +p k) ;;
                        destroy (arr_ (self s) +p k)) rethrow s1)
    as [(s2 & Hr2 & Hs2) | [(m & e & t & _ & (k & Hk) & _) | ([] & _)]].
  - exact Hs1.
  - intros m t Hm Hbs.
    destruct (item_lt l m ltac:(lia)) as [y Hy].
    pose proof (relocate_within s _ t m (j + (m - j)) y Hbs ltac:(lia) ltac:(lia)) as Hstep.
    cbv zeta in Hstep.
    destruct ((construct_moved (arr_ (self s) +p (j + (m - j))) (arr_ (self s) +p m) ;;
               destroy (arr_ (self s) +p m)) t) as [[] t'| |].
    + eapply block_state_ext; [apply Hstep|].
      * unfold hole. rewrite <- Hy. case_compare.
      * intros k Hk. simpl. unfold hole. case_compare.
    + apply Hstep. unfold hole. rewrite <- Hy. case_compare.
    + apply Hstep. unfold hole. rewrite <- Hy. case_compare.
  - replace (j + Z.of_nat (Z.to_nat (sz_ (self s) - j))) with (sz_ (self s)) in Hs2 by lia.
    unfold for_range. rewrite (bind_Ok _ _ _ _ _ Hr2).
    destruct Hs2 as (Hself2 & Hlen2 & Hbl2 & Hframe2 & Hcells2).
    assert (Hdead : forall k, j <= k < sz_ (self s) ->
              slot (heap s2) (arr_ (self s) +p k) = Some None).
    { intros k Hk. rewrite Hcells2 by lia. unfold hole. case_compare. }
    eexists _, _. split; [reflexivity|]. simpl. rewrite Hself2.
    rewrite Z.sub_diag. rewrite (wrap_small 0) by lia. rewrite wrap_small by lia.
    simpl. rewrite Z.sub_0_r.
    split; [reflexivity|]. split; [reflexivity|]. split; [exact Hdead|]. split.
    + unfold contents. simpl. apply mapM_None. apply Exists_exists.
      exists (Z.to_nat j). split.
      * apply elem_of_seq. lia.
      * rewrite Z2Nat.id by lia. rewrite Hdead by lia. reflexivity.
    + unfold subscript. rewrite bind_this. simpl.
      unfold read. simpl. rewrite Hdead by lia. reflexivity.
  - rewrite Hnofail in Hk. discriminate.
Qed.


(** ** Building the invariant for a given store *)

Lemma owns_intro h loc l (spare : nat) :
  h !! loc = Some (Some ((Some <$> l) ++ replicate spare None)) ->
  Z.of_nat (length l + spare) <= ptrdiff_max ->
  owns h (Vector (Ptr (Some loc) 0) (Z.of_nat (length l)) (Z.of_nat (length l + spare))) l.
Proof.
  intros Hb Hmax. split; [reflexivity|]. simpl. split; [lia|].
  right. exists loc. split; [reflexivity|]. split.
  - unfold block_len. rewrite Hb. rewrite length_app, length_fmap, length_replicate.
    reflexivity.
  - intros k Hk. unfold slot, ptr_add. simpl.
    destruct (0 <=? 0 + k) eqn:Hle; [|apply Z.leb_gt in Hle; lia].
    rewrite Hb. unfold item. replace (Z.to_nat (0 + k)) with (Z.to_nat k) by lia.
    destruct (decide (Z.to_nat k < length l)%nat) as [Hlt|Hge].
    + rewrite lookup_app_l by (rewrite length_fmap; exact Hlt).
      rewrite list_lookup_fmap. destruct (l !! Z.to_nat k) eqn:Hx; [reflexivity|].
      apply lookup_ge_None in Hx. lia.
    + rewrite lookup_app_r by (rewrite length_fmap; lia).
      rewrite lookup_replicate_2 by (rewrite length_fmap; lia).
      rewrite (lookup_ge_None_2 l) by lia. reflexivity.
Qed.

(** * Constructing elements in place *)

(** A loop whose round [j] constructs the value [val j] in the slot
    [c + j]: it fills the slots one after the other, or a constructor
    throws at some round and the handler runs with the earlier slots
    filled. *)
Lemma build_loop c lo n (val : Z -> option T) body handler s :
  (forall k, lo <= k < lo + Z.of_nat n -> exists c0, slot (heap s) (c +p k) = Some c0) ->
  (forall j t, lo <= j < lo + Z.of_nat n -> built c lo val s j t ->
     exists x, val j = Some x /\ body j t = construct (c +p j) x t) ->
  (exists s', for_up n lo body handler s = Ok tt s' /\
     built c lo val s (lo + Z.of_nat n) s') \/
  (exists j t, lo <= j < lo + Z.of_nat n /\ built c lo val s j t /\
     (exists k, fails k = true) /\
     for_up n lo body handler s = handler j element_error t).
Proof.
  intros Hslots Hbody.
  destruct (for_up_rule (built c lo val s)
              (fun j e t => e = element_error /\ (exists k, fails k = true) /\
                            built c lo val s j t) False
              n lo body handler s)
    as [(s' & Hr & Hs') | [(j & e & t & Hj & (-> & Hk & Hb) & Hr) | ([] & _)]].
  - unfold built. repeat split; try reflexivity. intros k Hk. lia.
  - intros j t Hj Hb. destruct (Hbody j t Hj Hb) as (x & Hx & ->).
    destruct Hb as (Hself & Hlen & Hbl & Hcells & Hframe).
    destruct (Hslots j Hj) as [c0 Hc0].
    assert (Hdst : slot (heap t) (c +p j) = Some c0).
    { rewrite Hframe; [exact Hc0|]. intros k Hk. apply ptr_add_ne. lia. }
    rewrite (construct_run _ _ _ _ Hdst).
    destruct (fails (calls t)) eqn:Hf.
    + split; [reflexivity|]. split; [eauto|]. repeat split; assumption.
    + split; [exact Hself|]. simpl.
      split; [rewrite length_store; exact Hlen|].
      split; [intros loc; rewrite block_len_store; apply Hbl|].
      split.
      * intros k Hk. destruct (decide (k = j)) as [->|Hne].
        -- rewrite Hx. eapply slot_store_eq. exact Hdst.
        -- rewrite slot_store_ne by (apply ptr_add_ne; lia). apply Hcells. lia.
      * intros p Hp. rewrite slot_store_ne.
        -- apply Hframe. intros k Hk. apply Hp. lia.
        -- intros Heq. apply (Hp j); [lia | symmetry; exact Heq].
  - left. exists s'. split; assumption.
  - right. exists j, t. split; [lia|]. split; [exact Hb|]. split; assumption.
Qed.

Lemma block_len_freed h l : block_len (<[l := None]> h) l = None.
Proof.
  unfold block_len. destruct (decide (l < length h)%nat) as [Hlt|Hge].
  - rewrite list_lookup_insert_eq by exact Hlt. reflexivity.
  - rewrite lookup_ge_None_2 by (rewrite length_insert; lia). reflexivity.
Qed.

Lemma block_len_beyond h l : (length h <= l)%nat -> block_len h l = None.
Proof. intros Hl. unfold block_len. rewrite lookup_ge_None_2 by exact Hl. reflexivity. Qed.

(** The handler of the constructors leaves nothing of the new block
    behind. *)
Lemma discard_new_releases loc newcap j e t :
  block_len (heap t) loc = Some newcap ->
  (forall k, 0 <= k < j -> exists x, slot (heap t) (Ptr (Some loc) 0 +p k) = Some (Some x)) ->
  exists t', discard_new (Ptr (Some loc) 0) newcap j e t = Throw e t' /\
    self t' = self t /\
    length (heap t') = length (heap t) /\
    block_len (heap t') loc = None /\
    (forall l, l <> loc -> block_len (heap t') l = block_len (heap t) l) /\
    (forall p, base p <> Some loc -> slot (heap t') p = slot (heap t) p).
Proof.
  intros Hbl Hlive. unfold discard_new.
  destruct (destroy_loop (Ptr (Some loc) 0) 0 j t Hlive)
    as (t1 & Hr & Hself & Hcalls & Hlen & Hbl1 & _ & Hframe).
  rewrite (bind_Ok _ _ _ _ _ Hr).
  assert (Hd : block_len (heap t1) loc = Some newcap) by (rewrite Hbl1; exact Hbl).
  rewrite (bind_Ok _ _ _ _ _ (deallocate_run _ _ _ Hd)).
  eexists. split; [reflexivity|]. simpl.
  split; [exact Hself|]. split; [rewrite length_insert; exact Hlen|].
  split; [apply block_len_freed|]. split.
  - intros l Hl. rewrite block_len_free_other by exact Hl. apply Hbl1.
  - intros p Hp. rewrite slot_free_other by exact Hp.
    apply Hframe. intros k _. apply ptr_base_ne. exact Hp.
Qed.

(** What the constructors and the copy assignment do first: allocate a
    block of [cap] slots and construct the elements [new] in it, one after
    the other.  Either the block then holds [new] and nothing else has
    changed, or the allocation or a constructor throws and the store is as
    before, the new block released. *)
Lemma new_block_run {A} s cap (new : list T) (body : ptr -> Z -> M unit) (rest : ptr -> M A) :
  Z.of_nat (length new) <= cap ->
  let loc := length (heap s) in
  let c := Ptr (Some loc) 0 in
  (forall j t x, item new j = Some x -> 0 <= j ->
     (forall p, base p <> Some loc -> slot (heap t) p = slot (heap s) p) ->
     body c j t = construct (c +p j) x t) ->
  let prog := (arr <- allocate cap ;;
               for_up (length new) 0 (body arr) (discard_new arr cap) ;;
               rest arr) in
  (cap <= ptrdiff_max /\
   exists s1, prog s = rest c s1 /\
     self s1 = self s /\
     owns (heap s1) (Vector c (Z.of_nat (length new)) cap) new /\
     length (heap s1) = S (length (heap s)) /\
     (forall p, base p <> Some loc -> slot (heap s1) p = slot (heap s) p) /\
     (forall l, l <> loc -> block_len (heap s1) l = block_len (heap s) l)) \/
  (exists e s1, prog s = Throw e s1 /\ untouched s s1 loc /\
     ((e = bad_alloc /\ ptrdiff_max < cap) \/
      (e = element_error /\ exists k, fails k = true))).
Proof.
  intros Hcap loc c Hbody prog. subst prog.
  destruct (Z_le_gt_dec cap ptrdiff_max) as [Hle|Hgt].
  2:{ right. exists bad_alloc, s.
      split; [apply bind_Throw, allocate_refuses; lia|]. split.
      - split; [reflexivity|]. split; [reflexivity|]. split; [reflexivity|].
        apply block_len_beyond. unfold loc. lia.
      - left. split; [reflexivity | lia]. }
  rewrite (bind_Ok _ _ _ _ _ (allocate_run cap s Hle)). fold loc. fold c.
  set (s0 := State (self s) (extend (heap s) cap) (calls s)).
  assert (Hold : forall p, base p <> Some loc -> slot (heap s0) p = slot (heap s) p).
  { intros p Hp. apply slot_extend_old. exact Hp. }
  assert (Hraw : forall k, 0 <= k < cap -> slot (heap s0) (c +p k) = Some None).
  { intros k Hk. apply slot_extend_new_add. exact Hk. }
  destruct (build_loop c 0 (length new) (item new) (body c) (discard_new c cap) s0)
    as [(s1 & Hr & Hs1) | (j & t & Hj & Hb & Hk & Hr)].
  - intros k Hk. exists None. apply Hraw. lia.
  - intros j t Hj (Hself & Hlen & Hbl & Hcells & Hframe).
    destruct (item_lt new j ltac:(lia)) as [x Hx]. exists x. split; [exact Hx|].
    apply Hbody; [exact Hx | lia |].
    intros p Hp. rewrite Hframe by (intros k _; apply ptr_base_ne; exact Hp).
    apply Hold. exact Hp.
  - left. split; [exact Hle|]. exists s1. rewrite (bind_Ok _ _ _ _ _ Hr).
    destruct Hs1 as (Hself & Hlen & Hbl & Hcells & Hframe).
    split; [reflexivity|]. split; [exact Hself|]. split.
    + split; [reflexivity|]. split; [simpl; lia|]. right. exists loc. simpl.
      split; [reflexivity|].
      split; [rewrite Hbl; apply block_len_extend_new; lia|].
      intros k Hk. fold c. destruct (Z_lt_ge_dec k (Z.of_nat (length new))) as [Hlt|Hge].
      * apply Hcells. lia.
      * rewrite Hframe by (intros k' Hk'; apply ptr_add_ne; lia).
        rewrite item_ge by lia. apply Hraw. exact Hk.
    + split; [rewrite Hlen; apply length_extend|]. split.
      * intros p Hp. rewrite Hframe by (intros k _; apply ptr_base_ne; exact Hp).
        apply Hold. exact Hp.
      * intros l Hl. rewrite Hbl. apply block_len_extend_old. exact Hl.
  - right. destruct Hb as (Hself & Hlen & Hbl & Hcells & Hframe).
    destruct (discard_new_releases loc cap j element_error t)
      as (t' & Hd & Hself' & Hlen' & Hnone & Hbl' & Hframe').
    { rewrite Hbl. apply block_len_extend_new. lia. }
    { intros k Hk'. fold c. rewrite Hcells by lia.
      destruct (item_lt new k ltac:(lia)) as [x Hx]. rewrite Hx. eauto. }
    exists element_error, t'. split.
    + apply bind_Throw. rewrite Hr. exact Hd.
    + split; [|right; split; [reflexivity | exact Hk]].
      split; [rewrite Hself', Hself; reflexivity|]. split; [|split; [|exact Hnone]].
      * intros p Hp. rewrite Hframe' by exact Hp.
        rewrite Hframe by (intros k _; apply ptr_base_ne; exact Hp).
        apply Hold. exact Hp.
      * intros l Hl. rewrite Hbl' by exact Hl. rewrite Hbl.
        apply block_len_extend_old. exact Hl.
Qed.

(** ** The constructors *)

Lemma item_replicate n (x : T) k : 0 <= k < Z.of_nat n -> item (replicate n x) k = Some x.
Proof. intros Hk. unfold item. apply lookup_replicate_2. lia. Qed.

Lemma vector_fill_run sz value s :
  0 <= sz ->
  let c := Ptr (Some (length (heap s))) 0 in
  (sz <= ptrdiff_max /\
   exists s1, vector_fill sz value s = Ok (Vector c sz sz) s1 /\
     self s1 = self s /\
     owns (heap s1) (Vector c sz sz) (replicate (Z.to_nat sz) value) /\
     length (heap s1) = S (length (heap s)) /\
     (forall p, base p <> base c -> slot (heap s1) p = slot (heap s) p) /\
     (forall l, l <> length (heap s) -> block_len (heap s1) l = block_len (heap s) l)) \/
  (exists e s1, vector_fill sz value s = Throw e s1 /\ untouched s s1 (length (heap s)) /\
     ((e = bad_alloc /\ ptrdiff_max < sz) \/
      (e = element_error /\ exists k, fails k = true))).
Proof.
  intros Hsz c.
  set (new := replicate (Z.to_nat sz) value).
  assert (Hlen : Z.of_nat (length new) = sz) by (unfold new; rewrite length_replicate; lia).
  assert (Hprog : vector_fill sz value s =
            (arr <- allocate sz ;;
             for_up (length new) 0 (fun index => construct (arr +p index) value)
               (discard_new arr sz) ;;
             ret (Vector arr sz sz)) s).
  { unfold vector_fill, new. rewrite length_replicate. reflexivity. }
  rewrite Hprog. clear Hprog.
  destruct (new_block_run s sz new (fun arr index => construct (arr +p index) value)
              (fun arr => ret (Vector arr sz sz)) ltac:(lia))
    as [(Hle & s1 & Hr & Hs1) | (e & s1 & Hr & Hs1)].
  - intros j t x Hx Hj _. unfold new in Hx.
    destruct (Z_lt_ge_dec j sz) as [Hlt|Hge].
    + rewrite item_replicate in Hx by lia. injection Hx as <-. reflexivity.
    + rewrite item_ge in Hx by (rewrite length_replicate; lia). discriminate.
  - left. split; [exact Hle|]. exists s1. cbv zeta in Hr. rewrite Hr.
    split; [reflexivity|]. rewrite Hlen in Hs1. exact Hs1.
  - right. exists e, s1. cbv zeta in Hr. rewrite Hr. split; [reflexivity | exact Hs1].
Qed.

Lemma vector_from_list_run init_list s :
  let n := Z.of_nat (length init_list) in
  let c := Ptr (Some (length (heap s))) 0 in
  (n <= ptrdiff_max /\
   exists s1, vector_from_list init_list s = Ok (Vector c n n) s1 /\
     self s1 = self s /\
     owns (heap s1) (Vector c n n) init_list /\
     length (heap s1) = S (length (heap s)) /\
     (forall p, base p <> base c -> slot (heap s1) p = slot (heap s) p) /\
     (forall l, l <> length (heap s) -> block_len (heap s1) l = block_len (heap s) l)) \/
  (exists e s1, vector_from_list init_list s = Throw e s1 /\
     untouched s s1 (length (heap s)) /\
     ((e = bad_alloc /\ ptrdiff_max < n) \/
      (e = element_error /\ exists k, fails k = true))).
Proof.
  intros n c. unfold vector_from_list. fold n.
  destruct (new_block_run s n init_list
              (fun arr index =>
                 match init_list !! Z.to_nat index with
                 | Some value => construct (arr +p index) value
                 | None => ret tt
                 end)
              (fun arr => ret (Vector arr n n)) ltac:(lia))
    as [(Hle & s1 & Hr & Hs1) | (e & s1 & Hr & Hs1)].
  - intros j t x Hx Hj _. unfold item in Hx. rewrite Hx. reflexivity.
  - left. split; [exact Hle|]. exists s1. cbv zeta in Hr. rewrite Hr.
    split; [reflexivity | exact Hs1].
  - right. exists e, s1. cbv zeta in Hr. rewrite Hr. split; [reflexivity | exact Hs1].
Qed.

Lemma vector_copy_run other lo s :
  owns (heap s) other lo ->
  let c := Ptr (Some (length (heap s))) 0 in
  let copy := Vector c (sz_ other) (cap_ other) in
  (exists s1, vector_copy other s = Ok copy s1 /\
     self s1 = self s /\
     owns (heap s1) copy lo /\
     length (heap s1) = S (length (heap s)) /\
     (forall p, base p <> base c -> slot (heap s1) p = slot (heap s) p) /\
     (forall l, l <> length (heap s) -> block_len (heap s1) l = block_len (heap s) l)) \/
  (exists e s1, vector_copy other s = Throw e s1 /\
     untouched s s1 (length (heap s)) /\
     e = element_error /\ exists k, fails k = true).
Proof.
  intros Hown c copy. subst copy. pose proof Hown as (Hsz & Hcap & _).
  assert (Hprog : vector_copy other s =
            (arr <- allocate (cap_ other) ;;
             for_up (length lo) 0
               (fun index => x <- read (arr_ other +p index) ;; construct (arr +p index) x)
               (discard_new arr (cap_ other)) ;;
             ret (Vector arr (sz_ other) (cap_ other))) s).
  { unfold vector_copy. rewrite Hsz, Nat2Z.id. reflexivity. }
  rewrite Hprog. clear Hprog.
  destruct (new_block_run s (cap_ other) lo
              (fun arr index => x <- read (arr_ other +p index) ;; construct (arr +p index) x)
              (fun arr => ret (Vector arr (sz_ other) (cap_ other))) ltac:(lia))
    as [(Hle & s1 & Hr & Hs1) | (e & s1 & Hr & Hs1 & Hwhy)].
  - intros j t x Hx Hj Hframe.
    assert (Hlt : j < Z.of_nat (length lo)).
    { destruct (Z_lt_ge_dec j (Z.of_nat (length lo))) as [|Hge]; [assumption|].
      rewrite item_ge in Hx by lia. discriminate. }
    assert (Hsrc : slot (heap t) (arr_ other +p j) = Some (Some x)).
    { rewrite Hframe by (simpl; apply (owns_fresh _ _ _ Hown)).
      rewrite (owns_live _ _ _ Hown) by lia. rewrite Hx. reflexivity. }
    rewrite (bind_Ok _ _ _ _ _ (read_run _ _ _ Hsrc)). reflexivity.
  - left. exists s1. cbv zeta in Hr. rewrite Hr.
    split; [reflexivity|]. rewrite <- Hsz in Hs1. exact Hs1.
  - right. exists e, s1. cbv zeta in Hr. rewrite Hr. split; [reflexivity|].
    split; [exact Hs1|]. destruct Hwhy as [[_ Hbig] | Hk]; [lia | exact Hk].
Qed.

(** X1: [vector(sz, value)] and [vector(sz)] (with [value] the
    value-initialised element).  When the constructor returns, the new
    container has size and capacity [sz], holds [sz] copies of [value] in a
    block of its own, and every other block is as before.  When it throws
    ([bad_alloc] from the allocator, or an element constructor), the new
    block is released and nothing else in the store has changed.  It never
    goes wrong, and it returns when the allocation succeeds and no
    constructor throws. *)
Theorem sized_constructors sz value s run :
  0 <= sz ->
  run = vector_fill sz value s \/ run = vector_sized value sz s ->
  (forall v s', run = Ok v s' ->
     size v = sz /\ capacity v = sz /\
     owns (heap s') v (replicate (Z.to_nat sz) value) /\
     self s' = self s /\
     (forall p, base p <> base (arr_ v) -> slot (heap s') p = slot (heap s) p)) /\
  (forall e s', run = Throw e s' -> untouched s s' (length (heap s))) /\
  (forall f, run <> Fault f) /\
  ((forall k, fails k = false) -> (exists p s0, allocate sz s = Ok p s0) ->
   exists v s', run = Ok v s').
Proof.
  intros Hsz Hrun.
  assert (Hfill : run = vector_fill sz value s) by (destruct Hrun as [-> | ->]; reflexivity).
  clear Hrun. subst run.
  destruct (vector_fill_run sz value s Hsz)
    as [(Hle & s1 & Hr & Hself & Hown & Hlen & Hframe & Hbl)
       | (e & s1 & Hr & Hsame & Hwhy)]; rewrite Hr.
  - split; [|split; [discriminate | split; [discriminate | eauto]]].
    intros v s' Heq. injection Heq as <- <-.
    split; [reflexivity|]. split; [reflexivity|]. split; [exact Hown|].
    split; assumption.
  - split; [discriminate|]. split; [|split; [discriminate|]].
    + intros e' s' Heq. injection Heq as <- <-. exact Hsame.
    + intros Hnofail (p & s0 & Hp). exfalso. apply allocate_granted in Hp.
      destruct Hwhy as [[_ Hbig] | (_ & k & Hk)]; [lia|].
      rewrite Hnofail in Hk. discriminate.
Qed.

(** X2: [vector(std::initializer_list<T>)].  When the constructor
    returns, size and capacity are the length of the list and the elements
    [begin() .. end()) yields are the list itself, in a block of their own;
    when it throws, the new block is released and nothing else in the store
    has changed.  It never goes wrong, and it returns when the allocation
    succeeds and no constructor throws. *)
Theorem initializer_list_constructor init_list s :
  let run := vector_from_list init_list s in
  (forall v s', run = Ok v s' ->
     size v = Z.of_nat (length init_list) /\
     capacity v = Z.of_nat (length init_list) /\
     contents (State v (heap s') (calls s')) = Some init_list /\
     owns (heap s') v init_list /\
     self s' = self s /\
     (forall p, base p <> base (arr_ v) -> slot (heap s') p = slot (heap s) p)) /\
  (forall e s', run = Throw e s' -> untouched s s' (length (heap s))) /\
  (forall f, run <> Fault f) /\
  ((forall k, fails k = false) ->
   (exists p s0, allocate (Z.of_nat (length init_list)) s = Ok p s0) ->
   exists v s', run = Ok v s').
Proof.
  intros run. subst run.
  destruct (vector_from_list_run init_list s)
    as [(Hle & s1 & Hr & Hself & Hown & Hlen & Hframe & Hbl)
       | (e & s1 & Hr & Hsame & Hwhy)]; cbv zeta in Hr; rewrite Hr.
  - split; [|split; [discriminate | split; [discriminate | eauto]]].
    intros v s' Heq. injection Heq as <- <-.
    split; [reflexivity|]. split; [reflexivity|].
    split; [apply (owns_contents (State _ _ _)); exact Hown|].
    split; [exact Hown|]. split; assumption.
  - split; [discriminate|]. split; [|split; [discriminate|]].
    + intros e' s' Heq. injection Heq as <- <-. exact Hsame.
    + intros Hnofail (p & s0 & Hp). exfalso. apply allocate_granted in Hp.
      destruct Hwhy as [[_ Hbig] | (_ & k & Hk)]; [lia|].
      rewrite Hnofail in Hk. discriminate.
Qed.

(** X3: the copy constructor.  When it returns, the copy holds the
    elements of [other] in a block of its own, its size is [other.size()]
    and its capacity is [other.capacity()] (not the size); [other] and
    every other block are as before.  When it throws, the new block is
    released and nothing else in the store has changed.  It never goes
    wrong, and it returns when the allocation succeeds and no constructor
    throws. *)
Theorem copy_constructor other lo s :
  owns (heap s) other lo ->
  let run := vector_copy other s in
  (forall v s', run = Ok v s' ->
     size v = size other /\ capacity v = capacity other /\
     owns (heap s') v lo /\
     owns (heap s') other lo /\
     base (arr_ v) <> base (arr_ other) /\
     self s' = self s /\
     (forall p, base p <> base (arr_ v) -> slot (heap s') p = slot (heap s) p)) /\
  (forall e s', run = Throw e s' -> untouched s s' (length (heap s))) /\
  (forall f, run <> Fault f) /\
  ((forall k, fails k = false) ->
   (exists p s0, allocate (capacity other) s = Ok p s0) ->
   exists v s', run = Ok v s').
Proof.
  intros Hother run. subst run.
  destruct (vector_copy_run other lo s Hother)
    as [(s1 & Hr & Hself & Hown & Hlen & Hframe & Hbl)
       | (e & s1 & Hr & Hsame & He & k & Hk)]; cbv zeta in Hr; rewrite Hr.
  - split; [|split; [discriminate | split; [discriminate | eauto]]].
    intros v s' Heq. injection Heq as <- <-.
    assert (Hfresh : Some (length (heap s)) <> base (arr_ other))
      by (apply not_eq_sym, (owns_fresh _ _ _ Hother)).
    split; [reflexivity|]. split; [reflexivity|]. split; [exact Hown|]. split.
    { apply (owns_transfer (heap s)); [exact Hother | |].
      - intros loc Hloc. apply Hbl. intros ->. apply Hfresh. symmetry. exact Hloc.
      - intros k _. apply Hframe. simpl. apply not_eq_sym. exact Hfresh. }
    split; [exact Hfresh|]. split; assumption.
  - split; [discriminate|]. split; [|split; [discriminate|]].
    + intros e' s' Heq. injection Heq as <- <-. exact Hsame.
    + intros Hnofail _. rewrite Hnofail in Hk. discriminate.
Qed.

(** ** Copy assignment *)

(** The invariant of a container whose block is untouched. *)
Lemma owns_kept h h' v l :
  owns h v l ->
  (forall loc, base (arr_ v) = Some loc ->
     block_len h' loc = block_len h loc /\
     forall p, base p = Some loc -> slot h' p = slot h p) ->
  owns h' v l.
Proof.
  intros Hown Hsame. apply (owns_transfer h); [exact Hown | |].
  - intros loc Hloc. apply (Hsame loc Hloc).
  - intros k Hk. destruct (base (arr_ v)) as [loc|] eqn:Hb.
    + apply (Hsame loc eq_refl). simpl. exact Hb.
    + destruct Hown as (_ & _ & [[_ Hc0] | (loc & Harr & _)]); [lia|].
      rewrite Harr in Hb. discriminate.
Qed.

Lemma copy_assign_run other lo l s :
  owns (heap s) (self s) l ->
  owns (heap s) other lo ->
  (forall loc, base (arr_ other) = Some loc -> base (arr_ (self s)) <> Some loc) ->
  let c := Ptr (Some (length (heap s))) 0 in
  (exists s', copy_assign other s = Ok tt s' /\
     self s' = Vector c (sz_ other) (cap_ other) /\
     owns (heap s') (self s') lo /\
     owns (heap s') other lo /\
     heap s' <> heap s /\
     (forall loc, base (arr_ (self s)) = Some loc -> block_len (heap s') loc = None) /\
     (forall p, base p <> base c -> base p <> base (arr_ (self s)) ->
        slot (heap s') p = slot (heap s) p)) \/
  (exists e s', copy_assign other s = Throw e s' /\
     self s' = self s /\
     owns (heap s') (self s) l /\
     owns (heap s') other lo /\
     untouched s s' (length (heap s)) /\
     e = element_error /\ exists k, fails k = true).
Proof.
  intros Hown Hother Hapart c.
  pose proof Hown as (Hsz & Hcap & Hblock). pose proof Hother as (Hszo & Hcapo & _).
  remember (self s) as v eqn:Hv.
  set (rest := fun newarr : ptr =>
         for_range 0 (sz_ v) (fun i => destroy (arr_ v +p i)) ;;
         deallocate (arr_ v) (cap_ v) ;;
         set_arr newarr ;;
         set_sz (sz_ other) ;;
         set_cap (cap_ other)).
  assert (Hprog : copy_assign other s =
            (arr <- allocate (cap_ other) ;;
             for_up (length lo) 0
               (fun index => x <- read (arr_ other +p index) ;; construct (arr +p index) x)
               (discard_new arr (cap_ other)) ;;
             rest arr) s).
  { unfold copy_assign. rewrite bind_this, <- Hv.
    replace (Z.to_nat (sz_ other)) with (length lo) by lia. reflexivity. }
  rewrite Hprog. clear Hprog.
  assert (Hfresh : base (arr_ v) <> Some (length (heap s))) by (apply (owns_fresh _ _ _ Hown)).
  assert (Hfresho : base (arr_ other) <> Some (length (heap s)))
    by (apply (owns_fresh _ _ _ Hother)).
  destruct (new_block_run s (cap_ other) lo
              (fun arr index => x <- read (arr_ other +p index) ;; construct (arr +p index) x)
              rest ltac:(lia))
    as [(Hle & s1 & Hr & Hself1 & Hown1 & Hlen1 & Hframe1 & Hbl1)
       | (e & s1 & Hr & Hsame & Hwhy)].
  - intros j t x Hx Hj Hframe.
    assert (Hlt : j < Z.of_nat (length lo)).
    { destruct (Z_lt_ge_dec j (Z.of_nat (length lo))) as [|Hge]; [assumption|].
      rewrite item_ge in Hx by lia. discriminate. }
    assert (Hsrc : slot (heap t) (arr_ other +p j) = Some (Some x)).
    { rewrite Hframe by (simpl; exact Hfresho).
      rewrite (owns_live _ _ _ Hother) by lia. rewrite Hx. reflexivity. }
    rewrite (bind_Ok _ _ _ _ _ (read_run _ _ _ Hsrc)). reflexivity.
  - (* the copies are made: the old elements and the old block go *)
    left. cbv zeta in Hr. rewrite Hr. unfold rest.
    assert (Hownv1 : owns (heap s1) v l).
    { apply (owns_kept (heap s)); [exact Hown|]. intros loc Hloc. split.
      - apply Hbl1. intros ->. apply Hfresh. exact Hloc.
      - intros p Hp. apply Hframe1. simpl. rewrite Hp. intros Heq. apply Hfresh.
        rewrite Hloc. exact Heq. }
    destruct (destroy_loop (arr_ v) 0 (sz_ v) s1)
      as (s2 & Hr2 & Hself2 & _ & Hlen2 & Hbl2 & _ & Hframe2).
    { intros k Hk. rewrite (owns_live _ _ _ Hownv1) by lia.
      destruct (item_lt l k ltac:(lia)) as [x Hx]. rewrite Hx. eauto. }
    rewrite (bind_Ok _ _ _ _ _ Hr2).
    rewrite (bind_Ok _ _ _ _ _ (deallocate_block (arr_ v) (cap_ v) s2 ltac:(
      destruct Hownv1 as (_ & _ & [[Hnull _] | (loc & Harr & Hbl & _)]);
      [left; exact Hnull | right; exists loc; split; [exact Harr|];
       rewrite Hbl2; exact Hbl]))).
    eexists. split; [reflexivity|]. simpl.
    split; [reflexivity|].
    assert (Hother2 : forall p, base p <> base (arr_ v) ->
              slot (release (arr_ v) (heap s2)) p = slot (heap s1) p).
    { intros p Hp. rewrite slot_release_other by exact Hp.
      apply Hframe2. intros k _. apply ptr_base_ne. exact Hp. }
    assert (Hbl3 : forall loc, Some loc <> base (arr_ v) ->
              block_len (release (arr_ v) (heap s2)) loc = block_len (heap s1) loc).
    { intros loc Hloc. rewrite block_len_release_other by exact Hloc. apply Hbl2. }
    split; [|split; [|split; [|split]]].
    + rewrite <- Hszo in Hown1.
      apply (owns_kept (heap s1)); [exact Hown1|]. simpl.
      intros loc Hloc. injection Hloc as <-. split.
      * apply Hbl3. apply not_eq_sym. exact Hfresh.
      * intros p Hp. apply Hother2. rewrite Hp. apply not_eq_sym. exact Hfresh.
    + apply (owns_kept (heap s)); [exact Hother|]. intros loc Hloc.
      assert (Hne : Some loc <> base (arr_ v)).
      { intros Heq. apply (Hapart loc Hloc). symmetry. exact Heq. }
      split.
      * rewrite Hbl3 by exact Hne. apply Hbl1. intros ->. apply Hfresho. exact Hloc.
      * intros p Hp. rewrite Hother2 by (rewrite Hp; exact Hne).
        apply Hframe1. simpl. rewrite Hp. intros Heq. apply Hfresho.
        rewrite Hloc. exact Heq.
    + intros Heq. apply (f_equal length) in Heq.
      rewrite length_release, Hlen2, Hlen1 in Heq. lia.
    + intros loc Hloc. unfold release. rewrite Hloc. apply block_len_freed.
    + intros p Hp1 Hp2. rewrite Hother2 by exact Hp2. apply Hframe1. exact Hp1.
  - right. exists e, s1. cbv zeta in Hr. split; [exact Hr|].
    destruct Hsame as (Hself1 & Hframe1 & Hbl1 & Hnone).
    split; [rewrite Hself1; symmetry; exact Hv|].
    split; [|split; [|split]].
    + apply (owns_kept (heap s)); [exact Hown|]. intros loc Hloc. split.
      * apply Hbl1. intros ->. apply Hfresh. exact Hloc.
      * intros p Hp. apply Hframe1. rewrite Hp. intros Heq. apply Hfresh.
        rewrite Hloc. exact Heq.
    + apply (owns_kept (heap s)); [exact Hother|]. intros loc Hloc. split.
      * apply Hbl1. intros ->. apply Hfresho. exact Hloc.
      * intros p Hp. apply Hframe1. rewrite Hp. intros Heq. apply Hfresho.
        rewrite Hloc. exact Heq.
    + repeat split; assumption.
    + destruct Hwhy as [[_ Hbig] | Hk]; [lia | exact Hk].
Qed.

(** X4: copy assignment from another container.  When it returns, the
    container holds the elements of [other] in a new block, with the size
    and the capacity of [other]; its old block is released and [other] is
    as before.  When it throws, the container still holds its own elements
    (the strong guarantee), the new block is released and nothing else in
    the store has changed.  It never goes wrong, and it returns when the
    allocation succeeds and no constructor throws. *)
Theorem copy_assignment other lo l s :
  owns (heap s) (self s) l ->
  owns (heap s) other lo ->
  (forall loc, base (arr_ other) = Some loc -> base (arr_ (self s)) <> Some loc) ->
  let run := copy_assign other s in
  (forall u s', run = Ok u s' ->
     contents s' = Some lo /\
     size (self s') = size other /\ capacity (self s') = capacity other /\
     owns (heap s') other lo /\
     base (arr_ (self s')) <> base (arr_ other) /\
     (forall loc, base (arr_ (self s)) = Some loc -> block_len (heap s') loc = None)) /\
  (forall e s', run = Throw e s' ->
     self s' = self s /\ contents s' = Some l /\ owns (heap s') other lo /\
     untouched s s' (length (heap s))) /\
  (forall f, run <> Fault f) /\
  ((forall k, fails k = false) ->
   (exists p s0, allocate (capacity other) s = Ok p s0) ->
   exists s', run = Ok tt s').
Proof.
  intros Hown Hother Hapart run. subst run.
  destruct (copy_assign_run other lo l s Hown Hother Hapart)
    as [(s1 & Hr & Hself & Hown1 & Hother1 & _ & Hfreed & _)
       | (e & s1 & Hr & Hself & Hown1 & Hother1 & Hsame & He & k & Hk)]; rewrite Hr.
  - split; [|split; [discriminate | split; [discriminate | eauto]]].
    intros u s' Heq. injection Heq as <- <-.
    split; [apply owns_contents; exact Hown1|]. rewrite Hself. simpl.
    split; [reflexivity|]. split; [reflexivity|]. split; [exact Hother1|].
    split; [|exact Hfreed].
    apply not_eq_sym. apply (owns_fresh _ _ _ Hother).
  - split; [discriminate|]. split; [|split; [discriminate|]].
    + intros e' s' Heq. injection Heq as <- <-. split; [exact Hself|].
      split; [|split; [exact Hother1 | exact Hsame]].
      apply owns_contents. rewrite Hself. exact Hown1.
    + intros Hnofail _. rewrite Hnofail in Hk. discriminate.
Qed.

(** ** [resize] *)

Lemma item_take (l : list T) n k :
  0 <= k -> 0 <= n -> item (take (Z.to_nat n) l) k = if k <? n then item l k else None.
Proof.
  intros Hk Hn. unfold item. destruct (Z.ltb_spec k n).
  - apply lookup_take_lt. lia.
  - apply lookup_take_ge. lia.
Qed.

(** Constructing copies of [value] in the unconstructed slots from
    [size()] up to [count], within the capacity: either all of them are
    made, or a constructor throws and the handler destroys the ones made,
    which leaves the elements as they were. *)
Lemma fill_in_place s l count value :
  owns (heap s) (self s) l ->
  sz_ (self s) <= count <= cap_ (self s) ->
  let v := self s in
  let loop :=
    for_up (Z.to_nat (count - sz_ v)) (sz_ v)
      (fun i => construct (arr_ v +p i) value)
      (fun i e => for_range (sz_ v) i (fun new_i => destroy (arr_ v +p new_i)) ;; throw e) in
  (exists s', loop s = Ok tt s' /\ self s' = v /\
     owns (heap s') (Vector (arr_ v) count (cap_ v))
          (l ++ replicate (Z.to_nat (count - sz_ v)) value) /\
     length (heap s') = length (heap s) /\
     (forall loc, block_len (heap s') loc = block_len (heap s) loc) /\
     (forall p, base p <> base (arr_ v) -> slot (heap s') p = slot (heap s) p)) \/
  (exists s', loop s = Throw element_error s' /\ self s' = v /\
     owns (heap s') v l /\
     length (heap s') = length (heap s) /\
     (forall loc, block_len (heap s') loc = block_len (heap s) loc) /\
     (forall p, base p <> base (arr_ v) -> slot (heap s') p = slot (heap s) p) /\
     exists k, fails k = true).
Proof.
  intros Hown Hcount. cbv zeta. remember (self s) as v eqn:Hv.
  pose proof Hown as (Hsz & Hcap & Hblock).
  destruct (build_loop (arr_ v) (sz_ v) (Z.to_nat (count - sz_ v)) (fun _ => Some value)
              (fun i => construct (arr_ v +p i) value)
              (fun i e => for_range (sz_ v) i (fun new_i => destroy (arr_ v +p new_i)) ;;
                          throw e) s)
    as [(s1 & Hr & Hs1) | (j & t & Hj & Hb & Hk & Hr)].
  - intros k Hk. exists None. apply (owns_raw _ _ _ Hown). lia.
  - intros j t _ _. exists value. split; reflexivity.
  - left. exists s1. split; [exact Hr|].
    replace (sz_ v + Z.of_nat (Z.to_nat (count - sz_ v))) with count in Hs1 by lia.
    destruct Hs1 as (Hself & Hlen & Hbl & Hcells & Hframe).
    split; [rewrite Hself; symmetry; exact Hv|].
    split; [|split; [exact Hlen | split; [exact Hbl|]]].
    + split; [simpl; rewrite length_app, length_replicate; lia|].
      split; [simpl; lia|].
      destruct Hblock as [[Hnull Hc0] | (loc & Harr & Hbl0 & Hcells0)];
        [left; simpl; split; assumption|].
      right. exists loc. simpl.
      split; [exact Harr|]. split; [rewrite Hbl; exact Hbl0|].
      intros k Hk. destruct (Z_lt_ge_dec k (sz_ v)) as [Hlt|Hge].
      * rewrite Hframe by (intros k' Hk'; apply ptr_add_ne; lia).
        rewrite item_app_l by lia. apply Hcells0. lia.
      * rewrite item_app_r by lia. destruct (Z_lt_ge_dec k count) as [Hlt2|Hge2].
        -- rewrite Hcells by lia. rewrite item_replicate by lia. reflexivity.
        -- rewrite Hframe by (intros k' Hk'; apply ptr_add_ne; lia).
           rewrite item_ge by (rewrite length_replicate; lia).
           rewrite Hcells0 by lia. rewrite item_ge by lia. reflexivity.
    + intros p Hp. apply Hframe. intros k _. apply ptr_base_ne. exact Hp.
  - right. destruct Hb as (Hself & Hlen & Hbl & Hcells & Hframe).
    destruct (destroy_loop (arr_ v) (sz_ v) j t)
      as (t' & Hr' & Hself' & _ & Hlen' & Hbl' & Hraw' & Hframe').
    { intros k Hk'. rewrite Hcells by lia. eauto. }
    exists t'. split.
    { rewrite Hr. rewrite (bind_Ok _ _ _ _ _ Hr'). reflexivity. }
    split; [rewrite Hself', Hself; symmetry; exact Hv|].
    split; [|split; [congruence | split; [|split; [|exact Hk]]]].
    + apply (owns_transfer (heap s)); [exact Hown | |].
      * intros loc _. rewrite Hbl'. apply Hbl.
      * intros k Hk'. destruct (decide (sz_ v <= k < j)) as [Hin|Hout].
        -- rewrite Hraw' by exact Hin. symmetry. apply (owns_raw _ _ _ Hown). lia.
        -- rewrite Hframe' by (intros k' Hk''; apply ptr_add_ne; lia).
           apply Hframe. intros k' Hk''. apply ptr_add_ne. lia.
    + intros loc. rewrite Hbl'. apply Hbl.
    + intros p Hp. rewrite Hframe' by (intros k _; apply ptr_base_ne; exact Hp).
      apply Hframe. intros k _. apply ptr_base_ne. exact Hp.
Qed.

Lemma preserved_step s s1 s' v :
  preserved s s1 v ->
  length (heap s') = length (heap s1) ->
  (forall loc, block_len (heap s') loc = block_len (heap s1) loc) ->
  (forall p, base p <> base (arr_ (self s1)) -> slot (heap s') p = slot (heap s1) p) ->
  arr_ (self s1) = arr_ v \/ arr_ (self s1) = Ptr (Some (length (heap s))) 0 ->
  preserved s s' v.
Proof.
  intros (Hlen & Hbl & Hslots) Hlen' Hbl' Hslots' Hwhich.
  split; [lia|]. split.
  - intros loc Hloc Hne. rewrite Hbl'. apply Hbl; assumption.
  - intros p loc Hp Hloc Hne. rewrite Hslots'; [eapply Hslots; eassumption|].
    destruct Hwhich as [-> | ->]; [exact Hne|].
    rewrite Hp. simpl. intros Heq. injection Heq. lia.
Qed.

(** The first step of a growing [resize]: [reserve(count)] when the
    capacity is too small. *)
Lemma resize_room count s l :
  owns (heap s) (self s) l ->
  sz_ (self s) < count ->
  let v := self s in
  let step := if count >? cap_ v then reserve count else ret tt in
  (exists s1, step s = Ok tt s1 /\
     owns (heap s1) (self s1) l /\
     sz_ (self s1) = sz_ v /\
     cap_ (self s1) = Z.max (cap_ v) count /\
     (count <= cap_ v -> arr_ (self s1) = arr_ v) /\
     (arr_ (self s1) = arr_ v \/ arr_ (self s1) = Ptr (Some (length (heap s))) 0) /\
     preserved s s1 v) \/
  (exists e s1, step s = Throw e s1 /\
     self s1 = v /\
     (nothrow_move = true \/ copyable = true -> owns (heap s1) v l) /\
     preserved s s1 v /\
     cap_ v < count /\
     ((e = bad_alloc /\ ptrdiff_max < count) \/
      (e = element_error /\ exists k, fails k = true))).
Proof.
  intros Hown Hgrow. cbv zeta. pose proof Hown as (Hsz & Hcap & _).
  destruct (count >? cap_ (self s)) eqn:Hbig.
  - apply Z.gtb_lt in Hbig.
    destruct (reserve_spec count s l ltac:(lia) Hown)
      as [(Hnc & s1 & Hr & Hself & Hown1 & Hpres)
         | [(e & s1 & Hr & Hself & Hown1 & Hpres & Hwhy) | (Hlt & _)]].
    + left. exists s1. split; [exact Hr|]. split; [exact Hown1|].
      rewrite Hself. simpl.
      split; [reflexivity|]. split; [lia|]. split; [lia|]. split; [right; reflexivity|].
      exact Hpres.
    + right. exists e, s1. split; [exact Hr|]. split; [exact Hself|].
      split; [exact Hown1|]. split; [exact Hpres|]. split; [exact Hbig|].
      destruct Hwhy as [Hb | (He & _ & Hk)]; [left; exact Hb | right; split; assumption].
    + lia.
  - rewrite Z.gtb_ltb in Hbig. apply Z.ltb_ge in Hbig.
    left. exists s. split; [reflexivity|]. split; [exact Hown|].
    split; [reflexivity|]. split; [lia|]. split; [reflexivity|]. split; [left; reflexivity|].
    apply preserved_refl.
Qed.

Lemma resize_spec count value s l :
  owns (heap s) (self s) l ->
  0 <= count ->
  let v := self s in
  let new := take (Z.to_nat count) l ++ replicate (Z.to_nat (count - sz_ v)) value in
  (exists s', resize count value s = Ok tt s' /\
     owns (heap s') (self s') new /\
     sz_ (self s') = count /\
     cap_ (self s') = Z.max (cap_ v) count /\
     (count <= cap_ v -> arr_ (self s') = arr_ v) /\
     preserved s s' v) \/
  (exists e s', resize count value s = Throw e s' /\
     (nothrow_move = true \/ copyable = true \/ count <= cap_ v ->
      owns (heap s') (self s') l) /\
     sz_ v < count /\
     sz_ (self s') = sz_ v /\
     (count <= cap_ v -> self s' = v) /\
     preserved s s' v /\
     ((e = bad_alloc /\ ptrdiff_max < count /\ cap_ v < count) \/
      (e = element_error /\ exists k, fails k = true))).
Proof.
  intros Hown Hcount. cbv zeta. unfold resize. rewrite bind_this.
  pose proof Hown as (Hsz & Hcap & Hblock).
  destruct (sz_ (self s) >? count) eqn:Hshrink.
  - (* fewer elements *)
    apply Z.gtb_lt in Hshrink. left.
    destruct (destroy_range_state s l count (sz_ (self s)) Hown Hcount ltac:(lia))
      as (s1 & Hr1 & Hs1).
    rewrite (bind_Ok _ _ _ _ _ Hr1).
    destruct Hs1 as (Hself1 & Hlen1 & Hbl1 & Hframe1 & Hcells1).
    eexists. split; [reflexivity|]. simpl. rewrite Hself1.
    replace (Z.to_nat (count - sz_ (self s))) with 0%nat by lia. simpl. rewrite app_nil_r.
    split; [|split; [reflexivity | split; [simpl; lia | split; [reflexivity|]]]].
    + split; [simpl; rewrite length_take; lia|]. split; [simpl; lia|].
      destruct Hblock as [[Hnull Hc0] | (loc & Harr & Hbl & _)]; [lia|].
      right. exists loc. simpl. split; [exact Harr|]. split; [rewrite Hbl1; exact Hbl|].
      intros k Hk. rewrite Hcells1 by exact Hk. rewrite item_take by lia.
      unfold hole. case_compare. rewrite item_ge by lia. reflexivity.
    + split; [simpl; lia|]. split.
      * intros loc _ _. apply Hbl1.
      * intros p loc _ _ Hne. apply Hframe1. exact Hne.
  - rewrite Z.gtb_ltb in Hshrink. apply Z.ltb_ge in Hshrink.
    destruct (sz_ (self s) <? count) eqn:Hgrow.
    + (* more elements *)
      apply Z.ltb_lt in Hgrow.
      rewrite take_ge by lia.
      destruct (resize_room count s l Hown Hgrow)
        as [(s1 & Hr1 & Hown1 & Hsz1 & Hcap1 & Hsame1 & Hwhich1 & Hpres1)
           | (e & s1 & Hr1 & Hself1 & Hown1 & Hpres1 & Hbig1 & Hwhy)]; cbv zeta in Hr1.
      2:{ right. exists e, s1.
          split; [apply bind_Throw; apply bind_Throw; exact Hr1|].
          rewrite Hself1.
          split; [intros [Hmv | [Hcp | Hfit]]; [apply Hown1; left; exact Hmv
                                              | apply Hown1; right; exact Hcp | lia]|].
          split; [exact Hgrow|]. split; [reflexivity|].
          split; [reflexivity|]. split; [exact Hpres1|].
          destruct Hwhy as [[He Hmax] | Hk]; [left; repeat split; assumption | right; exact Hk]. }
      set (loop := fun v : vector =>
             for_up (Z.to_nat (count - sz_ v)) (sz_ v)
               (fun i => construct (arr_ v +p i) value)
               (fun i e =>
                  for_range (sz_ v) i (fun new_i => destroy (arr_ v +p new_i)) ;;
                  throw e)).
      assert (Hprog : (((if count >? cap_ (self s) then reserve count else ret tt) ;;
                        bind this loop) ;; set_sz count) s =
                      (loop (self s1) ;; set_sz count) s1).
      { unfold bind at 1 2. rewrite Hr1. reflexivity. }
      rewrite Hprog. clear Hprog.
      destruct (fill_in_place s1 l count value Hown1 ltac:(lia))
        as [(s2 & Hr2 & Hself2 & Hown2 & Hlen2 & Hbl2 & Hframe2)
           | (s2 & Hr2 & Hself2 & Hown2 & Hlen2 & Hbl2 & Hframe2 & Hk)];
        cbv zeta in Hr2; fold (loop (self s1)) in Hr2.
      * left. rewrite (bind_Ok _ _ _ _ _ Hr2). eexists. split; [reflexivity|].
        simpl. rewrite Hself2. rewrite Hsz1 in Hown2.
        split; [exact Hown2|]. split; [reflexivity|]. split; [exact Hcap1|].
        split; [exact Hsame1|].
        apply (preserved_step s s1 _ (self s) Hpres1); assumption.
      * right. exists element_error, s2.
        split; [apply bind_Throw; exact Hr2|]. rewrite Hself2.
        split; [intros _; exact Hown2|]. split; [exact Hgrow|]. split; [exact Hsz1|]. split.
        { intros Hfit.
          destruct (count >? cap_ (self s)) eqn:Hbig; [apply Z.gtb_lt in Hbig; lia|].
          unfold ret in Hr1. injection Hr1 as <-. reflexivity. }
        split; [|right; split; [reflexivity | exact Hk]].
        apply (preserved_step s s1 _ (self s) Hpres1); assumption.
    + (* the same number *)
      apply Z.ltb_ge in Hgrow. left. eexists. split; [reflexivity|]. simpl.
      assert (Heq : count = sz_ (self s)) by lia. subst count.
      rewrite take_ge by lia. rewrite Z.sub_diag. simpl. rewrite app_nil_r.
      split; [|split; [reflexivity | split; [lia | split; [reflexivity|]]]].
      * destruct (self s) as [a z c]. exact Hown.
      * apply preserved_same. reflexivity.
Qed.

(** X5: [resize(count, value)] for a [value] that is not a reference to
    an element of the container.  When it returns, the container holds
    its first [count] elements followed by as many copies of [value] as
    were missing, its size is [count], and its capacity is the larger of
    the old capacity and [count] (a growing [resize] reserves exactly
    [count] slots).  When it throws, which only a growing call can, the
    container still has its old size, and its block and capacity are the
    old ones if [count] was within the capacity; it still has its old
    elements then, and in every case if T's move constructor cannot throw
    or T can be copied.  It never goes wrong.  It returns when no
    constructor throws and the allocation of the [count] slots, made when
    [count] exceeds the capacity, succeeds. *)
Theorem resize_to_count count value s l :
  owns (heap s) (self s) l ->
  0 <= count ->
  let run := resize count value s in
  (forall u s', run = Ok u s' ->
     contents s' =
       Some (take (Z.to_nat count) l ++
             replicate (Z.to_nat (count - size (self s))) value) /\
     size (self s') = count /\
     capacity (self s') = Z.max (capacity (self s)) count /\
     (count <= capacity (self s) -> begin (self s') = begin (self s)) /\
     preserved s s' (self s)) /\
  (forall e s', run = Throw e s' ->
     size (self s) < count /\
     size (self s') = size (self s) /\
     (count <= capacity (self s) -> self s' = self s) /\
     (nothrow_move = true \/ copyable = true \/ count <= capacity (self s) ->
      contents s' = Some l) /\
     preserved s s' (self s)) /\
  (forall f, run <> Fault f) /\
  ((forall k, fails k = false) ->
   (capacity (self s) < count -> exists p s0, allocate count s = Ok p s0) ->
   exists s', run = Ok tt s').
Proof.
  intros Hown Hcount run. subst run. unfold size, capacity, begin.
  destruct (resize_spec count value s l Hown Hcount)
    as [(s1 & Hr & Hown1 & Hsz1 & Hcap1 & Hsame1 & Hpres1)
       | (e & s1 & Hr & Hown1 & Hgrow & Hsz1 & Hsame1 & Hpres1 & Hwhy)];
    cbv zeta in Hown1; rewrite Hr.
  - split; [|split; [discriminate | split; [discriminate | eauto]]].
    intros u s' Heq. injection Heq as <- <-.
    split; [apply owns_contents; exact Hown1|].
    split; [exact Hsz1|]. split; [exact Hcap1|]. split; assumption.
  - split; [discriminate|]. split; [|split; [discriminate|]].
    + intros e' s' Heq. injection Heq as <- <-.
      split; [exact Hgrow|]. split; [exact Hsz1|]. split; [exact Hsame1|].
      split; [|exact Hpres1].
      intros Hsafe. apply owns_contents. apply Hown1. exact Hsafe.
    + intros Hnofail Halloc. exfalso.
      destruct Hwhy as [(_ & Hbig & Hneed) | (_ & k & Hk)].
      * destruct (Halloc Hneed) as (p & s0 & Hp).
        apply allocate_granted in Hp. lia.
      * rewrite Hnofail in Hk. discriminate.
Qed.

(** ** [assign] *)

Lemma bind_assoc {A B C} (m : M A) (k : A -> M B) (k' : B -> M C) s :
  bind (bind m k) k' s = bind m (fun a => bind (k a) k') s.
Proof. unfold bind. destruct (m s); reflexivity. Qed.

Lemma owns_null_nil h v l : owns h v l -> arr_ v = nullptr -> l = [].
Proof.
  intros (Hsz & Hcap & [[_ Hc0] | (loc & Harr & _)]) Hnull.
  - destruct l; [reflexivity | simpl in Hsz; lia].
  - rewrite Harr in Hnull. discriminate.
Qed.

Lemma ptr_eqb_null_false v :
  arr_ v <> nullptr -> negb (ptr_eqb (arr_ v) nullptr) = true.
Proof.
  intros Hne. destruct (ptr_eqb (arr_ v) nullptr) eqn:He; [|reflexivity].
  apply ptr_eqb_eq in He. contradiction.
Qed.

Lemma assign_spec count value s l :
  owns (heap s) (self s) l ->
  0 <= count ->
  let v := self s in
  (exists s', assign count value s = Ok tt s' /\
     owns (heap s') (self s') (replicate (Z.to_nat count) value) /\
     sz_ (self s') = count /\
     cap_ (self s') = Z.max (cap_ v) count /\
     (count <= cap_ v -> arr_ (self s') = arr_ v) /\
     preserved s s' v) \/
  (exists e s', assign count value s = Throw e s' /\
     cap_ v < count /\
     self s' = v /\ owns (heap s') v l /\ preserved s s' v /\
     ((e = bad_alloc /\ ptrdiff_max < count) \/
      (e = element_error /\ exists k, fails k = true))) \/
  (exists s', assign count value s = Throw element_error s' /\
     0 < count <= cap_ v /\
     self s' = Vector (arr_ v) 0 (cap_ v) /\
     owns (heap s') (self s') [] /\ preserved s s' v /\
     exists k, fails k = true).
Proof.
  intros Hown Hcount. cbv zeta. unfold assign. rewrite bind_this.
  pose proof Hown as (Hsz & Hcap & Hblock).
  destruct (count <=? 0) eqn:Hzero.
  - (* nothing to assign *)
    apply Z.leb_le in Hzero. assert (count = 0) as -> by lia. left.
    destruct (clear_spec s l Hown) as (s1 & Hr1 & Hself1 & Hown1 & Hlen1 & Hbl1 & Hframe1).
    destruct (ptr_eqb (arr_ (self s)) nullptr) eqn:Hnull; simpl.
    + apply ptr_eqb_eq in Hnull. exists s. split; [reflexivity|].
      pose proof (owns_null_nil _ _ _ Hown Hnull) as ->. simpl in Hsz.
      split; [exact Hown|]. split; [exact Hsz|]. split; [lia|]. split; [reflexivity|].
      apply preserved_refl.
    + exists s1. split; [exact Hr1|]. split; [exact Hown1|]. rewrite Hself1. simpl.
      split; [reflexivity|]. split; [lia|]. split; [reflexivity|].
      split; [lia|]. split.
      * intros loc _ _. apply Hbl1.
      * intros p loc _ _ Hne. apply Hframe1. exact Hne.
  - apply Z.leb_gt in Hzero.
    destruct (count >? cap_ (self s)) eqn:Hbig.
    + (* a new block *)
      apply Z.gtb_lt in Hbig. rewrite bind_assoc.
      destruct (Z_le_gt_dec count ptrdiff_max) as [Hle|Hgt].
      2:{ right; left. exists bad_alloc, s.
          split; [apply bind_Throw, allocate_refuses; lia|].
          split; [exact Hbig|]. split; [reflexivity|]. split; [exact Hown|].
          split; [apply preserved_refl|]. left. split; [reflexivity | lia]. }
      rewrite (bind_Ok _ _ _ _ _ (allocate_run count s Hle)).
      remember (length (heap s)) as newloc eqn:Hnl.
      set (c := Ptr (Some newloc) 0).
      set (s0 := State (self s) (extend (heap s) count) (calls s)).
      assert (Hfresh : base (arr_ (self s)) <> Some newloc)
        by (rewrite Hnl; apply (owns_fresh _ _ _ Hown)).
      assert (Hold : forall p, base p <> Some newloc -> slot (heap s0) p = slot (heap s) p).
      { intros p Hp. apply slot_extend_old. rewrite <- Hnl. exact Hp. }
      assert (Hblold : forall loc, loc <> newloc ->
                block_len (heap s0) loc = block_len (heap s) loc).
      { intros loc Hloc. apply block_len_extend_old. rewrite <- Hnl. exact Hloc. }
      assert (Hblnew : block_len (heap s0) newloc = Some count).
      { rewrite Hnl. apply block_len_extend_new. lia. }
      rewrite bind_assoc.
      destruct (build_loop c 0 (Z.to_nat count) (fun _ => Some value)
                  (fun i => construct (c +p i) value)
                  (fun _ e => deallocate c count ;; throw e) s0)
        as [(s1 & Hr1 & Hs1) | (j & t & Hj & Hb & Hk & Hr1)].
      * intros k Hk. exists None. unfold c, s0. simpl. rewrite Hnl.
        apply slot_extend_new_add. lia.
      * intros j t _ _. exists value. split; reflexivity.
      * (* the copies are made: the old elements and the old block go *)
        left. rewrite (bind_Ok _ _ _ _ _ Hr1). rewrite bind_assoc.
        replace (0 + Z.of_nat (Z.to_nat count)) with count in Hs1 by lia.
        destruct Hs1 as (Hself1 & Hlen1 & Hbl1 & Hcells1 & Hframe1).
        unfold s0 in Hself1. simpl in Hself1.
        assert (Hown1 : owns (heap s1) (self s1) l).
        { rewrite Hself1. apply (owns_kept (heap s)); [exact Hown|].
          intros loc Hloc. split.
          - rewrite Hbl1. apply Hblold. intros ->. apply Hfresh. exact Hloc.
          - intros p Hp. assert (Hpn : base p <> Some newloc).
            { rewrite Hp. intros Heq. apply Hfresh. simpl. rewrite Hloc. exact Heq. }
            rewrite Hframe1 by (intros k _; apply ptr_base_ne; exact Hpn).
            apply Hold. exact Hpn. }
        assert (Hfree : exists s2,
                  (if negb (ptr_eqb (arr_ (self s)) nullptr)
                   then clear ;; deallocate (arr_ (self s)) (cap_ (self s))
                   else ret tt) s1 = Ok tt s2 /\
                  length (heap s2) = length (heap s1) /\
                  (forall loc, Some loc <> base (arr_ (self s)) ->
                     block_len (heap s2) loc = block_len (heap s1) loc) /\
                  (forall p, base p <> base (arr_ (self s)) ->
                     slot (heap s2) p = slot (heap s1) p)).
        { destruct (ptr_eqb (arr_ (self s)) nullptr) eqn:Hnull; simpl.
          - exists s1. repeat split; reflexivity.
          - destruct (clear_spec s1 l Hown1)
              as (s2 & Hr2 & Hself2 & Hown2 & Hlen2 & Hbl2 & Hframe2).
            rewrite (bind_Ok _ _ _ _ _ Hr2).
            rewrite (deallocate_block (arr_ (self s)) (cap_ (self s)) s2 ltac:(
              destruct Hblock as [[Hn _] | (loc & Harr & Hbl & _)];
              [left; exact Hn | right; exists loc; split; [exact Harr|];
               rewrite Hbl2, Hbl1, Hblold;
               [exact Hbl | intros ->; apply Hfresh; rewrite Harr; reflexivity]])).
            eexists. split; [reflexivity|]. simpl.
            split; [rewrite length_release; exact Hlen2|]. split.
            + intros loc Hloc. rewrite block_len_release_other by exact Hloc. apply Hbl2.
            + intros p Hp. rewrite slot_release_other by exact Hp.
              apply Hframe2. rewrite Hself1. exact Hp. }
        destruct Hfree as (s2 & Hr2 & Hlen2 & Hbl2 & Hframe2).
        rewrite (bind_Ok _ _ _ _ _ Hr2).
        eexists. split; [reflexivity|]. simpl.
        split; [|split; [reflexivity | split; [lia | split; [lia|]]]].
        -- split; [simpl; rewrite length_replicate; lia|]. split; [simpl; lia|].
           right. exists newloc. simpl. split; [reflexivity|].
           split; [rewrite Hbl2 by (apply not_eq_sym; exact Hfresh);
                   rewrite Hbl1; exact Hblnew|].
           intros k Hk. fold c.
           rewrite Hframe2 by (simpl; apply not_eq_sym; exact Hfresh).
           rewrite Hcells1 by lia. rewrite item_replicate by lia. reflexivity.
        -- split; [simpl; rewrite Hlen2, Hlen1; unfold s0; simpl; rewrite length_extend; lia|].
           split.
           ++ intros loc Hloc Hne. simpl. rewrite Hbl2 by exact Hne. rewrite Hbl1.
              apply Hblold. lia.
           ++ intros p loc Hp Hloc Hne. simpl. rewrite Hframe2 by exact Hne.
              assert (Hpn : base p <> Some newloc).
              { rewrite Hp. intros Heq. injection Heq. lia. }
              rewrite Hframe1 by (intros k _; apply ptr_base_ne; exact Hpn).
              apply Hold. exact Hpn.
      * (* a copy throws: the new block is released *)
        right; left. rewrite (bind_Throw _ _ _ element_error
                                (State (self t) (<[newloc := None]> (heap t)) (calls t))).
        2:{ rewrite Hr1. destruct Hb as (_ & _ & Hbl1 & _).
            rewrite (bind_Ok _ _ _ _ _ (deallocate_run newloc count t
                       ltac:(rewrite Hbl1; exact Hblnew))).
            reflexivity. }
        destruct Hb as (Hself1 & Hlen1 & Hbl1 & Hcells1 & Hframe1).
        unfold s0 in Hself1. simpl in Hself1.
        eexists _, _. split; [reflexivity|]. simpl.
        split; [exact Hbig|]. split; [exact Hself1|].
        assert (Hsame : forall p, base p <> Some newloc ->
                  slot (<[newloc := None]> (heap t)) p = slot (heap s) p).
        { intros p Hp. rewrite slot_free_other by exact Hp.
          rewrite Hframe1 by (intros k _; apply ptr_base_ne; exact Hp).
          apply Hold. exact Hp. }
        assert (Hblsame : forall loc, loc <> newloc ->
                  block_len (<[newloc := None]> (heap t)) loc = block_len (heap s) loc).
        { intros loc Hloc. rewrite block_len_free_other by exact Hloc.
          rewrite Hbl1. apply Hblold. exact Hloc. }
        split; [|split; [|right; split; [reflexivity | exact Hk]]].
        -- apply (owns_kept (heap s)); [exact Hown|]. intros loc Hloc. split.
           ++ apply Hblsame. intros ->. apply Hfresh. exact Hloc.
           ++ intros p Hp. apply Hsame. rewrite Hp. intros Heq. apply Hfresh.
              rewrite Hloc. exact Heq.
        -- split; [simpl; rewrite length_insert, Hlen1; unfold s0; simpl;
                   rewrite length_extend; lia|].
           split.
           ++ intros loc Hloc _. simpl. apply Hblsame. lia.
           ++ intros p loc Hp Hloc _. simpl. apply Hsame. rewrite Hp.
              intros Heq. injection Heq. lia.
    + (* the block is large enough *)
      rewrite Z.gtb_ltb in Hbig. apply Z.ltb_ge in Hbig. rewrite bind_assoc.
      destruct (clear_spec s l Hown) as (s1 & Hr1 & Hself1 & Hown1 & Hlen1 & Hbl1 & Hframe1).
      rewrite (bind_Ok _ _ _ _ _ Hr1).
      pose proof (fill_in_place s1 [] count value Hown1
                    ltac:(rewrite Hself1; simpl; lia)) as Hfill.
      cbv zeta in Hfill. rewrite Hself1 in Hfill. simpl in Hfill.
      rewrite Z.sub_0_r in Hfill.
      assert (Hpres : forall s2, length (heap s2) = length (heap s1) ->
                (forall loc, block_len (heap s2) loc = block_len (heap s1) loc) ->
                (forall p, base p <> base (arr_ (self s)) ->
                   slot (heap s2) p = slot (heap s1) p) ->
                preserved s s2 (self s)).
      { intros s2 Hlen2 Hbl2 Hframe2. split; [lia|]. split.
        - intros loc _ _. rewrite Hbl2. apply Hbl1.
        - intros p loc _ _ Hne. rewrite Hframe2 by exact Hne. apply Hframe1. exact Hne. }
      destruct Hfill as [(s2 & Hr2 & Hself2 & Hown2 & Hlen2 & Hbl2 & Hframe2)
                        | (s2 & Hr2 & Hself2 & Hown2 & Hlen2 & Hbl2 & Hframe2 & Hk)].
      * left. rewrite (bind_Ok _ _ _ _ _ Hr2). eexists. split; [reflexivity|]. simpl.
        rewrite Hself2. simpl.
        split; [exact Hown2|]. split; [reflexivity|]. split; [lia|].
        split; [reflexivity|]. apply Hpres; assumption.
      * right; right. exists s2. split; [apply bind_Throw; exact Hr2|].
        split; [lia|]. split; [exact Hself2|]. rewrite Hself2.
        split; [exact Hown2|]. split; [apply Hpres; assumption | exact Hk].
Qed.

(** X6: [assign(count, value)] for a [value] that is not a reference to
    an element of the container.  When it returns, the container holds
    [count] copies of [value]; the capacity is the larger of the old
    capacity and [count], and the block is kept when [count] fits.  When
    it throws while building a larger block, the container is as it was.
    When a constructor throws while the copies are built in place, the
    container is left empty, with its block and capacity: the old elements
    are gone.  It never goes wrong.  It returns when no constructor throws
    and the allocation of the [count] slots, made when [count] exceeds the
    capacity, succeeds. *)
Theorem assign_count_copies count value s l :
  owns (heap s) (self s) l ->
  0 <= count ->
  let run := assign count value s in
  (forall u s', run = Ok u s' ->
     contents s' = Some (replicate (Z.to_nat count) value) /\
     size (self s') = count /\
     capacity (self s') = Z.max (capacity (self s)) count /\
     (count <= capacity (self s) -> begin (self s') = begin (self s)) /\
     preserved s s' (self s)) /\
  (forall e s', run = Throw e s' ->
     (capacity (self s) < count /\ self s' = self s /\ contents s' = Some l) \/
     (0 < count <= capacity (self s) /\ e = element_error /\
      contents s' = Some [] /\ size (self s') = 0 /\
      capacity (self s') = capacity (self s) /\ begin (self s') = begin (self s))) /\
  (forall f, run <> Fault f) /\
  ((forall k, fails k = false) ->
   (capacity (self s) < count -> exists p s0, allocate count s = Ok p s0) ->
   exists s', run = Ok tt s').
Proof.
  intros Hown Hcount run. subst run. unfold size, capacity, begin.
  destruct (assign_spec count value s l Hown Hcount)
    as [(s1 & Hr & Hown1 & Hsz1 & Hcap1 & Hsame1 & Hpres1)
       | [(e & s1 & Hr & Hbig & Hself1 & Hown1 & Hpres1 & Hwhy)
         | (s1 & Hr & Hfit & Hself1 & Hown1 & Hpres1 & k & Hk)]];
    cbv zeta in Hr; rewrite Hr.
  - split; [|split; [discriminate | split; [discriminate | eauto]]].
    intros u s' Heq. injection Heq as <- <-.
    split; [apply owns_contents; exact Hown1|].
    split; [exact Hsz1|]. split; [exact Hcap1|]. split; assumption.
  - split; [discriminate|]. split; [|split; [discriminate|]].
    + intros e' s' Heq. injection Heq as <- <-. left.
      split; [exact Hbig|]. split; [exact Hself1|].
      apply owns_contents. rewrite Hself1. exact Hown1.
    + intros Hnofail Halloc. exfalso. destruct Hwhy as [[_ Hgt] | (_ & k & Hk)].
      * destruct (Halloc Hbig) as (p & s0 & Hp). apply allocate_granted in Hp. lia.
      * rewrite Hnofail in Hk. discriminate.
  - split; [discriminate|]. split; [|split; [discriminate|]].
    + intros e' s' Heq. injection Heq as <- <-. right.
      split; [exact Hfit|]. split; [reflexivity|].
      split; [apply owns_contents; exact Hown1|].
      rewrite Hself1. repeat split; reflexivity.
    + intros Hnofail. rewrite Hnofail in Hk. discriminate.
Qed.

(** ** [shrink_to_fit] *)

(** With spare capacity, [shrink_to_fit] is [reserve(size())]. *)
Lemma shrink_to_fit_unfold s :
  shrink_to_fit s =
    if sz_ (self s) <? cap_ (self s) then reserve (sz_ (self s)) s else Ok tt s.
Proof.
  unfold shrink_to_fit, reserve. rewrite !bind_this.
  destruct (sz_ (self s) <? cap_ (self s)); reflexivity.
Qed.

(** X7: [shrink_to_fit].  When it returns, the capacity equals the size
    and the elements are the same; a container without spare capacity is
    left alone, block included.  When it throws, the data members are as
    they were and no other block has changed; the elements are as they
    were if T's move constructor cannot throw or T can be copied.  It
    never goes wrong.  It returns when the allocation of the smaller
    block, made when there is spare capacity, succeeds and either the move
    constructor cannot throw or no constructor throws. *)
Theorem shrink_to_fit_fits s l :
  owns (heap s) (self s) l ->
  let run := shrink_to_fit s in
  (forall u s', run = Ok u s' ->
     capacity (self s') = size (self s') /\
     size (self s') = size (self s) /\
     contents s' = Some l /\
     (size (self s) = capacity (self s) -> s' = s) /\
     preserved s s' (self s)) /\
  (forall e s', run = Throw e s' ->
     size (self s) < capacity (self s) /\
     self s' = self s /\
     (nothrow_move = true \/ copyable = true -> contents s' = Some l) /\
     preserved s s' (self s)) /\
  (forall f, run <> Fault f) /\
  (nothrow_move = true \/ (forall k, fails k = false) ->
   (size (self s) < capacity (self s) ->
    exists p s0, allocate (size (self s)) s = Ok p s0) ->
   exists s', run = Ok tt s').
Proof.
  intros Hown run. subst run. unfold size, capacity.
  pose proof Hown as (Hsz & Hcap & _).
  rewrite shrink_to_fit_unfold.
  destruct (sz_ (self s) <? cap_ (self s)) eqn:Hspare.
  - apply Z.ltb_lt in Hspare.
    destruct (reserve_spec (sz_ (self s)) s l ltac:(lia) Hown)
      as [(_ & s1 & Hr & Hself & Hown1 & Hpres)
         | [(e & s1 & Hr & Hself & Hown1 & Hpres & Hwhy) | (Hlt & _)]];
      [| |lia]; rewrite Hr.
    + split; [|split; [discriminate | split; [discriminate | eauto]]].
      intros u s' Heq. injection Heq as <- <-. rewrite Hself. simpl.
      split; [reflexivity|]. split; [reflexivity|].
      split; [apply owns_contents; exact Hown1|]. split; [lia | exact Hpres].
    + split; [discriminate|]. split; [|split; [discriminate|]].
      * intros e' s' Heq. injection Heq as <- <-.
        split; [exact Hspare|]. split; [exact Hself|]. split; [|exact Hpres].
        intros Hsafe. apply owns_contents. rewrite Hself. exact (Hown1 Hsafe).
      * intros Hok Halloc. exfalso.
        destruct Hwhy as [[_ Hbig] | (He & Hnt & k & Hk)].
        -- destruct (Halloc Hspare) as (p & s0 & Hp). apply allocate_granted in Hp. lia.
        -- destruct Hok as [Hmove | Hnofail]; [congruence|].
           rewrite Hnofail in Hk. discriminate.
  - apply Z.ltb_ge in Hspare.
    split; [|split; [discriminate | split; [discriminate | eauto]]].
    intros u s' Heq. injection Heq as <- <-.
    split; [lia|]. split; [reflexivity|]. split; [apply owns_contents; exact Hown|].
    split; [reflexivity | apply preserved_refl].
Qed.

(** ** [pop_back] *)

Lemma item_removelast (l : list T) k :
  0 <= k -> item (removelast l) k =
            if k <? Z.of_nat (length l) - 1 then item l k else None.
Proof.
  intros Hk. rewrite removelast_firstn_len. unfold item.
  destruct (Z.ltb_spec k (Z.of_nat (length l) - 1)).
  - apply lookup_take_lt. lia.
  - apply lookup_take_ge. lia.
Qed.

Lemma pop_back_spec s l :
  owns (heap s) (self s) l ->
  exists s', pop_back s = Ok tt s' /\
    self s' = Vector (arr_ (self s)) (Z.max 0 (sz_ (self s) - 1)) (cap_ (self s)) /\
    owns (heap s') (self s') (removelast l) /\
    (l = [] -> s' = s) /\
    length (heap s') = length (heap s) /\
    (forall loc, block_len (heap s') loc = block_len (heap s) loc) /\
    (forall p, p <> arr_ (self s) +p (sz_ (self s) - 1) -> slot (heap s') p = slot (heap s) p).
Proof.
  intros Hown. pose proof Hown as (Hsz & Hcap & Hblock).
  pose proof ptrdiff_max_eq as Hmax.
  unfold pop_back. rewrite bind_this.
  destruct (sz_ (self s) >? 0) eqn:Hpos.
  - apply Z.gtb_lt in Hpos. rewrite wrap_small by lia.
    destruct (item_lt l (sz_ (self s) - 1) ltac:(lia)) as [x Hx].
    assert (Hlast : slot (heap s) (arr_ (self s) +p (sz_ (self s) - 1)) = Some (Some x)).
    { rewrite (owns_live _ _ _ Hown) by lia. rewrite Hx. reflexivity. }
    unfold bind, set_sz, this, set_self. simpl.
    unfold destroy. simpl. rewrite Hlast.
    eexists. split; [reflexivity|]. simpl.
    replace (Z.max 0 (sz_ (self s) - 1)) with (sz_ (self s) - 1) by lia.
    split; [reflexivity|]. split; [|split; [|split; [|split]]].
    + split; [simpl; rewrite removelast_firstn_len, length_take; lia|].
      split; [simpl; lia|].
      destruct Hblock as [[Hnull Hc0] | (loc & Harr & Hbl & Hcells)]; [lia|].
      right. exists loc. simpl. split; [exact Harr|].
      split; [rewrite block_len_store; exact Hbl|].
      intros k Hk. rewrite item_removelast by lia.
      destruct (decide (k = sz_ (self s) - 1)) as [->|Hne].
      * erewrite slot_store_eq by exact Hlast. case_compare.
      * rewrite slot_store_ne by (apply ptr_add_ne; lia).
        rewrite Hcells by exact Hk. case_compare. rewrite item_ge by lia. reflexivity.
    + intros ->. simpl in Hsz. lia.
    + apply length_store.
    + intros loc. apply block_len_store.
    + intros p Hp. apply slot_store_ne. apply not_eq_sym. exact Hp.
  - rewrite Z.gtb_ltb in Hpos. apply Z.ltb_ge in Hpos.
    assert (l = []) as -> by (destruct l; [reflexivity | simpl in Hsz; lia]).
    exists s. split; [reflexivity|].
    replace (Z.max 0 (sz_ (self s) - 1)) with (sz_ (self s)) by lia.
    split; [destruct (self s); simpl in *; f_equal|].
    split; [exact Hown|]. repeat split; reflexivity.
Qed.

(** X8: [pop_back].  On a container with elements it destroys the last
    one: its slot holds no element afterwards, the elements are the old
    ones without the last, the size is one less, block and capacity are
    the same and no other slot changes.  On an empty container it does
    nothing at all.  It never throws. *)
Theorem pop_back_removes_last s l :
  owns (heap s) (self s) l ->
  exists s', pop_back s = Ok tt s' /\
    contents s' = Some (removelast l) /\
    size (self s') = Z.max 0 (size (self s) - 1) /\
    capacity (self s') = capacity (self s) /\
    begin (self s') = begin (self s) /\
    (l <> [] -> slot (heap s') (end_ (self s) +p (-1)) = Some None) /\
    (l = [] -> s' = s) /\
    (forall p, p <> end_ (self s) +p (-1) -> slot (heap s') p = slot (heap s) p).
Proof.
  intros Hown. pose proof Hown as (Hsz & Hcap & _).
  destruct (pop_back_spec s l Hown) as (s' & Hr & Hself & Hown' & Hnil & _ & _ & Hframe).
  exists s'. split; [exact Hr|]. split; [apply owns_contents; exact Hown'|].
  unfold size, capacity, begin, end_. rewrite Hself. simpl.
  split; [reflexivity|]. split; [reflexivity|]. split; [reflexivity|].
  split; [|split; [exact Hnil|]].
  - intros Hne. rewrite ptr_add_add.
    assert (Hpos : 0 < Z.of_nat (length l))
      by (destruct l; [contradiction | simpl; lia]).
    pose proof (owns_raw _ _ _ Hown' (sz_ (self s) + -1)) as Hraw.
    rewrite Hself in Hraw. simpl in Hraw. apply Hraw. lia.
  - intros p Hp. apply Hframe. rewrite ptr_add_add in Hp. exact Hp.
Qed.

(** X9: [push_back] followed by [pop_back] gives back the elements and
    the size the container had, whatever the [push_back] did to the
    block. *)
Theorem push_back_pop_back s l value s1 :
  owns (heap s) (self s) l ->
  push_back value s = Ok tt s1 ->
  exists s2, pop_back s1 = Ok tt s2 /\
    contents s2 = Some l /\
    size (self s2) = size (self s) /\
    capacity (self s2) = capacity (self s1).
Proof.
  intros Hown Hpush. unfold push_back in Hpush.
  destruct (emplace_back_spec value s l Hown)
    as [(s1' & Hr & Hown1 & Hsz1 & _) | (e & s1' & Hr & _)];
    rewrite Hr in Hpush; [|discriminate].
  injection Hpush as <-.
  destruct (pop_back_spec s1' (l ++ [value]) Hown1) as (s2 & Hr2 & Hself2 & Hown2 & _).
  exists s2. split; [exact Hr2|].
  rewrite removelast_last in Hown2.
  split; [apply owns_contents; exact Hown2|].
  unfold size, capacity. rewrite Hself2. simpl. rewrite Hsz1.
  pose proof (owns_size_range _ _ _ Hown). split; [lia | reflexivity].
Qed.

(** ** [at], [operator[]], [front], [back] *)

(** X10: [at(index)] returns the element at [index] when [index] is
    below [size()] and throws [out_of_range], without touching anything,
    when it is not.  [operator[]] makes no test: at or beyond [size()] it
    reads a slot that holds no element, which is undefined. *)
Theorem at_checks_bounds s l index :
  owns (heap s) (self s) l ->
  0 <= index ->
  (index < size (self s) ->
     exists x, l !! Z.to_nat index = Some x /\
       at_ index s = Ok x s /\ subscript index s = Ok x s) /\
  (size (self s) <= index ->
     at_ index s = Throw out_of_range s /\
     subscript index s = Fault (read_not_live (begin (self s) +p index))).
Proof.
  intros Hown Hindex. pose proof Hown as (Hsz & Hcap & _).
  unfold size, at_, subscript, begin. rewrite !bind_this. split.
  - intros Hlt. destruct (item_lt l index ltac:(lia)) as [x Hx].
    exists x. split; [exact Hx|].
    assert (Hlive : slot (heap s) (arr_ (self s) +p index) = Some (Some x)).
    { rewrite (owns_live _ _ _ Hown) by lia. rewrite Hx. reflexivity. }
    destruct (index >=? sz_ (self s)) eqn:Hge;
      [rewrite Z.geb_leb in Hge; apply Z.leb_le in Hge; lia|].
    split; apply read_run; exact Hlive.
  - intros Hge. destruct (index >=? sz_ (self s)) eqn:Hge';
      [|rewrite Z.geb_leb in Hge'; apply Z.leb_gt in Hge'; lia].
    split; [reflexivity|].
    unfold read. destruct (Z_lt_ge_dec index (cap_ (self s))) as [Hin|Hout].
    + rewrite (owns_raw _ _ _ Hown) by lia. reflexivity.
    + rewrite (owns_outside _ _ _ Hown) by lia. reflexivity.
Qed.

(** X11: [front()] and [back()] test the block pointer, not the size.
    On a container with elements they designate the first and the last
    element.  On a container without a block they return nothing (the
    function ends without a [return]).  On a container that has a block
    but no element, as [clear()] leaves it, they do return a reference:
    [front()] to a slot that holds no element, [back()] to the position
    before the block. *)
Theorem front_back_test_pointer h v l :
  owns h v l ->
  (forall x y, head l = Some x -> last l = Some y ->
     exists p q, front v = Some p /\ back v = Some q /\
       slot h p = Some (Some x) /\ slot h q = Some (Some y)) /\
  (arr_ v = nullptr -> front v = None /\ back v = None) /\
  (l = [] -> arr_ v <> nullptr ->
     exists p q, front v = Some p /\ back v = Some q /\
       (slot h p = Some None \/ slot h p = None) /\ slot h q = None).
Proof.
  intros Hown. pose proof Hown as (Hsz & Hcap & Hblock).
  unfold front, back. split; [|split].
  - intros x y Hx Hy.
    assert (Hlen : 0 < Z.of_nat (length l)) by (destruct l; [discriminate | simpl; lia]).
    destruct Hblock as [[Hnull Hc0] | (loc & Harr & Hbl & Hcells)]; [lia|].
    rewrite Harr. simpl. eexists _, _. split; [reflexivity|]. split; [reflexivity|].
    rewrite <- Harr. split.
    + rewrite <- (ptr_add_0 (arr_ v)). rewrite Hcells by lia.
      unfold item. simpl. rewrite <- head_lookup. rewrite Hx. reflexivity.
    + rewrite ptr_add_add. rewrite Hcells by lia.
      unfold item. rewrite last_lookup in Hy. rewrite <- Hy.
      do 2 f_equal. lia.
  - intros ->. split; reflexivity.
  - intros -> Hne. rewrite ptr_eqb_null_false by exact Hne. simpl.
    eexists _, _. split; [reflexivity|]. split; [reflexivity|]. simpl in Hsz. split.
    + rewrite <- (ptr_add_0 (arr_ v)).
      destruct (Z_lt_ge_dec 0 (cap_ v)) as [Hroom|Hnone].
      * left. apply (owns_raw _ _ _ Hown). lia.
      * right. apply (owns_outside _ _ _ Hown). lia.
    + rewrite ptr_add_add. apply (owns_outside _ _ _ Hown). lia.
Qed.

(** ** [insert] *)

Lemma ptr_diff_own s k :
  ptr_diff (begin (self s) +p k) (begin (self s)) s = Ok k s.
Proof.
  unfold ptr_diff, begin. simpl. rewrite base_eqb_refl. unfold ret. f_equal. lia.
Qed.

Lemma spliced_end (l new : list T) : spliced l new (Z.of_nat (length l)) = l ++ new.
Proof.
  unfold spliced. rewrite Nat2Z.id, take_ge, drop_ge by lia. rewrite app_nil_r. reflexivity.
Qed.

(** What the forms of [insert] for several elements do after the position
    check: make room, open the gap, fill it, return the position. *)
Lemma insert_tail_run s l new ip count (src : Z -> M T) :
  owns (heap s) (self s) l ->
  count = Z.of_nat (length new) -> 1 <= count <= ptrdiff_max ->
  0 <= ip <= sz_ (self s) ->
  (forall t i x, new !! i = Some x -> src (Z.of_nat i) t = Ok x t) ->
  let prog := (grow_for count ;;
               open_gap_and_fill ip count src ;;
               v' <- this ;;
               ret (begin v' +p to_diff ip)) in
  (exists s', prog s = Ok (begin (self s') +p ip) s' /\
     owns (heap s') (self s') (spliced l new ip) /\
     sz_ (self s') = sz_ (self s) + count /\
     preserved s s' (self s)) \/
  ((forall r s', prog s <> Ok r s') /\
   ((cap_ (self s) < sz_ (self s) + count /\
     ptrdiff_max < Z.max (2 * cap_ (self s)) (sz_ (self s) + count)) \/
    exists k, fails k = true)).
Proof.
  intros Hown Hcount Hpos Hip Hsrc prog. subst prog.
  pose proof Hown as (Hsz & Hcap & _).
  destruct (grow_for_spec s l count Hown ltac:(lia))
    as [(s1 & Hr1 & Hown1 & Hsz1 & Hfit1 & Hpres1 & Harr1) | (Hno & Hwhy)].
  2:{ right. split; [apply bind_not_Ok; exact Hno|].
      destruct Hwhy as [Hbig | Hk]; [left | right; exact Hk].
      split; [|exact Hbig].
      destruct (Z_le_gt_dec (sz_ (self s) + count) (cap_ (self s))) as [Hfits|]; [|lia].
      exfalso. apply (Hno tt s). unfold grow_for. rewrite bind_this.
      pose proof ptrdiff_max_eq as Hmax.
      rewrite (wrap_small (sz_ (self s) + count)) by lia.
      destruct (sz_ (self s) + count >? cap_ (self s)) eqn:Hgt; [|reflexivity].
      apply Z.gtb_lt in Hgt. lia. }
  destruct (open_gap_and_fill_spec s1 l new ip count src Hown1 Hcount
              ltac:(lia) ltac:(lia) ltac:(lia))
    as [(s2 & Hr2 & Hself2 & Hown2 & Hlen2 & Hbl2 & Hframe2) | (Hno & Hk)].
  { intros t _ i x Hx. apply Hsrc. exact Hx. }
  - left. exists s2. rewrite (bind_Ok _ _ _ _ _ Hr1), (bind_Ok _ _ _ _ _ Hr2).
    rewrite bind_this. rewrite to_diff_small by lia.
    split; [reflexivity|]. split; [exact Hown2|].
    split; [rewrite Hself2; simpl; lia|].
    apply (preserved_step s s1 s2 (self s) Hpres1 Hlen2 Hbl2 Hframe2).
    destruct Harr1 as [-> | ->]; [left | right]; reflexivity.
  - right. split; [|right; exact Hk].
    intros r s'. rewrite (bind_Ok _ _ _ _ _ Hr1). apply bind_not_Ok. exact Hno.
Qed.

(** One round of the loop that shifts the tail, for a move constructor
    that cannot throw: no constructor call is counted. *)
Lemma shift_round_nothrow s l count index i t :
  nothrow_move = true ->
  owns (heap s) (self s) l ->
  1 <= count -> sz_ (self s) + count <= cap_ (self s) ->
  0 <= index < i -> i <= sz_ (self s) ->
  block_state s (gap_at l count i) t ->
  let a := arr_ (self s) in
  exists t',
    (construct_moved (a +p (i + count - 1)) (a +p (i - 1)) ;; destroy (a +p (i - 1))) t
      = Ok tt t' /\
    block_state s (gap_at l count (i - 1)) t' /\ calls t' = calls t.
Proof.
  intros Hnt Hown Hcount Hfit Hindex Hi Hbs a. subst a.
  pose proof Hown as (Hsz & Hcap & _).
  pose proof Hbs as (Hself & Hlen & Hbl & Hframe & Hcells).
  destruct (item_lt l (i - 1) ltac:(lia)) as [x Hx].
  assert (Hsrc : slot (heap t) (arr_ (self s) +p (i - 1)) = Some (Some x)).
  { rewrite Hcells by lia. unfold gap_at. rewrite <- Hx. case_compare. }
  assert (Hdst : slot (heap t) (arr_ (self s) +p (i + count - 1)) = Some None).
  { rewrite Hcells by lia. unfold gap_at. case_compare. }
  assert (Hne : arr_ (self s) +p (i - 1) <> arr_ (self s) +p (i + count - 1))
    by (apply ptr_add_ne; lia).
  unfold bind. rewrite (construct_moved_run _ _ _ _ _ Hsrc Hdst). rewrite Hnt.
  pose proof (block_state_store s _ t (i - 1) (Some (moved x)) Hbs ltac:(lia)) as H1.
  pose proof (block_state_store s _ _ (i + count - 1) (Some x) H1 ltac:(lia)) as H2.
  simpl in H2.
  erewrite destroy_run.
  2:{ simpl. rewrite slot_store_ne by (apply not_eq_sym; exact Hne).
      eapply slot_store_eq. exact Hsrc. }
  pose proof (block_state_store s _ _ (i - 1) None H2 ltac:(lia)) as H3.
  simpl in H3. eexists. split; [reflexivity|]. simpl. split; [|reflexivity].
  eapply block_state_ext; [exact H3|].
  intros k Hk. simpl. unfold gap_at. rewrite <- Hx. case_compare.
Qed.

(** The [try] block of [insert_impl] in a block with room for one more
    element: either the new element is in place at [index], or a
    constructor threw. *)
Lemma insert_gap_spec s l index value :
  owns (heap s) (self s) l ->
  sz_ (self s) + 1 <= cap_ (self s) ->
  0 <= index <= sz_ (self s) ->
  let v := self s in
  let block :=
    try_catch
      (for_down (Z.to_nat (sz_ v - index)) (sz_ v)
         (fun i =>
            construct_moved (arr_ v +p i) (arr_ v +p (i - 1)) ;;
            destroy (arr_ v +p (i - 1))) ;;
       construct_forwarded (arr_ v +p index) value ;;
       set_sz (wrap (sz_ v + 1)))
      (fun e =>
         for_range (wrap (index + 1)) (sz_ v) (fun i => destroy (arr_ v +p i)) ;;
         throw e) in
  (exists s', block s = Ok tt s' /\
     self s' = Vector (arr_ v) (sz_ v + 1) (cap_ v) /\
     owns (heap s') (self s') (spliced l [value] index) /\
     length (heap s') = length (heap s) /\
     (forall loc, block_len (heap s') loc = block_len (heap s) loc) /\
     (forall p, base p <> base (arr_ v) -> slot (heap s') p = slot (heap s) p)) \/
  ((forall u s', block s <> Ok u s') /\
   nothrow_move = false /\ exists k, fails k = true).
Proof.
  intros Hown Hfit Hindex v block. subst block v.
  pose proof Hown as (Hsz & Hcap & Hblock).
  pose proof ptrdiff_max_eq as Hmax.
  set (handler := fun e : exn =>
         for_range (wrap (index + 1)) (sz_ (self s)) (fun i => destroy (arr_ (self s) +p i)) ;;
         throw e).
  assert (Hhandler : forall e t u s', handler e t <> Ok u s').
  { intros e t u s'. apply ends_in_throw_not_Ok. }
  (* the tail moves one slot to the right *)
  destruct (for_down_rule (fun i t => block_state s (gap_at l 1 i) t)
              (fun _ _ => nothrow_move = false /\ exists k, fails k = true) False
              (Z.to_nat (sz_ (self s) - index)) (sz_ (self s))
              (fun i => construct_moved (arr_ (self s) +p i) (arr_ (self s) +p (i - 1)) ;;
                        destroy (arr_ (self s) +p (i - 1))) s)
    as [(s1 & Hr1 & Hs1) | [(e & t & Hk & Hr1) | ([] & _)]].
  { eapply block_state_ext; [apply owns_block_state; exact Hown|].
    intros k Hk. unfold gap_at. case_compare.
    - rewrite item_ge by lia. reflexivity.
    - rewrite !item_ge by lia. reflexivity. }
  { intros j t Hj Hbs.
    pose proof (shift_round s l 1 index j t Hown ltac:(lia) Hfit ltac:(lia)
                  ltac:(lia) Hbs) as Hstep.
    cbv zeta in Hstep. replace (j + 1 - 1) with j in Hstep by lia.
    destruct ((construct_moved (arr_ (self s) +p j) (arr_ (self s) +p (j - 1)) ;;
               destroy (arr_ (self s) +p (j - 1))) t) as [[] t'| e t' |] eqn:Hround;
      [exact Hstep | | exact Hstep].
    split; [|exact Hstep].
    destruct nothrow_move eqn:Hnt; [|reflexivity]. exfalso.
    destruct (shift_round_nothrow s l 1 index j t Hnt Hown ltac:(lia) Hfit ltac:(lia)
                ltac:(lia) Hbs) as (t2 & Hr2 & _).
    cbv zeta in Hr2. replace (j + 1 - 1) with j in Hr2 by lia.
    rewrite Hr2 in Hround. discriminate. }
  2:{ right. split; [|exact Hk]. intros u s'.
      rewrite (try_catch_Throw _ _ _ _ _ (bind_Throw _ _ _ _ _ Hr1)). apply Hhandler. }
  replace (sz_ (self s) - Z.of_nat (Z.to_nat (sz_ (self s) - index))) with index in Hs1 by lia.
  (* the new element goes into the gap *)
  pose proof Hs1 as (Hself1 & Hlen1 & Hbl1 & Hframe1 & Hcells1).
  assert (Hgap : slot (heap s1) (arr_ (self s) +p index) = Some None).
  { rewrite Hcells1 by lia. unfold gap_at. case_compare. }
  pose proof (construct_forwarded_run _ value _ _ Hgap) as Hnew.
  assert (Hdone : forall c,
            exists s',
              set_sz (wrap (sz_ (self s) + 1))
                (State (self s1) (store (heap s1) (arr_ (self s) +p index) (Some value)) c)
                = Ok tt s' /\
              self s' = Vector (arr_ (self s)) (sz_ (self s) + 1) (cap_ (self s)) /\
              owns (heap s') (self s') (spliced l [value] index) /\
              length (heap s') = length (heap s) /\
              (forall loc, block_len (heap s') loc = block_len (heap s) loc) /\
              (forall p, base p <> base (arr_ (self s)) -> slot (heap s') p = slot (heap s) p)).
  { intros c.
    pose proof (block_state_store s _ s1 index (Some value) Hs1 ltac:(lia))
      as (Hself2 & Hlen2 & Hbl2 & Hframe2 & Hcells2).
    simpl in Hself2, Hlen2, Hbl2, Hframe2, Hcells2.
    eexists. split; [reflexivity|]. simpl. rewrite Hself1.
    rewrite wrap_small by lia.
    split; [reflexivity|].
    split; [|split; [exact Hlen2 | split; [exact Hbl2 | exact Hframe2]]].
    split; [simpl; rewrite length_spliced; simpl; lia|]. split; [simpl; lia|].
    destruct Hblock as [[Hnull Hc0] | (loc & Harr & Hbl & _)]; [lia|].
    right. exists loc. simpl. split; [exact Harr|]. split; [rewrite Hbl2; exact Hbl|].
    intros k Hk. rewrite Hcells2 by exact Hk.
    rewrite item_spliced by lia. change (Z.of_nat (length [value])) with 1.
    unfold gap_at. case_compare. replace (k - index) with 0 by lia. reflexivity. }
  destruct nothrow_move eqn:Hnt.
  - left. destruct (Hdone (calls s1)) as (s' & Hr' & Hrest).
    exists s'. split; [|exact Hrest].
    apply try_catch_Ok. rewrite (bind_Ok _ _ _ _ _ Hr1).
    rewrite (bind_Ok _ _ _ _ _ Hnew). exact Hr'.
  - destruct (fails (calls s1)) eqn:Hf.
    + right. split; [|split; [reflexivity | eauto]]. intros u s'.
      rewrite (try_catch_Throw _ _ _ _ _
                 (eq_trans (bind_Ok _ _ _ _ _ Hr1) (bind_Throw _ _ _ _ _ Hnew))).
      apply Hhandler.
    + left. destruct (Hdone (S (calls s1))) as (s' & Hr' & Hrest).
      exists s'. split; [|exact Hrest].
      apply try_catch_Ok. rewrite (bind_Ok _ _ _ _ _ Hr1).
      rewrite (bind_Ok _ _ _ _ _ Hnew). exact Hr'.
Qed.

(** The first step of a single-element [insert] before the end:
    [reserve] twice the capacity when the block is full. *)
Lemma insert_room s l :
  owns (heap s) (self s) l ->
  0 < sz_ (self s) ->
  let v := self s in
  let step := if sz_ v =? cap_ v
              then reserve (if cap_ v >? 0 then wrap (cap_ v * 2) else 1)
              else ret tt in
  (exists s1, step s = Ok tt s1 /\
     owns (heap s1) (self s1) l /\
     sz_ (self s1) = sz_ v /\
     sz_ v + 1 <= cap_ (self s1) /\
     (arr_ (self s1) = arr_ v \/ arr_ (self s1) = Ptr (Some (length (heap s))) 0) /\
     preserved s s1 v) \/
  ((forall u s', step s <> Ok u s') /\
   ((sz_ v = cap_ v /\ ptrdiff_max < 2 * cap_ v) \/ exists k, fails k = true)).
Proof.
  intros Hown Hpos. cbv zeta. pose proof Hown as (Hsz & Hcap & _).
  pose proof ptrdiff_max_eq as Hmax.
  destruct (sz_ (self s) =? cap_ (self s)) eqn:Hfull.
  - apply Z.eqb_eq in Hfull.
    destruct (cap_ (self s) >? 0) eqn:Hc; [|rewrite Z.gtb_ltb in Hc; apply Z.ltb_ge in Hc; lia].
    rewrite wrap_small by lia.
    destruct (reserve_spec (cap_ (self s) * 2) s l ltac:(lia) Hown)
      as [(Hnc & s1 & Hr & Hself & Hown1 & Hpres)
         | [(e & s1 & Hr & _ & _ & _ & Hwhy) | (Hlt & _)]]; [| |lia].
    + left. exists s1. split; [exact Hr|]. split; [exact Hown1|].
      rewrite Hself. simpl. split; [reflexivity|]. split; [lia|].
      split; [right; reflexivity | exact Hpres].
    + right. split; [intros u s'; rewrite Hr; discriminate|].
      destruct Hwhy as [[_ Hbig] | (_ & _ & Hk)]; [left; lia | right; exact Hk].
  - apply Z.eqb_neq in Hfull. left. exists s. split; [reflexivity|].
    split; [exact Hown|]. split; [reflexivity|]. split; [lia|].
    split; [left; reflexivity | apply preserved_refl].
Qed.

Lemma insert_spec s l ip value :
  owns (heap s) (self s) l ->
  0 <= ip <= sz_ (self s) ->
  let v := self s in
  let run := insert (begin v +p ip) value s in
  (exists s', run = Ok (begin (self s') +p ip) s' /\
     owns (heap s') (self s') (spliced l [value] ip) /\
     sz_ (self s') = sz_ v + 1 /\
     preserved s s' v) \/
  ((forall r s', run <> Ok r s') /\
   ((sz_ v = cap_ v /\ ptrdiff_max < 2 * cap_ v) \/ exists k, fails k = true)).
Proof.
  intros Hown Hip v run. subst v run.
  pose proof Hown as (Hsz & Hcap & _).
  pose proof ptrdiff_max_eq as Hmax.
  pose proof (owns_off _ _ _ Hown) as Hoff.
  unfold insert, insert_impl.
  rewrite (bind_Ok _ _ _ _ _ (check_position_in s (begin (self s) +p ip) eq_refl
             ltac:(unfold begin; simpl; lia))).
  rewrite bind_this.
  destruct (ptr_eqb (begin (self s) +p ip) (end_ (self s))) eqn:Hend.
  - (* at the end: [push_back] *)
    apply ptr_eqb_eq in Hend. unfold begin, end_ in Hend. apply ptr_add_inj in Hend.
    subst ip. unfold push_back.
    destruct (emplace_back_spec value s l Hown)
      as [(s1 & Hr & Hown1 & Hsz1 & _ & Hpres1) | (e & s1 & Hr & _ & _ & _ & Hwhy)].
    + left. exists s1. rewrite (bind_Ok _ _ _ _ _ Hr). rewrite bind_this.
      split; [|split; [|split; [exact Hsz1 | exact Hpres1]]].
      * unfold ret, end_, begin. f_equal. rewrite ptr_add_add. f_equal. lia.
      * rewrite Hsz, spliced_end. exact Hown1.
    + right. split; [intros r s'; rewrite (bind_Throw _ _ _ _ _ Hr); discriminate|].
      destruct Hwhy as [(_ & Hfull & Hbig) | (_ & Hk)];
        [left; split; assumption | right; exact Hk].
  - (* before the end *)
    assert (Hlt : ip < sz_ (self s)).
    { destruct (Z.eq_dec ip (sz_ (self s))) as [->|Hne]; [|lia].
      unfold begin, end_ in Hend.
      assert (Htrue : ptr_eqb (arr_ (self s) +p sz_ (self s)) (arr_ (self s) +p sz_ (self s)) = true)
        by (apply ptr_eqb_eq; reflexivity).
      congruence. }
    rewrite (bind_Ok _ _ _ _ _ (ptr_diff_own s ip)). rewrite (wrap_small ip) by lia.
    destruct (insert_room s l Hown ltac:(lia))
      as [(s1 & Hr1 & Hown1 & Hsz1 & Hfit1 & Harr1 & Hpres1) | (Hno & Hwhy)];
      cbv zeta in *.
    2:{ right. split; [apply bind_not_Ok; exact Hno | exact Hwhy]. }
    rewrite (bind_Ok _ _ _ _ _ Hr1). rewrite bind_this.
    destruct (insert_gap_spec s1 l ip value Hown1 ltac:(lia) ltac:(lia))
      as [(s2 & Hr2 & Hself2 & Hown2 & Hlen2 & Hbl2 & Hframe2) | (Hno & _ & Hk)];
      cbv zeta in *.
    + left. exists s2. rewrite (bind_Ok _ _ _ _ _ Hr2). rewrite bind_this.
      rewrite to_diff_small by lia.
      split; [reflexivity|]. split; [exact Hown2|].
      split; [rewrite Hself2; simpl; lia|].
      apply (preserved_step s s1 s2 (self s) Hpres1 Hlen2 Hbl2 Hframe2 Harr1).
    + right. split; [apply bind_not_Ok; exact Hno | right; exact Hk].
Qed.

(** X12: [insert(pos, value)] for a position [begin() + ip] with
    [0 <= ip <= size()] and a [value] that is not a reference to an element
    of the container.  When it returns, the elements are the old ones
    with [value] put in before position [ip], the size is one more, and
    the iterator returned designates the new element; no block of another
    container has changed.  At [end()] the call is a [push_back]: when it
    throws there, the data members are as they were, and so are the
    elements if T's move constructor cannot throw or T can be copied.  The
    call returns when no constructor throws and the allocation of the
    larger block, made when the block is full, succeeds. *)
Theorem insert_one_element s l ip value :
  owns (heap s) (self s) l ->
  0 <= ip <= size (self s) ->
  let run := insert (begin (self s) +p ip) value s in
  (forall r s', run = Ok r s' ->
     contents s' = Some (spliced l [value] ip) /\
     size (self s') = size (self s) + 1 /\
     r = begin (self s') +p ip /\
     read r s' = Ok value s' /\
     preserved s s' (self s)) /\
  (ip = size (self s) -> forall e s', run = Throw e s' ->
     self s' = self s /\
     (nothrow_move = true \/ copyable = true -> contents s' = Some l)) /\
  ((forall k, fails k = false) ->
   (size (self s) = capacity (self s) ->
    exists p s0,
      allocate (if capacity (self s) >? 0 then wrap (capacity (self s) * 2) else 1) s
        = Ok p s0) ->
   exists r s', run = Ok r s').
Proof.
  intros Hown Hip run. subst run. unfold size, capacity in *.
  pose proof Hown as (Hsz & Hcap & _).
  split; [|split].
  - intros r s' Hr.
    destruct (insert_spec s l ip value Hown Hip)
      as [(s1 & Hr1 & Hown1 & Hsz1 & Hpres1) | (Hno & _)]; cbv zeta in *.
    2:{ exfalso. eapply Hno. exact Hr. }
    rewrite Hr1 in Hr. injection Hr as <- <-.
    split; [apply owns_contents; exact Hown1|]. split; [exact Hsz1|].
    split; [reflexivity|]. split; [|exact Hpres1].
    apply read_run. unfold begin. rewrite (owns_live _ _ _ Hown1).
    + rewrite item_spliced by lia. change (Z.of_nat (length [value])) with 1.
      case_compare. replace (ip - ip) with 0 by lia. reflexivity.
    + rewrite length_spliced. simpl. lia.
  - intros -> e s' Hr. unfold insert, insert_impl in Hr.
    pose proof (owns_off _ _ _ Hown) as Hoff.
    rewrite (bind_Ok _ _ _ _ _ (check_position_in s (begin (self s) +p sz_ (self s)) eq_refl
               ltac:(unfold begin; simpl; lia))) in Hr.
    rewrite bind_this in Hr.
    assert (Hend : ptr_eqb (begin (self s) +p sz_ (self s)) (end_ (self s)) = true)
      by (apply ptr_eqb_eq; reflexivity).
    rewrite Hend in Hr. unfold push_back in Hr.
    destruct (emplace_back_spec value s l Hown)
      as [(s1 & Hr1 & _) | (e1 & s1 & Hr1 & Hself1 & Hown1 & _)].
    + rewrite (bind_Ok _ _ _ _ _ Hr1) in Hr. discriminate.
    + rewrite (bind_Throw _ _ _ _ _ Hr1) in Hr. injection Hr as <- <-.
      split; [exact Hself1|]. intros Hsafe.
      apply owns_contents. rewrite Hself1. exact (Hown1 Hsafe).
  - intros Hnofail Halloc.
    destruct (insert_spec s l ip value Hown Hip)
      as [(s1 & Hr1 & _) | (_ & [[Hfull Hbig] | (k & Hk)])]; cbv zeta in *.
    + eauto.
    + exfalso. destruct (Halloc Hfull) as (p & s0 & Hp).
      apply allocate_granted in Hp. rewrite ptrdiff_max_eq in *.
      destruct (cap_ (self s) >? 0) eqn:Hpos; [|lia].
      rewrite wrap_small in Hp by lia. lia.
    + rewrite Hnofail in Hk. discriminate.
Qed.

Lemma insert_n_unfold s l ip count value :
  owns (heap s) (self s) l ->
  0 <= ip <= sz_ (self s) -> count <> 0 ->
  insert_n (begin (self s) +p ip) count value s =
    (grow_for count ;;
     open_gap_and_fill ip count (fun _ => ret value) ;;
     v' <- this ;;
     ret (begin v' +p to_diff ip)) s.
Proof.
  intros Hown Hip Hcount. pose proof Hown as (Hsz & Hcap & _).
  pose proof ptrdiff_max_eq as Hmax. pose proof (owns_off _ _ _ Hown) as Hoff.
  unfold insert_n. rewrite bind_this.
  rewrite (bind_Ok _ _ _ _ _ (ptr_diff_own s ip)). rewrite (wrap_small ip) by lia.
  destruct (count =? 0) eqn:Hz; [apply Z.eqb_eq in Hz; contradiction|].
  rewrite (bind_Ok _ _ _ _ _ (check_position_in s (begin (self s) +p ip) eq_refl
             ltac:(unfold begin; simpl; lia))).
  reflexivity.
Qed.

(** X13: [insert(pos, count, value)] with [count >= 1] for a position
    [begin() + ip] with [0 <= ip <= size()] and a [value] that is not a
    reference to an element of the container.  When it returns, the
    elements are the old ones with [count] copies of [value] put in before
    position [ip], the size has grown by [count], the iterator returned
    designates the first copy, and no block of another container has
    changed.  It returns when no constructor throws and the allocation of
    the larger block (of twice the capacity, or of the new size if that is
    more), made when the new size exceeds the capacity, succeeds. *)
Theorem insert_count_copies s l ip count value :
  owns (heap s) (self s) l ->
  0 <= ip <= size (self s) ->
  1 <= count <= ptrdiff_max ->
  let run := insert_n (begin (self s) +p ip) count value s in
  (forall r s', run = Ok r s' ->
     contents s' = Some (spliced l (replicate (Z.to_nat count) value) ip) /\
     size (self s') = size (self s) + count /\
     r = begin (self s') +p ip /\
     preserved s s' (self s)) /\
  ((forall k, fails k = false) ->
   (capacity (self s) < size (self s) + count ->
    exists p s0,
      allocate (Z.max (2 * capacity (self s)) (size (self s) + count)) s = Ok p s0) ->
   exists r s', run = Ok r s').
Proof.
  intros Hown Hip Hcount run. subst run. unfold size, capacity in *.
  rewrite (insert_n_unfold s l ip count value Hown Hip ltac:(lia)).
  destruct (insert_tail_run s l (replicate (Z.to_nat count) value) ip count
              (fun _ => ret value) Hown
              ltac:(rewrite length_replicate; lia) Hcount Hip)
    as [(s1 & Hr1 & Hown1 & Hsz1 & Hpres1) | (Hno & Hwhy)]; cbv zeta in *.
  { intros t i x Hx. apply lookup_replicate in Hx as [-> _]. reflexivity. }
  - rewrite Hr1. split; [|eauto].
    intros r s' Hr. injection Hr as <- <-.
    split; [apply owns_contents; exact Hown1|]. split; [exact Hsz1|].
    split; [reflexivity | exact Hpres1].
  - split; [intros r s' Hr; exfalso; eapply Hno; exact Hr|].
    intros Hnofail Halloc. exfalso. destruct Hwhy as [[Hneed Hbig] | (k & Hk)].
    + destruct (Halloc Hneed) as (p & s0 & Hp). apply allocate_granted in Hp. lia.
    + rewrite Hnofail in Hk. discriminate.
Qed.

Lemma insert_list_unfold s l ip ilist :
  owns (heap s) (self s) l ->
  0 <= ip <= sz_ (self s) ->
  Z.of_nat (length ilist) <= ptrdiff_max ->
  insert_list (begin (self s) +p ip) ilist s =
    (if Z.of_nat (length ilist) =? 0 then ret (begin (self s) +p ip)
     else
       grow_for (Z.of_nat (length ilist)) ;;
       open_gap_and_fill ip (Z.of_nat (length ilist)) (nth_of ilist) ;;
       v' <- this ;;
       ret (begin v' +p to_diff ip)) s.
Proof.
  intros Hown Hip Hlen. pose proof Hown as (Hsz & Hcap & _).
  pose proof ptrdiff_max_eq as Hmax. pose proof (owns_off _ _ _ Hown) as Hoff.
  unfold insert_list.
  rewrite (bind_Ok _ _ _ _ _ (check_position_in s (begin (self s) +p ip) eq_refl
             ltac:(unfold begin; simpl; lia))).
  rewrite bind_this.
  rewrite (bind_Ok _ _ _ _ _ (ptr_diff_own s ip)). rewrite (wrap_small ip) by lia.
  rewrite (wrap_small (Z.of_nat (length ilist))) by lia.
  rewrite (to_diff_small ip) by lia. reflexivity.
Qed.

(** X14: [insert(pos, ilist)] for a position [begin() + ip] with
    [0 <= ip <= size()].  When the call returns, the elements are the old
    ones with the elements of [ilist] put in before position [ip], in
    order; the size has grown by the length of [ilist], the iterator
    returned is [begin() + ip], and no block of another container has
    changed.  An empty [ilist] changes nothing.  The call returns when no
    constructor throws and the allocation of the larger block (of twice
    the capacity, or of the new size if that is more), made when the new
    size exceeds the capacity, succeeds. *)
Theorem insert_elements_of_list s l ip ilist :
  owns (heap s) (self s) l ->
  0 <= ip <= size (self s) ->
  Z.of_nat (length ilist) <= ptrdiff_max ->
  let run := insert_list (begin (self s) +p ip) ilist s in
  (forall r s', run = Ok r s' ->
     contents s' = Some (spliced l ilist ip) /\
     size (self s') = size (self s) + Z.of_nat (length ilist) /\
     r = begin (self s') +p ip /\
     preserved s s' (self s)) /\
  (ilist = [] -> run = Ok (begin (self s) +p ip) s) /\
  ((forall k, fails k = false) ->
   (capacity (self s) < size (self s) + Z.of_nat (length ilist) ->
    exists p s0,
      allocate (Z.max (2 * capacity (self s))
                      (size (self s) + Z.of_nat (length ilist))) s = Ok p s0) ->
   exists r s', run = Ok r s').
Proof.
  intros Hown Hip Hlen run. subst run. unfold size, capacity in *.
  rewrite (insert_list_unfold s l ip ilist Hown Hip Hlen).
  pose proof Hown as (Hsz & Hcap & _).
  destruct (Z.of_nat (length ilist) =? 0) eqn:Hempty.
  - apply Z.eqb_eq in Hempty.
    assert (ilist = []) as -> by (destruct ilist; [reflexivity | simpl in Hempty; lia]).
    split; [|split; [reflexivity | eauto]].
    intros r s' Hr. injection Hr as <- <-. rewrite spliced_nil. simpl.
    split; [apply owns_contents; exact Hown|]. split; [lia|].
    split; [reflexivity | apply preserved_refl].
  - apply Z.eqb_neq in Hempty.
    destruct (insert_tail_run s l ilist ip (Z.of_nat (length ilist)) (nth_of ilist) Hown
                eq_refl ltac:(lia) Hip)
      as [(s1 & Hr1 & Hown1 & Hsz1 & Hpres1) | (Hno & Hwhy)]; cbv zeta in *.
    { intros t i x Hx. unfold nth_of. rewrite Nat2Z.id, Hx. reflexivity. }
    + rewrite Hr1. split; [|split; [|eauto]].
      * intros r s' Hr. injection Hr as <- <-.
        split; [apply owns_contents; exact Hown1|]. split; [exact Hsz1|].
        split; [reflexivity | exact Hpres1].
      * intros ->. simpl in Hempty. contradiction.
    + split; [intros r s' Hr; exfalso; eapply Hno; exact Hr|]. split.
      * intros ->. simpl in Hempty. contradiction.
      * intros Hnofail Halloc. exfalso. destruct Hwhy as [[Hneed Hbig] | (k & Hk)].
        -- destruct (Halloc Hneed) as (p & s0 & Hp). apply allocate_granted in Hp. lia.
        -- rewrite Hnofail in Hk. discriminate.
Qed.

(** ** [erase] *)

Lemma erase_spec s l ip :
  owns (heap s) (self s) l ->
  0 <= ip < sz_ (self s) ->
  let v := self s in
  let run := erase (begin v +p ip) s in
  (exists s', run = Ok (begin (self s') +p ip) s' /\
     self s' = Vector (arr_ v) (sz_ v - 1) (cap_ v) /\
     owns (heap s') (self s') (take (Z.to_nat ip) l ++ drop (Z.to_nat (ip + 1)) l) /\
     length (heap s') = length (heap s) /\
     (forall loc, block_len (heap s') loc = block_len (heap s) loc) /\
     (forall p, base p <> base (arr_ v) -> slot (heap s') p = slot (heap s) p)) \/
  ((forall r s', run <> Ok r s') /\ exists k, fails k = true).
Proof.
  intros Hown Hip v run. subst v run.
  pose proof Hown as (Hsz & Hcap & Hblock). pose proof ptrdiff_max_eq as Hmax.
  pose proof (owns_off _ _ _ Hown) as Hoff.
  unfold erase.
  rewrite (bind_Ok _ _ _ _ _ (check_position_in s (begin (self s) +p ip) eq_refl
             ltac:(unfold begin; simpl; lia))).
  rewrite bind_this.
  rewrite (bind_Ok _ _ _ _ _ (ptr_diff_own s ip)). rewrite (wrap_small ip) by lia.
  rewrite (wrap_small (sz_ (self s) - 1)) by lia.
  rewrite (to_diff_small ip) by lia.
  (* the element at [ip] is destroyed *)
  destruct (item_lt l ip ltac:(lia)) as [x Hx].
  assert (Hlive : slot (heap s) (arr_ (self s) +p ip) = Some (Some x)).
  { rewrite (owns_live _ _ _ Hown) by lia. rewrite Hx. reflexivity. }
  rewrite (bind_Ok _ _ _ _ _ (destroy_run _ _ _ Hlive)).
  pose proof (block_state_store s _ s ip None (owns_block_state s l Hown) ltac:(lia)) as Hs1.
  set (s1 := State (self s) (store (heap s) (arr_ (self s) +p ip) None) (calls s)) in *.
  (* the tail moves down by one *)
  destruct (for_up_rule (fun m t => block_state s (closing l ip (ip + 1) (m + 1)) t)
              (fun _ _ _ => exists k, fails k = true) False
              (Z.to_nat (sz_ (self s) - 1 - ip)) ip
              (fun i => construct_moved (arr_ (self s) +p i) (arr_ (self s) +p (i + 1)) ;;
                        destroy (arr_ (self s) +p (i + 1))) rethrow s1)
    as [(s2 & Hr2 & Hs2) | [(m & e & t & _ & Hk & Hr2) | ([] & _)]].
  - eapply block_state_ext; [exact Hs1|].
    intros k Hk. unfold closing. case_compare.
  - intros m t Hm Hbs.
    destruct (item_lt l (m + 1) ltac:(lia)) as [y Hy].
    pose proof (relocate_within s _ t (m + 1) m y Hbs ltac:(lia) ltac:(lia)) as Hstep.
    cbv zeta in Hstep.
    destruct ((construct_moved (arr_ (self s) +p m) (arr_ (self s) +p (m + 1)) ;;
               destroy (arr_ (self s) +p (m + 1))) t) as [[] t'| |].
    + eapply block_state_ext; [apply Hstep|].
      * unfold closing. rewrite <- Hy. case_compare.
      * intros k Hk. simpl. unfold closing. rewrite <- Hy. case_compare.
    + apply Hstep. unfold closing. rewrite <- Hy. case_compare.
    + apply Hstep. unfold closing. rewrite <- Hy. case_compare.
  - left.
    replace (ip + Z.of_nat (Z.to_nat (sz_ (self s) - 1 - ip)) + 1)
      with (sz_ (self s)) in Hs2 by lia.
    unfold for_range. rewrite (bind_Ok _ _ _ _ _ Hr2).
    destruct Hs2 as (Hself2 & Hlen2 & Hbl2 & Hframe2 & Hcells2).
    eexists. split; [reflexivity|]. simpl. rewrite Hself2.
    split; [reflexivity|].
    split; [|split; [exact Hlen2 | split; [exact Hbl2 | exact Hframe2]]].
    split; [simpl; rewrite length_app, length_take, length_drop; lia|].
    split; [simpl; lia|].
    destruct Hblock as [[Hnull Hc0] | (loc & Harr & Hbl & _)]; [lia|].
    right. exists loc. simpl. split; [exact Harr|]. split; [rewrite Hbl2; exact Hbl|].
    intros k Hk. rewrite Hcells2 by exact Hk. rewrite item_erased by lia.
    unfold closing. case_compare; rewrite !item_ge by lia; reflexivity.
  - right. split; [|exact Hk]. intros r s'. unfold for_range.
    unfold rethrow, throw in Hr2. rewrite (bind_Throw _ _ _ _ _ Hr2). discriminate.
Qed.

(** X15: [erase(pos)] for a position [begin() + ip] below [end()].
    When it returns, the element at [ip] is gone and the others follow in
    their order; the size is one less, block and capacity are the same,
    the iterator returned is [begin() + ip], and no other block has
    changed.  It returns when no constructor throws (none is called when
    the move constructor cannot throw). *)
Theorem erase_one_element s l ip :
  owns (heap s) (self s) l ->
  0 <= ip < size (self s) ->
  let run := erase (begin (self s) +p ip) s in
  (forall r s', run = Ok r s' ->
     contents s' = Some (take (Z.to_nat ip) l ++ drop (Z.to_nat (ip + 1)) l) /\
     size (self s') = size (self s) - 1 /\
     capacity (self s') = capacity (self s) /\
     begin (self s') = begin (self s) /\
     r = begin (self s') +p ip /\
     (forall p, base p <> base (begin (self s)) -> slot (heap s') p = slot (heap s) p)) /\
  ((forall k, fails k = false) -> exists r s', run = Ok r s').
Proof.
  intros Hown Hip run. subst run. unfold size, capacity in *.
  destruct (erase_spec s l ip Hown Hip)
    as [(s1 & Hr1 & Hself1 & Hown1 & _ & _ & Hframe1) | (Hno & k & Hk)]; cbv zeta in *.
  - rewrite Hr1. split; [|eauto].
    intros r s' Hr. injection Hr as <- <-.
    split; [apply owns_contents; exact Hown1|].
    unfold begin in *. rewrite Hself1. simpl.
    repeat split; try reflexivity. exact Hframe1.
  - split; [intros r s' Hr; exfalso; eapply Hno; exact Hr|].
    intros Hnofail. rewrite Hnofail in Hk. discriminate.
Qed.

(** X16: inserting an element and erasing it again through the
    iterator [insert] returned gives back the elements and the size the
    container had. *)
Theorem insert_then_erase s l ip value r s1 :
  owns (heap s) (self s) l ->
  0 <= ip <= size (self s) ->
  insert (begin (self s) +p ip) value s = Ok r s1 ->
  (forall r2 s2, erase r s1 = Ok r2 s2 ->
     contents s2 = Some l /\ size (self s2) = size (self s) /\ r2 = r) /\
  ((forall k, fails k = false) -> exists r2 s2, erase r s1 = Ok r2 s2).
Proof.
  intros Hown Hip Hins. unfold size in *. pose proof Hown as (Hsz & _).
  destruct (insert_spec s l ip value Hown Hip)
    as [(s1' & Hr1 & Hown1 & Hsz1 & _) | (Hno & _)]; cbv zeta in *.
  2:{ exfalso. eapply Hno. exact Hins. }
  rewrite Hr1 in Hins. injection Hins as <- <-.
  destruct (erase_spec s1' (spliced l [value] ip) ip Hown1 ltac:(lia))
    as [(s2 & Hr2 & Hself2 & Hown2 & _) | (Hno & k & Hk)]; cbv zeta in *.
  - rewrite Hr2. split; [|eauto].
    intros r2 s2' Hr. injection Hr as <- <-.
    assert (Hback : take (Z.to_nat ip) (spliced l [value] ip) ++
                    drop (Z.to_nat (ip + 1)) (spliced l [value] ip) = l).
    { unfold spliced.
      rewrite take_app_length' by (rewrite length_take; lia).
      replace (Z.to_nat (ip + 1)) with (length (take (Z.to_nat ip) l) + 1)%nat
        by (rewrite length_take; lia).
      rewrite drop_app_add'; [|reflexivity]. simpl. rewrite drop_0. apply take_drop. }
    rewrite Hback in Hown2.
    split; [apply owns_contents; exact Hown2|].
    rewrite Hself2. simpl. split; [lia | reflexivity].
  - split; [intros r2 s2 Hr; exfalso; eapply Hno; exact Hr|].
    intros Hnofail. rewrite Hnofail in Hk. discriminate.
Qed.

Lemma erase_range_run s l i j :
  owns (heap s) (self s) l ->
  0 <= i <= j -> j <= sz_ (self s) -> i < j \/ j = sz_ (self s) ->
  let v := self s in
  let run := erase_range (begin v +p i) (begin v +p j) s in
  (exists s', run = Ok (end_ (self s')) s' /\
     self s' = Vector (arr_ v) (sz_ v - (j - i)) (cap_ v) /\
     owns (heap s') (self s') (take (Z.to_nat i) l ++ drop (Z.to_nat j) l) /\
     (forall p, base p <> base (arr_ v) -> slot (heap s') p = slot (heap s) p)) \/
  ((forall r s', run <> Ok r s') /\ exists k, fails k = true).
Proof.
  intros Hown Hi Hj Hne v run. subst v run.
  rewrite (erase_range_unfold s l i j Hown Hi Hj). unfold erase_body.
  pose proof Hown as (Hsz & Hcap & Hblock). pose proof ptrdiff_max_eq as Hmax.
  destruct (destroy_range_state s l i j Hown ltac:(lia) Hj) as (s1 & Hr1 & Hs1).
  rewrite (bind_Ok _ _ _ _ _ Hr1).
  destruct (for_up_rule (fun m t => block_state s (closing l i j m) t)
              (fun _ _ _ => exists k, fails k = true) False
              (Z.to_nat (sz_ (self s) - j)) j
              (fun k => construct_moved (arr_ (self s) +p (i + (k - j))) (arr_ (self s) +p k) ;;
                        destroy (arr_ (self s) +p k)) rethrow s1)
    as [(s2 & Hr2 & Hs2) | [(m & e & t & _ & Hk & Hr2) | ([] & _)]].
  - eapply block_state_ext; [exact Hs1|].
    intros k Hk. unfold hole, closing. case_compare.
  - intros m t Hm Hbs.
    destruct (item_lt l m ltac:(lia)) as [y Hy].
    pose proof (relocate_within s _ t m (i + (m - j)) y Hbs ltac:(lia) ltac:(lia)) as Hstep.
    cbv zeta in Hstep.
    destruct ((construct_moved (arr_ (self s) +p (i + (m - j))) (arr_ (self s) +p m) ;;
               destroy (arr_ (self s) +p m)) t) as [[] t'| |].
    + eapply block_state_ext; [apply Hstep|].
      * unfold closing. rewrite <- Hy. case_compare.
      * intros k Hk. simpl. unfold closing. rewrite <- Hy. case_compare.
    + apply Hstep. unfold closing. rewrite <- Hy. case_compare.
    + apply Hstep. unfold closing. rewrite <- Hy. case_compare.
  - left. replace (j + Z.of_nat (Z.to_nat (sz_ (self s) - j))) with (sz_ (self s)) in Hs2 by lia.
    unfold for_range. rewrite (bind_Ok _ _ _ _ _ Hr2).
    destruct Hs2 as (Hself2 & Hlen2 & Hbl2 & Hframe2 & Hcells2).
    exists (State (Vector (arr_ (self s)) (sz_ (self s) - (j - i)) (cap_ (self s)))
                  (heap s2) (calls s2)).
    split.
    { unfold bind, set_sz, this, set_self, ret, begin, end_. simpl. rewrite Hself2.
      rewrite (wrap_small (j - i)) by lia. rewrite wrap_small by lia.
      rewrite to_diff_small by lia. f_equal. unfold ptr_add. f_equal. lia. }
    simpl.
    split; [reflexivity|]. split; [|exact Hframe2].
    split; [simpl; rewrite length_app, length_take, length_drop; lia|].
    split; [simpl; lia|].
    destruct Hblock as [[Hnull Hc0] | (loc & Harr & Hbl & _)].
    + left. split; [exact Hnull | exact Hc0].
    + right. exists loc. simpl. split; [exact Harr|]. split; [rewrite Hbl2; exact Hbl|].
      intros k Hk. rewrite Hcells2 by exact Hk. rewrite item_erased by lia.
      unfold closing. case_compare; rewrite !item_ge by lia; reflexivity.
  - right. split; [|exact Hk]. intros r s'. unfold for_range.
    unfold rethrow, throw in Hr2. rewrite (bind_Throw _ _ _ _ _ Hr2). discriminate.
Qed.

(** X17: [erase(first, last)] for the positions [begin() + i] and
    [begin() + j] of a range that is not empty, or is at the end.  When it
    returns, the elements [i .. j) are gone and the others follow in their
    order; the size is [j - i] less, block and capacity are the same.  The
    iterator returned is [end()] of the container as it is then (the
    function advances [index_first] while it moves the tail), not the
    position of the first element after the erased ones.  It returns when
    no constructor throws. *)
Theorem erase_range_returns_end s l i j :
  owns (heap s) (self s) l ->
  0 <= i <= j -> j <= size (self s) -> i < j \/ j = size (self s) ->
  let run := erase_range (begin (self s) +p i) (begin (self s) +p j) s in
  (forall r s', run = Ok r s' ->
     contents s' = Some (take (Z.to_nat i) l ++ drop (Z.to_nat j) l) /\
     size (self s') = size (self s) - (j - i) /\
     capacity (self s') = capacity (self s) /\
     begin (self s') = begin (self s) /\
     r = end_ (self s') /\
     (j < size (self s) -> r <> begin (self s') +p i) /\
     (forall p, base p <> base (begin (self s)) -> slot (heap s') p = slot (heap s) p)) /\
  ((forall k, fails k = false) -> exists r s', run = Ok r s').
Proof.
  intros Hown Hi Hj Hne run. subst run. unfold size, capacity in *.
  destruct (erase_range_run s l i j Hown Hi Hj Hne)
    as [(s1 & Hr1 & Hself1 & Hown1 & Hframe1) | (Hno & k & Hk)]; cbv zeta in *.
  - rewrite Hr1. split; [|eauto].
    intros r s' Hr. injection Hr as <- <-.
    split; [apply owns_contents; exact Hown1|].
    unfold begin, end_ in *. rewrite Hself1. simpl.
    split; [reflexivity|]. split; [reflexivity|]. split; [reflexivity|].
    split; [reflexivity|]. split; [|exact Hframe1].
    intros Hlt. apply ptr_add_ne. lia.
  - split; [intros r s' Hr; exfalso; eapply Hno; exact Hr|].
    intros Hnofail. rewrite Hnofail in Hk. discriminate.
Qed.

(** ** More on [reserve] *)

(** X18: [reserve(newcap)] has no test of [newcap] against the
    capacity.  Whenever it returns, [newcap] was at least the size, the
    capacity is exactly [newcap], size and elements are the same, and the
    elements are in a new block ([begin()] has changed), also when
    [newcap] is at most the capacity the container already had; no block
    of another container has changed.  A request above [PTRDIFF_MAX]
    throws [bad_alloc] and changes nothing.  A request of at least the
    size never goes wrong, and returns when the allocation succeeds and
    either the move constructor cannot throw or no constructor throws.  A
    request below the size never returns: when its allocation succeeds and
    no relocation throws, an element is constructed past the end of the
    new block, which is undefined. *)
Theorem reserve_exactly s l newcap :
  owns (heap s) (self s) l ->
  0 <= newcap ->
  let run := reserve newcap s in
  let relocates :=
    (exists p s0, allocate newcap s = Ok p s0) /\
    (nothrow_move = true \/ forall k, fails k = false) in
  (forall u s', run = Ok u s' ->
     size (self s) <= newcap /\
     capacity (self s') = newcap /\ size (self s') = size (self s) /\
     contents s' = Some l /\ begin (self s') <> begin (self s) /\
     preserved s s' (self s)) /\
  (ptrdiff_max < newcap -> run = Throw bad_alloc s) /\
  (size (self s) <= newcap ->
     (forall f, run <> Fault f) /\ (relocates -> exists s', run = Ok tt s')) /\
  (newcap < size (self s) -> relocates -> exists f, run = Fault f).
Proof.
  intros Hown Hnc run relocates. subst run relocates. unfold size, capacity, begin.
  pose proof Hown as (Hsz & Hcap & _).
  pose proof (reserve_spec newcap s l Hnc Hown) as Hspec. cbv zeta in Hspec.
  assert (Hgood : (exists p s0, allocate newcap s = Ok p s0) /\
                  (nothrow_move = true \/ forall k, fails k = false) ->
                  forall e s1, reserve newcap s <> Throw e s1).
  { intros [(p & s0 & Hp) Hsafe] e s1 Hr. apply allocate_granted in Hp.
    destruct Hspec as [(_ & s2 & Hr2 & _)
                      | [(e2 & s2 & Hr2 & _ & _ & _ & Hwhy) | (_ & f & Hr2)]];
      rewrite Hr2 in Hr; try discriminate.
    destruct Hwhy as [[_ Hbig] | (_ & Hnt & k & Hk)]; [lia|].
    destruct Hsafe as [Hmove | Hnofail]; [congruence|].
    rewrite Hnofail in Hk. discriminate. }
  split; [|split; [|split]].
  - intros u s' Hr.
    destruct Hspec as [(Hfit & s1 & Hr1 & Hself & Hown1 & Hpres)
                      | [(e & s1 & Hr1 & _) | (_ & f & Hr1)]];
      rewrite Hr1 in Hr; try discriminate.
    injection Hr as <- <-. rewrite Hself. simpl.
    split; [lia|]. split; [reflexivity|]. split; [reflexivity|].
    split; [apply owns_contents; exact Hown1|]. split; [|exact Hpres].
    intros Heq. apply (owns_fresh _ _ _ Hown). rewrite <- Heq. reflexivity.
  - intros Hbig. unfold reserve. rewrite bind_this.
    apply bind_Throw, allocate_refuses. exact Hbig.
  - intros Hfit. split.
    + intros f Hr.
      destruct Hspec as [(_ & s1 & Hr1 & _) | [(e & s1 & Hr1 & _) | (Hlt & _)]];
        [| |lia]; rewrite Hr1 in Hr; discriminate.
    + intros Hrel.
      destruct Hspec as [(_ & s1 & Hr1 & _) | [(e & s1 & Hr1 & _) | (Hlt & _)]];
        [eauto | |lia].
      exfalso. exact (Hgood Hrel e s1 Hr1).
  - intros Hlt Hrel.
    destruct Hspec as [(Hfit & _) | [(e & s1 & Hr1 & _) | (_ & f & Hr1)]];
      [lia | | eauto].
    exfalso. exact (Hgood Hrel e s1 Hr1).
Qed.

(** ** The growth of the capacity *)

Lemma push_all_doubling values : forall s l s',
  owns (heap s) (self s) l ->
  doubling (self s) ->
  push_all values s = Ok tt s' ->
  doubling (self s').
Proof.
  induction values as [|x values IH]; intros s l s' Hown Hd Hr.
  - injection Hr as <-. exact Hd.
  - simpl push_all in Hr. unfold push_back in Hr.
    destruct (emplace_back_spec x s l Hown)
      as [(s1 & Hr1 & Hown1 & Hsz1 & Hcap1 & _) | (e & s1 & Hr1 & _)].
    2:{ rewrite (bind_Throw _ _ _ _ _ Hr1) in Hr. discriminate. }
    rewrite (bind_Ok _ _ _ _ _ Hr1) in Hr.
    apply (IH s1 (l ++ [x]) s' Hown1); [|exact Hr].
    right. cbv zeta in Hsz1, Hcap1. destruct Hd as [[Hz Hc] | (k & Hk & Hrange)].
    + exists 0%nat. rewrite Hcap1, Hsz1, Hz, Hc. simpl. lia.
    + destruct (sz_ (self s) =? cap_ (self s)) eqn:Hfull.
      * apply Z.eqb_eq in Hfull. exists (S k).
        assert (Hpos : 0 < cap_ (self s)) by (rewrite Hk; apply Z.pow_pos_nonneg; lia).
        destruct (cap_ (self s) >? 0) eqn:Hc;
          [|rewrite Z.gtb_ltb in Hc; apply Z.ltb_ge in Hc; lia].
        rewrite Hcap1, Hsz1, Nat2Z.inj_succ, Z.pow_succ_r by lia. lia.
      * apply Z.eqb_neq in Hfull. exists k. rewrite Hcap1, Hsz1. lia.
Qed.

(** X19: the growth policy of [push_back].  After one or more
    [push_back] calls on a default-constructed container have returned, the
    capacity is a power of two, at least the size and less than twice the
    size: a full block is replaced by one of twice the capacity, the first
    block has one slot. *)
Theorem push_back_doubles_capacity values h c s' :
  values <> [] ->
  push_all values (State vector_default h c) = Ok tt s' ->
  size (self s') = Z.of_nat (length values) /\
  (exists k : nat, capacity (self s') = 2 ^ Z.of_nat k) /\
  size (self s') <= capacity (self s') < 2 * size (self s').
Proof.
  intros Hne Hr. unfold size, capacity.
  pose proof (push_all_doubling values (State vector_default h c) [] s'
                (owns_default h) ltac:(left; split; reflexivity) Hr) as Hd.
  destruct (push_all_spec values (State vector_default h c) [] (owns_default h))
    as [Hpart _].
  pose proof (Hpart s' Hr) as (Hsz & _). simpl in Hsz.
  split; [exact Hsz|].
  assert (Hpos : 0 < Z.of_nat (length values))
    by (destruct values; [contradiction | simpl; lia]).
  destruct Hd as [[Hz _] | (k & Hk & Hrange)]; [lia|].
  split; [exists k; exact Hk | exact Hrange].
Qed.

(** ** Move assignment, continued *)

(** X20: move assignment from another container hands the elements
    over without constructing or destroying any: afterwards the
    destination holds the source's elements, in the source's block.  The
    source is left with a null block pointer and size zero but with its
    old capacity, so that a [push_back] on it, finding the size below the
    capacity, constructs through the null pointer, which is undefined;
    only a source without capacity is left like a default-constructed
    container. *)
Theorem move_assign_then_use s l other lo :
  owns (heap s) (self s) l ->
  owns (heap s) other lo ->
  (forall loc, base (arr_ other) = Some loc -> base (arr_ (self s)) <> Some loc) ->
  exists source' s',
    move_assign other s = Ok source' s' /\
    contents s' = Some lo /\
    begin (self s') = begin other /\
    (capacity other <> 0 -> forall value h c,
       push_back value (State source' h c) = Fault (bad_access nullptr)) /\
    (capacity other = 0 -> source' = vector_default).
Proof.
  intros Hown Hother Hapart. unfold move_assign. rewrite bind_this.
  assert (Hfree : (if negb (ptr_eqb (arr_ (self s)) nullptr)
                   then deallocate (arr_ (self s)) (cap_ (self s)) else ret tt) s =
                  Ok tt (State (self s) (release (arr_ (self s)) (heap s)) (calls s))).
  { destruct Hown as (_ & _ & [[Hnull _] | (loc & Harr & Hbl & _)]).
    - rewrite Hnull. destruct s. reflexivity.
    - rewrite Harr. simpl. apply deallocate_block. right. exists loc. split; [reflexivity|].
      exact Hbl. }
  rewrite (bind_Ok _ _ _ _ _ Hfree).
  eexists _, _. split; [reflexivity|]. simpl. split; [|split; [reflexivity|split]].
  - apply owns_contents. simpl.
    apply (owns_kept (heap s)).
    + destruct other as [a z c]. exact Hother.
    + simpl. intros loc Hloc.
      assert (Hne : Some loc <> base (arr_ (self s))).
      { intros Heq. apply (Hapart loc Hloc). symmetry. exact Heq. }
      split.
      * apply block_len_release_other. exact Hne.
      * intros p Hp. apply slot_release_other. rewrite Hp. exact Hne.
  - intros Hcap value h c. unfold capacity in Hcap.
    unfold push_back, emplace_back. rewrite bind_this. cbn [self sz_ cap_ arr_].
    destruct (0 =? cap_ other) eqn:Hz; [apply Z.eqb_eq in Hz; congruence|].
    reflexivity.
  - unfold capacity. intros ->. reflexivity.
Qed.

(** ** The destructor *)

(** X21: the destructor calls [destroy] on each of the [size()]
    elements and releases the block.  For a container that satisfies the
    class invariant it neither throws nor goes wrong: afterwards the size
    is zero, no slot of the block exists, and every other block is as
    before.  Were the slot of one of the elements unconstructed, its
    [destroy] would be undefined behaviour. *)
Theorem destructor_releases s l :
  owns (heap s) (self s) l ->
  (exists s', destructor s = Ok tt s' /\
     size (self s') = 0 /\
     (forall k, slot (heap s') (begin (self s) +p k) = None) /\
     (forall loc, base (begin (self s)) = Some loc -> block_len (heap s') loc = None) /\
     length (heap s') = length (heap s) /\
     (forall loc, Some loc <> base (begin (self s)) ->
        block_len (heap s') loc = block_len (heap s) loc) /\
     (forall p, base p <> base (begin (self s)) -> slot (heap s') p = slot (heap s) p)) /\
  (forall k, 0 <= k < size (self s) ->
     exists f,
       destructor (State (self s) (store (heap s) (begin (self s) +p k) None) (calls s))
         = Fault f).
Proof.
  intros Hown. unfold destructor, begin, size. split.
  - destruct (clear_spec s l Hown) as (s1 & Hr & Hself & Hown1 & Hlen & Hbl & Hframe).
    rewrite (bind_Ok _ _ _ _ _ Hr). rewrite bind_this. rewrite Hself. simpl.
    assert (Hfree : (if negb (ptr_eqb (arr_ (self s)) nullptr)
                     then deallocate (arr_ (self s)) (cap_ (self s)) else ret tt) s1 =
                    Ok tt (State (self s1) (release (arr_ (self s)) (heap s1)) (calls s1))).
    { destruct Hown as (_ & _ & [[Hnull _] | (loc & Harr & Hbl0 & _)]).
      - rewrite Hnull. destruct s1. reflexivity.
      - rewrite Harr. simpl. apply deallocate_block. right. exists loc.
        split; [reflexivity|]. rewrite Hbl. exact Hbl0. }
    rewrite Hfree. eexists. split; [reflexivity|]. simpl.
    assert (Hgone : forall loc, base (arr_ (self s)) = Some loc ->
              block_len (release (arr_ (self s)) (heap s1)) loc = None).
    { intros loc Hloc. unfold release. rewrite Hloc. apply block_len_freed. }
    split; [rewrite Hself; reflexivity|].
    split; [|split; [exact Hgone|split; [rewrite length_release; exact Hlen|split]]].
    + intros k. destruct (base (arr_ (self s))) as [loc|] eqn:Hb.
      * unfold slot, release. simpl. rewrite Hb.
        destruct (0 <=? off (arr_ (self s)) + k); [|reflexivity].
        destruct (decide (loc < length (heap s1))%nat) as [Hlt|Hge].
        -- rewrite list_lookup_insert_eq by exact Hlt. reflexivity.
        -- rewrite lookup_ge_None_2 by (rewrite length_insert; lia). reflexivity.
      * unfold slot. simpl. rewrite Hb. reflexivity.
    + intros loc Hloc. rewrite block_len_release_other by exact Hloc. apply Hbl.
    + intros p Hp. rewrite slot_release_other by exact Hp. apply Hframe. exact Hp.
  - intros k Hk. pose proof Hown as (Hsz & _).
    set (a := arr_ (self s)).
    set (s0 := State (self s) (store (heap s) (a +p k) None) (calls s)).
    assert (Hloop : exists f,
              for_range 0 (sz_ (self s)) (fun i => destroy (a +p i)) s0 = Fault f).
    { unfold for_range.
      destruct (for_up_rule
                  (fun j t => j <= k /\ slot (heap t) (a +p k) = Some None /\
                     forall i, j <= i < sz_ (self s) -> i <> k ->
                       exists x, slot (heap t) (a +p i) = Some (Some x))
                  (fun _ _ _ => False) True
                  (Z.to_nat (sz_ (self s) - 0)) 0
                  (fun i => destroy (a +p i)) rethrow s0)
        as [(s' & _ & Hle & _) | [(j & e & t & _ & [] & _) | (_ & f & Hr)]].
      - split; [lia|]. unfold s0. simpl. split.
        + eapply slot_store_eq. apply (owns_live _ _ _ Hown). lia.
        + intros i Hi Hne. rewrite slot_store_ne by (apply ptr_add_ne; lia).
          rewrite (owns_live _ _ _ Hown) by lia.
          destruct (item_lt l i ltac:(lia)) as [x Hx]. exists x. rewrite Hx. reflexivity.
      - intros j t Hj (Hle & Hdead & Hlive).
        destruct (decide (j = k)) as [->|Hne].
        + rewrite destroy_raw by (left; exact Hdead). exact I.
        + destruct (Hlive j ltac:(lia) Hne) as [x Hx].
          rewrite (destroy_run _ _ _ Hx). simpl. split; [lia|]. split.
          * rewrite slot_store_ne by (apply ptr_add_ne; lia). exact Hdead.
          * intros i Hi Hik. rewrite slot_store_ne by (apply ptr_add_ne; lia).
            apply Hlive; [lia | exact Hik].
      - lia.
      - exists f. exact Hr. }
    destruct Hloop as [f Hf]. exists f.
    apply bind_Fault. unfold clear. rewrite bind_this.
    apply bind_Fault. exact Hf.
Qed.

(** ** [swap] *)

(** X22: [swap] exchanges the two containers' elements by exchanging
    their data members: afterwards each holds what the other held, in the
    same slots, and the free store is untouched (nothing is allocated,
    constructed or destroyed); swapping back restores both. *)
Theorem swap_exchanges s l other lo :
  owns (heap s) (self s) l ->
  owns (heap s) other lo ->
  exists other' s',
    swap other s = Ok other' s' /\
    heap s' = heap s /\
    self s' = other /\ other' = self s /\
    contents s' = Some lo /\
    owns (heap s') other' l /\
    swap other' s' = Ok other s.
Proof.
  intros Hown Hother. unfold swap. rewrite !bind_this.
  destruct s as [[a z c] h n], other as [a' z' c']. simpl in *.
  eexists _, _. split; [reflexivity|]. simpl.
  repeat split; try reflexivity; try assumption.
  - apply (owns_contents (State _ _ _)). exact Hother.
  - destruct Hown as (H & _). exact H.
  - destruct Hown as (_ & H & _). apply H.
  - destruct Hown as (_ & H & _). apply H.
  - destruct Hown as (_ & _ & H). exact H.
Qed.

(** ** The range constructor with the iterators in the wrong order *)

(** X23: [vector(first, last)] with [last] before [first] in one block:
    the negative distance, taken as a [size_type], is a request for more
    than [PTRDIFF_MAX] slots, which the allocator refuses; the constructor
    throws [bad_alloc] before it reads or constructs anything. *)
Theorem range_constructor_inverted first last s :
  base first = base last ->
  off last < off first ->
  off first - off last <= ptrdiff_max ->
  vector_from_range first last s = Throw bad_alloc s.
Proof.
  intros Hb Hlt Hdist. rewrite ptrdiff_max_eq in Hdist.
  unfold vector_from_range, ptr_diff. rewrite Hb, base_eqb_refl.
  unfold bind at 1. unfold ret at 1.
  apply bind_Throw, allocate_refuses. rewrite ptrdiff_max_eq. unfold wrap.
  replace (off last - off first) with ((-1) * 2 ^ 64 + (2 ^ 64 - (off first - off last)))
    by lia.
  rewrite Z.add_comm, Z.mod_add by lia.
  rewrite Z.mod_small; change (2 ^ 64) with 18446744073709551616; lia.
Qed.

(** ** Positions out of range *)

(** X24: a position in the container's block but outside
    [begin() .. end()] is refused: every form of [insert] that has
    something to insert, [erase(pos)], and [erase(first, last)] for a
    [first] outside the range or a [last] beyond [end()], throw
    [out_of_range] and leave everything as it is. *)
Theorem out_of_range_positions s pos :
  base pos = base (begin (self s)) ->
  off pos < off (begin (self s)) \/ off (end_ (self s)) < off pos ->
  (forall value, insert pos value s = Throw out_of_range s) /\
  (forall count value, count <> 0 -> insert_n pos count value s = Throw out_of_range s) /\
  (forall ilist, insert_list pos ilist s = Throw out_of_range s) /\
  (forall elems, insert_dispatch_float pos elems s = Throw out_of_range s) /\
  (forall first last, insert_range pos first last s = Throw out_of_range s) /\
  erase pos s = Throw out_of_range s /\
  (forall last, base last = base pos -> erase_range pos last s = Throw out_of_range s) /\
  (forall first, base first = base pos -> off (end_ (self s)) < off pos ->
     erase_range first pos s = Throw out_of_range s).
Proof.
  unfold begin, end_. simpl. intros Hb Ho.
  pose proof (check_position_out s pos Hb Ho) as Hc.
  split; [|split; [|split; [|split; [|split; [|split; [|split]]]]]].
  - intros value. unfold insert, insert_impl. apply bind_Throw. exact Hc.
  - intros count value Hcount. unfold insert_n. rewrite bind_this.
    unfold ptr_diff, begin. rewrite Hb, base_eqb_refl.
    unfold bind at 1. unfold ret.
    destruct (count =? 0) eqn:Hz; [apply Z.eqb_eq in Hz; contradiction|].
    apply bind_Throw. exact Hc.
  - intros ilist. unfold insert_list. apply bind_Throw. exact Hc.
  - intros elems. unfold insert_dispatch_float. apply bind_Throw. exact Hc.
  - intros first last. unfold insert_range, insert_dispatch_int. apply bind_Throw. exact Hc.
  - unfold erase. apply bind_Throw. exact Hc.
  - intros last Hl. unfold erase_range. rewrite bind_this.
    unfold or_else, ptr_gt, ptr_lt, begin, end_. simpl.
    rewrite Hl, Hb, !base_eqb_refl. unfold bind, ret.
    destruct Ho as [Ho | Ho].
    + destruct (off pos <? off (arr_ (self s))) eqn:H1;
        [reflexivity | apply Z.ltb_ge in H1; lia].
    + destruct (off pos <? off (arr_ (self s))); [reflexivity|].
      destruct (off (arr_ (self s)) + sz_ (self s) <? off last); [reflexivity|].
      destruct (off (arr_ (self s)) + sz_ (self s) <? off pos) eqn:H3;
        [reflexivity | apply Z.ltb_ge in H3; lia].
  - intros first Hf Hbeyond. unfold erase_range. rewrite bind_this.
    unfold or_else, ptr_gt, ptr_lt, begin, end_. simpl.
    rewrite Hf, Hb, !base_eqb_refl. unfold bind, ret.
    destruct (off first <? off (arr_ (self s))); [reflexivity|].
    destruct (off (arr_ (self s)) + sz_ (self s) <? off pos) eqn:H2;
      [reflexivity | apply Z.ltb_ge in H2; lia].
Qed.

(** ** [insert] when a constructor throws *)

(** X25: an [insert(pos, value)] before the last element, into a block
    with room, of a type whose move constructor is not [noexcept], when
    the first constructor call made, which relocates the last element one
    slot to the right, throws.  The handler destroys the slots from
    [pos + 1] up to the old size and rethrows, with [size()] as it was: the
    exception leaves a container whose size still counts elements that
    are destroyed. *)
Theorem insert_throw_destroys_tail s l ip value :
  nothrow_move = false ->
  owns (heap s) (self s) l ->
  0 <= ip -> ip + 1 < size (self s) -> size (self s) < capacity (self s) ->
  fails (calls s) = true ->
  exists s',
    insert (begin (self s) +p ip) value s = Throw element_error s' /\
    self s' = self s /\
    (forall k, ip + 1 <= k < size (self s) ->
       slot (heap s') (begin (self s) +p k) = Some None) /\
    contents s' = None.
Proof.
  intros Hnt Hown Hip Hlt Hroom Hfail. unfold size, capacity, begin in *.
  pose proof Hown as (Hsz & Hcap & _). pose proof ptrdiff_max_eq as Hmax.
  pose proof (owns_off _ _ _ Hown) as Hoff.
  destruct (item_lt l (sz_ (self s) - 1) ltac:(lia)) as [x Hx].
  (* the relocation of the last element throws *)
  set (t := State (self s) (heap s) (S (calls s))).
  assert (Hshift : for_down (Z.to_nat (sz_ (self s) - ip)) (sz_ (self s))
                     (fun i => construct_moved (arr_ (self s) +p i)
                                 (arr_ (self s) +p (i - 1)) ;;
                               destroy (arr_ (self s) +p (i - 1))) s =
                   Throw element_error t).
  { replace (Z.to_nat (sz_ (self s) - ip))
      with (S (Z.to_nat (sz_ (self s) - ip - 1))) by lia.
    simpl for_down. unfold bind at 1. unfold bind at 1.
    assert (Hsrc : slot (heap s) (arr_ (self s) +p (sz_ (self s) - 1)) = Some (Some x)).
    { rewrite (owns_live _ _ _ Hown) by lia. rewrite Hx. reflexivity. }
    assert (Hdst : slot (heap s) (arr_ (self s) +p sz_ (self s)) = Some None).
    { apply (owns_raw _ _ _ Hown). lia. }
    rewrite (construct_moved_run _ _ _ _ _ Hsrc Hdst). rewrite Hnt, Hfail. reflexivity. }
  (* the handler runs in a state whose slots [ip + 1 .. size) are live *)
  destruct (destroy_loop (arr_ (self s)) (ip + 1) (sz_ (self s)) t)
    as (s' & Hr & Hself' & _ & _ & _ & Hdead & _).
  { intros k Hk. unfold t. simpl. rewrite (owns_live _ _ _ Hown) by lia.
    destruct (item_lt l k ltac:(lia)) as [y Hy]. exists y. rewrite Hy. reflexivity. }
  exists s'. split; [|split; [exact Hself' | split; [exact Hdead|]]].
  - unfold insert, insert_impl.
    rewrite (bind_Ok _ _ _ _ _ (check_position_in s (arr_ (self s) +p ip) eq_refl
               ltac:(simpl; lia))).
    rewrite bind_this.
    destruct (ptr_eqb (arr_ (self s) +p ip) (end_ (self s))) eqn:Hend.
    { apply ptr_eqb_eq in Hend. unfold end_ in Hend. apply ptr_add_inj in Hend. lia. }
    rewrite (bind_Ok _ _ _ _ _ (ptr_diff_own s ip)). rewrite (wrap_small ip) by lia.
    destruct (sz_ (self s) =? cap_ (self s)) eqn:Hfull; [apply Z.eqb_eq in Hfull; lia|].
    rewrite (bind_Ok (ret tt) _ s tt s eq_refl). rewrite bind_this.
    apply bind_Throw. unfold try_catch.
    rewrite (bind_Throw _ _ _ _ _ Hshift). rewrite wrap_small by lia.
    rewrite (bind_Ok _ _ _ _ _ Hr). reflexivity.
  - unfold contents. rewrite Hself'. unfold t. simpl.
    apply mapM_None. apply Exists_exists.
    exists (Z.to_nat (ip + 1)). split.
    + apply elem_of_seq. lia.
    + rewrite Z2Nat.id by lia. rewrite Hdead by lia. reflexivity.
Qed.

(** ** [push_back] into a block with room *)

(** X26: a [push_back] on a container with [size() < capacity()]
    allocates nothing and moves nothing: when it returns, the new element
    is in the first free slot, [begin()] and the capacity are the same and
    every other slot of the free store is as before (iterators and
    references stay valid); when the constructor of the new element
    throws, nothing has changed but the count of constructor calls. *)
Theorem push_back_in_place s l value :
  owns (heap s) (self s) l ->
  size (self s) < capacity (self s) ->
  let run := push_back value s in
  (forall u s', run = Ok u s' ->
     contents s' = Some (l ++ [value]) /\
     size (self s') = size (self s) + 1 /\
     capacity (self s') = capacity (self s) /\
     begin (self s') = begin (self s) /\
     length (heap s') = length (heap s) /\
     (forall p, p <> end_ (self s) -> slot (heap s') p = slot (heap s) p)) /\
  (forall e s', run = Throw e s' ->
     e = element_error /\ self s' = self s /\ heap s' = heap s) /\
  (forall f, run <> Fault f) /\
  (fails (calls s) = false -> exists s', run = Ok tt s').
Proof.
  intros Hown Hroom run. subst run. unfold size, capacity, begin, end_ in *.
  pose proof Hown as (Hsz & Hcap & _). pose proof ptrdiff_max_eq as Hmax.
  unfold push_back, emplace_back. rewrite bind_this.
  destruct (sz_ (self s) =? cap_ (self s)) eqn:Hfull; [apply Z.eqb_eq in Hfull; lia|].
  assert (Hraw : slot (heap s) (arr_ (self s) +p sz_ (self s)) = Some None)
    by (apply (owns_raw _ _ _ Hown); lia).
  pose proof (try_construct_run _ value s _ throw Hraw) as Htry.
  destruct (fails (calls s)) eqn:Hf.
  - unfold throw in Htry. rewrite (bind_Throw _ _ _ _ _ Htry).
    split; [discriminate|]. split; [|split; [discriminate | discriminate]].
    intros e s' Heq. injection Heq as <- <-. repeat split.
  - rewrite (bind_Ok _ _ _ _ _ Htry).
    split; [|split; [discriminate | split; [discriminate | eauto]]].
    intros u s' Heq. unfold set_sz, bind, this, set_self in Heq. simpl in Heq.
    injection Heq as <- <-. simpl. rewrite wrap_small by lia.
    split.
    { apply (owns_contents (State _ _ _)). simpl.
      apply owns_append; [exact Hown | lia]. }
    split; [reflexivity|]. split; [reflexivity|]. split; [reflexivity|].
    split; [apply length_store|].
    intros p Hp. apply slot_store_ne. apply not_eq_sym. exact Hp.
Qed.

End Container.

(** * The container at work: [vector<int>] *)

Lemma never_fails : forall k, never k = false.
Proof. reflexivity. Qed.

Example three_by_push_back :
  push_all Z moved_int true true never [10; 20; 30] start = Ok tt three.
Proof. reflexivity. Qed.

Lemma owns_three : owns Z (heap three) (self three) [10; 20; 30].
Proof.
  exact (owns_intro Z (heap three) 2 [10; 20; 30] 1 eq_refl ltac:(vm_compute; discriminate)).
Qed.

Example two_full_by_push_back :
  push_all Z moved_int false true never [1; 2] start = Ok tt two_full.
Proof. reflexivity. Qed.


(** The scenario of the specification: from [{1, 2, 3}], [insert] 99
    before the second element, [erase] the first element, [push_back(4)];
    the container is then [{99, 2, 3, 4}]. *)
Example insert_erase_push_back_run :
  exists s',
    (v <- vector_from_list Z never [1; 2; 3] ;;
     set_self Z v ;;
     insert Z moved_int true true never (begin v +p 1) 99 ;;
     v1 <- this Z ;;
     erase Z moved_int true true never (begin v1) ;;
     push_back Z moved_int true true never 4) start = Ok tt s' /\
    contents Z s' = Some [99; 2; 3; 4] /\
    size (self s') = 4 /\ capacity (self s') = 6.
Proof. eexists. split; [vm_compute; reflexivity|]. repeat split. Qed.

(** ** C1 *)

Lemma push_back_sequence_witness :
  push_all Z moved_int true true never [10; 20; 30] start = Ok tt three /\
  (size (self three) = 3 /\
   forall i x, [10; 20; 30] !! i = Some x -> subscript Z (Z.of_nat i) three = Ok x three).
Proof.
  split; [reflexivity|].
  apply (proj1 (push_back_sequence Z moved_int true true never [10; 20; 30] [] 0)).
  reflexivity.
Defined.

(** ** C2: the copy of the first element into the new block throws *)



(** ** C3: [reserve(3)] on a container of size 3 and capacity 4 *)

Lemma reserve_reduces_capacity_witness :
  exists s', reserve Z moved_int true true never 3 three = Ok tt s' /\
    capacity (self s') = 3 /\
    capacity (self s') < capacity (self three) /\
    size (self s') = size (self three) /\
    contents Z s' = Some [10; 20; 30].
Proof.
  apply (reserve_reduces_capacity Z moved_int true true never three [10; 20; 30] 3
           owns_three never_fails).
  unfold size, capacity. simpl. lia.
Defined.

(** Below the size, [reserve] writes past the end of the new block. *)
Example reserve_below_size :
  reserve Z moved_int true true never 2 three =
    Fault (bad_access (Ptr (Some 3%nat) 2)).
Proof. reflexivity. Qed.

(** ** C4: [erase(begin() + 1, begin() + 1)] on [{10, 20, 30}] *)

Lemma erase_empty_range_destroys_witness :
  exists r s',
    erase_range Z moved_int true true never
      (begin (self three) +p 1) (begin (self three) +p 1) three = Ok r s' /\
    size (self s') = size (self three) /\
    capacity (self s') = capacity (self three) /\
    (forall k, 1 <= k < size (self three) ->
       slot Z (heap s') (begin (self three) +p k) = Some None) /\
    contents Z s' = None /\
    subscript Z 1 s' = Fault (read_not_live (begin (self three) +p 1)).
Proof.
  apply (erase_empty_range_destroys Z moved_int true true never three [10; 20; 30] 1
           owns_three never_fails).
  unfold size. simpl. lia.
Defined.

(** The store after that call: two of the three elements are destroyed. *)
Example erase_empty_range_run :
  erase_range Z moved_int true true never
    (begin (self three) +p 1) (begin (self three) +p 1) three =
  Ok (Ptr (Some 2%nat) 3)
     (State (Vector (Ptr (Some 2%nat) 0) 3 4)
            [None; None; Some [Some 10; None; None; None]] 3).
Proof. reflexivity. Qed.

(** A range that is not empty is erased as C4 says. *)
Example erase_middle_run :
  erase_range Z moved_int true true never
    (begin (self three) +p 1) (begin (self three) +p 2) three =
  Ok (Ptr (Some 2%nat) 2)
     (State (Vector (Ptr (Some 2%nat) 0) 2 4)
            [None; None; Some [Some 10; Some 30; None; None]] 3).
Proof. reflexivity. Qed.

(** ** C5: [v.insert(v.begin() + 1, v.begin(), v.end())] on [{10, 20, 30}] *)

Example insert_own_range_run :
  insert_range Z moved_int true true never
    (begin (self three) +p 1) (begin (self three) +p 0) (begin (self three) +p 3)
    three =
  Ok (Ptr (Some 4%nat) 1)
     (State (Vector (Ptr (Some 4%nat) 0) 6 8)
            [None; None; None; None;
             Some [Some 10; Some 10; Some 20; Some 30; Some 20; Some 30; None; None]] 9).
Proof. reflexivity. Qed.

Lemma insert_own_range_witness :
  let v := self three in
  let pos := begin v +p 1 in
  let first := begin v +p 0 in
  let last := begin v +p 3 in
  (0 < 3 -> aliases_own_storage Z v first last three = Ok true three) /\
  (forall temp s1, vector_from_range Z never first last three = Ok temp s1 ->
     base (arr_ temp) <> base (arr_ v) /\
     owns Z (heap s1) temp (sub_range Z [10; 20; 30] 0 3) /\
     self s1 = v /\ owns Z (heap s1) v [10; 20; 30]) /\
  (forall r s', insert_range Z moved_int true true never pos first last three = Ok r s' ->
     contents Z s' = Some (spliced Z [10; 20; 30] (sub_range Z [10; 20; 30] 0 3) 1) /\
     size (self s') = size v + (3 - 0) /\
     r = begin (self s') +p 1) /\
  ((forall k, never k = false) -> capacity v < 2 ^ 62 ->
   exists r s', insert_range Z moved_int true true never pos first last three = Ok r s').
Proof.
  apply (insert_own_range Z moved_int true true never three [10; 20; 30] 1 0 3 owns_three);
    unfold size; simpl; lia.
Defined.

(** ** C6: [{9, 9}] and [{1, 2, 3}] *)

Lemma owns_nines : owns Z (heap two_containers) nines [9; 9].
Proof.
  exact (owns_intro Z (heap two_containers) 0 [9; 9] 0 eq_refl
           ltac:(vm_compute; discriminate)).
Qed.

Lemma owns_one_two_three : owns Z (heap two_containers) one_two_three [1; 2; 3].
Proof.
  exact (owns_intro Z (heap two_containers) 1 [1; 2; 3] 0 eq_refl
           ltac:(vm_compute; discriminate)).
Qed.

Example built_from_lists :
  (a <- vector_from_list Z never [9; 9] ;;
   b <- vector_from_list Z never [1; 2; 3] ;;
   ret (a, b)) start = Ok (nines, one_two_three) two_containers.
Proof. reflexivity. Qed.

Example shorter_is_less :
  op_lt Z Z.ltb nines one_two_three two_containers = Ok true two_containers /\
  op_lt Z Z.ltb one_two_three nines two_containers = Ok false two_containers /\
  op_eq Z Z.eqb nines nines two_containers = Ok true two_containers.
Proof. repeat split. Qed.

Lemma comparison_operators_witness :
  exists beq blt bgt,
    op_eq Z Z.eqb nines one_two_three two_containers = Ok beq two_containers /\
    op_lt Z Z.ltb nines one_two_three two_containers = Ok blt two_containers /\
    op_lt Z Z.ltb one_two_three nines two_containers = Ok bgt two_containers /\
    (beq = true <->
       size nines = size one_two_three /\
       forall i x y, [9; 9] !! i = Some x -> [1; 2; 3] !! i = Some y -> Z.eqb x y = true) /\
    (size nines < size one_two_three -> blt = true) /\
    (size one_two_three < size nines -> blt = false) /\
    (size nines = size one_two_three -> blt = lex_less Z Z.ltb [9; 9] [1; 2; 3]) /\
    op_ne Z Z.eqb nines one_two_three two_containers = Ok (negb beq) two_containers /\
    op_gt Z Z.ltb nines one_two_three two_containers = Ok bgt two_containers /\
    op_le Z Z.ltb nines one_two_three two_containers = Ok (negb bgt) two_containers /\
    op_ge Z Z.ltb nines one_two_three two_containers = Ok (negb blt) two_containers.
Proof.
  exact (comparison_operators Z Z.eqb Z.ltb two_containers nines one_two_three
           [9; 9] [1; 2; 3] owns_nines owns_one_two_three).
Defined.

(** ** C7: [insert(begin() + 7, 0, value)] on a container of size 3 *)

Lemma insert_n_zero_unchecked_witness :
  base (begin (self three) +p 7) = base (arr_ (self three)) /\
  insert_n Z moved_int true true never (begin (self three) +p 7) 0 5 three =
    Ok (begin (self three) +p 7) three.
Proof.
  split; [reflexivity|].
  exact (insert_n_zero_unchecked Z moved_int true true never three
           (begin (self three) +p 7) 5 eq_refl).
Defined.

(** The same position with one element to insert, and in the other forms
    with nothing to insert. *)
Example insert_checks_position_run :
  let pos := begin (self three) +p 7 in
  insert_n Z moved_int true true never pos 1 5 three = Throw out_of_range three /\
  insert_list Z moved_int true true never pos [] three = Throw out_of_range three /\
  insert_dispatch_float Z moved_int true true never pos [] three = Throw out_of_range three /\
  insert_range Z moved_int true true never pos (begin (self three)) (begin (self three)) three
    = Throw out_of_range three.
Proof. repeat split. Qed.

(** ** C8: [b = std::move(a)] for [a = {10, 20, 30}] and an empty [b] *)

(** The source has size 3 before and size 0 after: the size is reset. *)
Lemma move_assign_resets_size :
  exists source' s',
    move_assign Z (self three) before_move = Ok source' s' /\
    size (self three) = 3 /\
    size source' = 0.
Proof. eexists _, _. split; [vm_compute; reflexivity|]. split; reflexivity. Qed.

Lemma move_assign_steals_witness :
  exists source' s',
    move_assign Z (self three) before_move = Ok source' s' /\
    arr_ source' = nullptr /\
    size source' = 0 /\
    capacity source' = capacity (self three) /\
    begin (self s') = begin (self three) /\
    size (self s') = size (self three) /\
    capacity (self s') = capacity (self three) /\
    heap s' = release Z (arr_ (self before_move)) (heap before_move).
Proof.
  exact (move_assign_steals Z before_move [] (self three)
           (owns_default Z (heap before_move))).
Defined.

(** ** C9: the container a move assignment leaves behind *)

(** [a] receives three elements, then [b = std::move(a)]; the result is
    [a] afterwards: capacity 4, no block, and [empty()] is true. *)
Lemma moved_from_has_capacity_and_is_empty :
  exists a s',
    (push_all Z moved_int true true never [10; 20; 30] ;;
     a <- this Z ;;
     set_self Z vector_default ;;
     move_assign Z a) start = Ok a s' /\
    capacity a = 4 /\
    empty a = true.
Proof. eexists _, _. split; [vm_compute; reflexivity|]. split; reflexivity. Qed.

Lemma empty_tests_pointer_witness :
  capacity (self three) <> 0 /\
  (empty (self three) = false /\
   exists s', clear Z three = Ok tt s' /\
     size (self s') = 0 /\
     capacity (self s') = capacity (self three) /\
     empty (self s') = false).
Proof.
  assert (Hcap : capacity (self three) <> 0) by discriminate.
  split; [exact Hcap|].
  exact (proj2 (empty_tests_pointer Z) three [10; 20; 30] owns_three Hcap).
Defined.

(** ** C10: [erase(end())] on an empty container *)

Lemma erase_at_end_witness :
  let v := self start in
  check_position Z (end_ v) start = Ok tt start /\
  (slot Z (heap start) (arr_ v +p size v) = Some None \/
   slot Z (heap start) (arr_ v +p size v) = None) /\
  erase Z moved_int true true never (end_ v) start = Fault (destroy_not_live (arr_ v +p size v)) /\
  (size v = 0 -> wrap (sz_ v - 1) = size_max).
Proof.
  exact (erase_at_end Z moved_int true true never start [] (owns_default Z (heap start))).
Defined.

(** And on [{10, 20, 30}]: the slot at index 3 is unconstructed. *)
Example erase_at_end_run :
  erase Z moved_int true true never (end_ (self three)) three =
    Fault (destroy_not_live (Ptr (Some 2%nat) 3)).
Proof. reflexivity. Qed.

(** * More of the container at work *)

(** ** X1: [vector<int>(2, 7)] *)

Lemma sized_constructors_witness :
  let run := vector_fill Z never 2 7 start in
  0 <= 2 /\
  (forall v s', run = Ok v s' ->
     size v = 2 /\ capacity v = 2 /\
     owns Z (heap s') v (replicate (Z.to_nat 2) 7) /\
     self s' = self start /\
     (forall p, base p <> base (arr_ v) -> slot Z (heap s') p = slot Z (heap start) p)) /\
  (forall e s', run = Throw e s' -> untouched Z start s' (length (heap start))) /\
  (forall f, run <> Fault f) /\
  ((forall k, never k = false) -> (exists p s0, allocate Z 2 start = Ok p s0) ->
   exists v s', run = Ok v s').
Proof.
  intros run. split; [lia|].
  apply (sized_constructors Z never 2 7 start run); [lia | left; reflexivity].
Defined.

Example sized_constructor_run :
  vector_fill Z never 2 7 start =
    Ok (Vector (Ptr (Some 0%nat) 0) 2 2) (State vector_default [Some [Some 7; Some 7]] 2) /\
  vector_fill Z (at_call 1) 2 7 start = Throw element_error (State vector_default [None] 2).
Proof. split; reflexivity. Qed.

(** ** X2: [vector<int>{1, 2, 3}] *)

Lemma initializer_list_constructor_witness :
  let run := vector_from_list Z never [1; 2; 3] start in
  (forall v s', run = Ok v s' ->
     size v = Z.of_nat (length [1; 2; 3]) /\
     capacity v = Z.of_nat (length [1; 2; 3]) /\
     contents Z (State v (heap s') (calls s')) = Some [1; 2; 3] /\
     owns Z (heap s') v [1; 2; 3] /\
     self s' = self start /\
     (forall p, base p <> base (arr_ v) -> slot Z (heap s') p = slot Z (heap start) p)) /\
  (forall e s', run = Throw e s' -> untouched Z start s' (length (heap start))) /\
  (forall f, run <> Fault f) /\
  ((forall k, never k = false) ->
   (exists p s0, allocate Z (Z.of_nat (length [1; 2; 3])) start = Ok p s0) ->
   exists v s', run = Ok v s').
Proof.
  exact (initializer_list_constructor Z never [1; 2; 3] start).
Defined.

(** The constructor, and the same call when the third element throws. *)
Example initializer_list_run :
  vector_from_list Z never [1; 2; 3] start =
    Ok (Vector (Ptr (Some 0%nat) 0) 3 3)
       (State vector_default [Some [Some 1; Some 2; Some 3]] 3) /\
  vector_from_list Z (at_call 2) [1; 2; 3] start =
    Throw element_error (State vector_default [None] 3).
Proof. split; reflexivity. Qed.

(** ** X3: a copy of [{1, 2, 3}] *)

Lemma copy_constructor_witness :
  let run := vector_copy Z never one_two_three two_containers in
  (forall v s', run = Ok v s' ->
     size v = size one_two_three /\ capacity v = capacity one_two_three /\
     owns Z (heap s') v [1; 2; 3] /\
     owns Z (heap s') one_two_three [1; 2; 3] /\
     base (arr_ v) <> base (arr_ one_two_three) /\
     self s' = self two_containers /\
     (forall p, base p <> base (arr_ v) ->
        slot Z (heap s') p = slot Z (heap two_containers) p)) /\
  (forall e s', run = Throw e s' ->
     untouched Z two_containers s' (length (heap two_containers))) /\
  (forall f, run <> Fault f) /\
  ((forall k, never k = false) ->
   (exists p s0, allocate Z (capacity one_two_three) two_containers = Ok p s0) ->
   exists v s', run = Ok v s').
Proof.
  exact (copy_constructor Z never one_two_three [1; 2; 3] two_containers owns_one_two_three).
Defined.

(** The copy of a container with spare capacity has the same capacity. *)
Example copy_keeps_capacity :
  vector_copy Z never (self three) three =
    Ok (Vector (Ptr (Some 3%nat) 0) 3 4)
       (State (self three)
              [None; None; Some [Some 10; Some 20; Some 30; None];
               Some [Some 10; Some 20; Some 30; None]] 6).
Proof. reflexivity. Qed.

(** ** X4: [a = b] for [a = {9, 9}] and [b = {1, 2, 3}] *)

Lemma copy_assignment_witness :
  let run := copy_assign Z never one_two_three nines_is_this in
  (forall u s', run = Ok u s' ->
     contents Z s' = Some [1; 2; 3] /\
     size (self s') = size one_two_three /\
     capacity (self s') = capacity one_two_three /\
     owns Z (heap s') one_two_three [1; 2; 3] /\
     base (arr_ (self s')) <> base (arr_ one_two_three) /\
     (forall loc, base (arr_ (self nines_is_this)) = Some loc ->
        block_len Z (heap s') loc = None)) /\
  (forall e s', run = Throw e s' ->
     self s' = self nines_is_this /\ contents Z s' = Some [9; 9] /\
     owns Z (heap s') one_two_three [1; 2; 3] /\
     untouched Z nines_is_this s' (length (heap nines_is_this))) /\
  (forall f, run <> Fault f) /\
  ((forall k, never k = false) ->
   (exists p s0, allocate Z (capacity one_two_three) nines_is_this = Ok p s0) ->
   exists s', run = Ok tt s').
Proof.
  apply (copy_assignment Z never one_two_three [1; 2; 3] [9; 9] nines_is_this
           owns_nines owns_one_two_three).
  intros loc Hloc. injection Hloc as <-. simpl. discriminate.
Defined.

Example copy_assign_example :
  copy_assign Z never one_two_three nines_is_this =
    Ok tt (State (Vector (Ptr (Some 2%nat) 0) 3 3)
                 [None; Some [Some 1; Some 2; Some 3]; Some [Some 1; Some 2; Some 3]] 8) /\
  copy_assign Z (at_call 6) one_two_three nines_is_this =
    Throw element_error
      (State nines [Some [Some 9; Some 9]; Some [Some 1; Some 2; Some 3]; None] 7).
Proof. split; reflexivity. Qed.

(** ** X5: [resize(5, 7)] on [{10, 20, 30}] with capacity 4 *)

Lemma resize_to_count_witness :
  let run := resize Z moved_int true true never 5 7 three in
  0 <= 5 /\
  (forall u s', run = Ok u s' ->
     contents Z s' =
       Some (take (Z.to_nat 5) [10; 20; 30] ++
             replicate (Z.to_nat (5 - size (self three))) 7) /\
     size (self s') = 5 /\
     capacity (self s') = Z.max (capacity (self three)) 5 /\
     (5 <= capacity (self three) -> begin (self s') = begin (self three)) /\
     preserved Z three s' (self three)) /\
  (forall e s', run = Throw e s' ->
     size (self three) < 5 /\
     size (self s') = size (self three) /\
     (5 <= capacity (self three) -> self s' = self three) /\
     (true = true \/ true = true \/ 5 <= capacity (self three) ->
      contents Z s' = Some [10; 20; 30]) /\
     preserved Z three s' (self three)) /\
  (forall f, run <> Fault f) /\
  ((forall k, never k = false) ->
   (capacity (self three) < 5 -> exists p s0, allocate Z 5 three = Ok p s0) ->
   exists s', run = Ok tt s').
Proof.
  intros run. split; [lia|].
  apply (resize_to_count Z moved_int true true never 5 7 three [10; 20; 30] owns_three). lia.
Defined.

(** The call, and the same call when the second new element throws: the
    elements are kept, in the new block of capacity 5. *)
Example resize_run :
  resize Z moved_int true true never 5 7 three =
    Ok tt (State (Vector (Ptr (Some 3%nat) 0) 5 5)
                 [None; None; None; Some [Some 10; Some 20; Some 30; Some 7; Some 7]] 5) /\
  resize Z moved_int true true (at_call 4) 5 7 three =
    Throw element_error
      (State (Vector (Ptr (Some 3%nat) 0) 3 5)
             [None; None; None; Some [Some 10; Some 20; Some 30; None; None]] 5) /\
  resize Z moved_int true true never 1 7 three =
    Ok tt (State (Vector (Ptr (Some 2%nat) 0) 1 4)
                 [None; None; Some [Some 10; None; None; None]] 3).
Proof. repeat split. Qed.

(** ** X6: [assign(2, 7)] on [{10, 20, 30}] with capacity 4 *)

Lemma assign_count_copies_witness :
  let run := assign Z never 2 7 three in
  0 <= 2 /\
  (forall u s', run = Ok u s' ->
     contents Z s' = Some (replicate (Z.to_nat 2) 7) /\
     size (self s') = 2 /\
     capacity (self s') = Z.max (capacity (self three)) 2 /\
     (2 <= capacity (self three) -> begin (self s') = begin (self three)) /\
     preserved Z three s' (self three)) /\
  (forall e s', run = Throw e s' ->
     (capacity (self three) < 2 /\ self s' = self three /\
      contents Z s' = Some [10; 20; 30]) \/
     (0 < 2 <= capacity (self three) /\ e = element_error /\
      contents Z s' = Some [] /\ size (self s') = 0 /\
      capacity (self s') = capacity (self three) /\
      begin (self s') = begin (self three))) /\
  (forall f, run <> Fault f) /\
  ((forall k, never k = false) ->
   (capacity (self three) < 2 -> exists p s0, allocate Z 2 three = Ok p s0) ->
   exists s', run = Ok tt s').
Proof.
  intros run. split; [lia|].
  apply (assign_count_copies Z never 2 7 three [10; 20; 30] owns_three). lia.
Defined.

(** The call; the same call when the second copy throws, which leaves the
    container empty; and a call that needs a larger block and fails, which
    leaves it as it was. *)
Example assign_run :
  assign Z never 2 7 three =
    Ok tt (State (Vector (Ptr (Some 2%nat) 0) 2 4)
                 [None; None; Some [Some 7; Some 7; None; None]] 5) /\
  assign Z (at_call 4) 2 7 three =
    Throw element_error
      (State (Vector (Ptr (Some 2%nat) 0) 0 4)
             [None; None; Some [None; None; None; None]] 5) /\
  assign Z (at_call 4) 5 7 three =
    Throw element_error
      (State (self three) [None; None; Some [Some 10; Some 20; Some 30; None]; None] 5).
Proof. repeat split. Qed.

(** ** X7: [shrink_to_fit] on [{10, 20, 30}] with capacity 4 *)

Lemma shrink_to_fit_fits_witness :
  let run := shrink_to_fit Z moved_int true true never three in
  (forall u s', run = Ok u s' ->
     capacity (self s') = size (self s') /\
     size (self s') = size (self three) /\
     contents Z s' = Some [10; 20; 30] /\
     (size (self three) = capacity (self three) -> s' = three) /\
     preserved Z three s' (self three)) /\
  (forall e s', run = Throw e s' ->
     size (self three) < capacity (self three) /\
     self s' = self three /\
     (true = true \/ true = true -> contents Z s' = Some [10; 20; 30]) /\
     preserved Z three s' (self three)) /\
  (forall f, run <> Fault f) /\
  (true = true \/ (forall k, never k = false) ->
   (size (self three) < capacity (self three) ->
    exists p s0, allocate Z (size (self three)) three = Ok p s0) ->
   exists s', run = Ok tt s').
Proof.
  exact (shrink_to_fit_fits Z moved_int true true never three [10; 20; 30] owns_three).
Defined.

(** The call, and the same call for a type that is copied when the copy
    of the second element throws. *)
Example shrink_to_fit_run :
  shrink_to_fit Z moved_int true true never three =
    Ok tt (State (Vector (Ptr (Some 3%nat) 0) 3 3)
                 [None; None; None; Some [Some 10; Some 20; Some 30]] 3) /\
  shrink_to_fit Z moved_int false true (at_call 4) three =
    Throw element_error
      (State (self three) [None; None; Some [Some 10; Some 20; Some 30; None]; None] 5).
Proof. split; reflexivity. Qed.

(** ** X8: [pop_back] on [{10, 20, 30}] *)

Lemma pop_back_removes_last_witness :
  exists s', pop_back Z three = Ok tt s' /\
    contents Z s' = Some (removelast [10; 20; 30]) /\
    size (self s') = Z.max 0 (size (self three) - 1) /\
    capacity (self s') = capacity (self three) /\
    begin (self s') = begin (self three) /\
    ([10; 20; 30] <> [] -> slot Z (heap s') (end_ (self three) +p (-1)) = Some None) /\
    ([10; 20; 30] = [] -> s' = three) /\
    (forall p, p <> end_ (self three) +p (-1) ->
       slot Z (heap s') p = slot Z (heap three) p).
Proof.
  exact (pop_back_removes_last Z three [10; 20; 30] owns_three).
Defined.

(** The last element is destroyed; on an empty container nothing
    happens. *)
Example pop_back_run :
  pop_back Z three =
    Ok tt (State (Vector (Ptr (Some 2%nat) 0) 2 4)
                 [None; None; Some [Some 10; Some 20; None; None]] 3).
Proof. reflexivity. Qed.

Example pop_back_empty_run : pop_back Z start = Ok tt start.
Proof. reflexivity. Qed.

(** ** X9: [push_back(40)] then [pop_back] on [{10, 20, 30}] *)

Lemma push_back_pop_back_witness :
  push_back Z moved_int true true never 40 three = Ok tt three_and_40 /\
  exists s2, pop_back Z three_and_40 = Ok tt s2 /\
    contents Z s2 = Some [10; 20; 30] /\
    size (self s2) = size (self three) /\
    capacity (self s2) = capacity (self three_and_40).
Proof.
  assert (Hpush : push_back Z moved_int true true never 40 three = Ok tt three_and_40)
    by reflexivity.
  split; [exact Hpush|].
  exact (push_back_pop_back Z moved_int true true never three [10; 20; 30] 40 three_and_40
           owns_three Hpush).
Defined.

(** ** X10: [at(1)] and [at(3)] on [{10, 20, 30}] *)

Lemma at_checks_bounds_witness :
  0 <= 3 /\
  (3 < size (self three) ->
     exists x, [10; 20; 30] !! Z.to_nat 3 = Some x /\
       at_ Z 3 three = Ok x three /\ subscript Z 3 three = Ok x three) /\
  (size (self three) <= 3 ->
     at_ Z 3 three = Throw out_of_range three /\
     subscript Z 3 three = Fault (read_not_live (begin (self three) +p 3))).
Proof.
  split; [lia|].
  apply (at_checks_bounds Z three [10; 20; 30] 3 owns_three). lia.
Defined.

Example at_run :
  at_ Z 1 three = Ok 20 three /\ at_ Z 3 three = Throw out_of_range three.
Proof. split; reflexivity. Qed.

(** ** X11: [front()] and [back()] of [{10, 20, 30}] *)

Lemma front_back_test_pointer_witness :
  (forall x y, head [10; 20; 30] = Some x -> last [10; 20; 30] = Some y ->
     exists p q, front (self three) = Some p /\ back (self three) = Some q /\
       slot Z (heap three) p = Some (Some x) /\ slot Z (heap three) q = Some (Some y)) /\
  (arr_ (self three) = nullptr -> front (self three) = None /\ back (self three) = None) /\
  ([10; 20; 30] = [] -> arr_ (self three) <> nullptr ->
     exists p q, front (self three) = Some p /\ back (self three) = Some q /\
       (slot Z (heap three) p = Some None \/ slot Z (heap three) p = None) /\
       slot Z (heap three) q = None).
Proof.
  exact (front_back_test_pointer Z (heap three) (self three) [10; 20; 30] owns_three).
Defined.

(** After [clear()], [front()] designates a slot without an element and
    [back()] the position before the block. *)
Example front_back_after_clear :
  exists s', clear Z three = Ok tt s' /\
    front (self s') = Some (Ptr (Some 2%nat) 0) /\
    slot Z (heap s') (Ptr (Some 2%nat) 0) = Some None /\
    back (self s') = Some (Ptr (Some 2%nat) (-1)) /\
    front vector_default = None.
Proof. eexists. split; [vm_compute; reflexivity|]. repeat split. Qed.

(** ** X12: [insert(begin() + 1, 99)] on [{10, 20, 30}] *)

Lemma insert_one_element_witness :
  let run := insert Z moved_int true true never (begin (self three) +p 1) 99 three in
  0 <= 1 <= size (self three) /\
  (forall r s', run = Ok r s' ->
     contents Z s' = Some (spliced Z [10; 20; 30] [99] 1) /\
     size (self s') = size (self three) + 1 /\
     r = begin (self s') +p 1 /\
     read Z r s' = Ok 99 s' /\
     preserved Z three s' (self three)) /\
  (1 = size (self three) -> forall e s', run = Throw e s' ->
     self s' = self three /\
     (true = true \/ true = true -> contents Z s' = Some [10; 20; 30])) /\
  ((forall k, never k = false) ->
   (size (self three) = capacity (self three) ->
    exists p s0,
      allocate Z (if capacity (self three) >? 0
                  then wrap (capacity (self three) * 2) else 1) three = Ok p s0) ->
   exists r s', run = Ok r s').
Proof.
  assert (Hip : 0 <= 1 <= size (self three)) by (unfold size; simpl; lia).
  intros run. split; [exact Hip|].
  exact (insert_one_element Z moved_int true true never three [10; 20; 30] 1 99 owns_three Hip).
Defined.

Example insert_run :
  insert Z moved_int true true never (begin (self three) +p 1) 99 three =
    Ok (Ptr (Some 2%nat) 1) three_with_99.
Proof. reflexivity. Qed.

(** ** X13: [insert(begin() + 1, 2, 7)] on [{10, 20, 30}] *)

Lemma insert_count_copies_witness :
  let run := insert_n Z moved_int true true never (begin (self three) +p 1) 2 7 three in
  0 <= 1 <= size (self three) /\ 1 <= 2 <= ptrdiff_max /\
  (forall r s', run = Ok r s' ->
     contents Z s' = Some (spliced Z [10; 20; 30] (replicate (Z.to_nat 2) 7) 1) /\
     size (self s') = size (self three) + 2 /\
     r = begin (self s') +p 1 /\
     preserved Z three s' (self three)) /\
  ((forall k, never k = false) ->
   (capacity (self three) < size (self three) + 2 ->
    exists p s0,
      allocate Z (Z.max (2 * capacity (self three)) (size (self three) + 2)) three
        = Ok p s0) ->
   exists r s', run = Ok r s').
Proof.
  assert (Hip : 0 <= 1 <= size (self three)) by (unfold size; simpl; lia).
  assert (Hcount : 1 <= 2 <= ptrdiff_max) by (vm_compute; split; discriminate).
  intros run. split; [exact Hip|]. split; [exact Hcount|].
  exact (insert_count_copies Z moved_int true true never three [10; 20; 30] 1 2 7
           owns_three Hip Hcount).
Defined.

Example insert_count_run :
  insert_n Z moved_int true true never (begin (self three) +p 1) 2 7 three =
    Ok (Ptr (Some 3%nat) 1)
       (State (Vector (Ptr (Some 3%nat) 0) 5 8)
              [None; None; None;
               Some [Some 10; Some 7; Some 7; Some 20; Some 30; None; None; None]] 5).
Proof. reflexivity. Qed.

(** ** X14: [insert(begin() + 1, {7, 8})] on [{10, 20, 30}] *)

Lemma insert_elements_of_list_witness :
  let run := insert_list Z moved_int true true never (begin (self three) +p 1) [7; 8] three in
  0 <= 1 <= size (self three) /\
  Z.of_nat (length [7; 8]) <= ptrdiff_max /\
  (forall r s', run = Ok r s' ->
     contents Z s' = Some (spliced Z [10; 20; 30] [7; 8] 1) /\
     size (self s') = size (self three) + Z.of_nat (length [7; 8]) /\
     r = begin (self s') +p 1 /\
     preserved Z three s' (self three)) /\
  ([7; 8] = [] -> run = Ok (begin (self three) +p 1) three) /\
  ((forall k, never k = false) ->
   (capacity (self three) < size (self three) + Z.of_nat (length [7; 8]) ->
    exists p s0,
      allocate Z (Z.max (2 * capacity (self three))
                        (size (self three) + Z.of_nat (length [7; 8]))) three = Ok p s0) ->
   exists r s', run = Ok r s').
Proof.
  assert (Hip : 0 <= 1 <= size (self three)) by (unfold size; simpl; lia).
  assert (Hlen : Z.of_nat (length [7; 8]) <= ptrdiff_max) by (vm_compute; discriminate).
  intros run. split; [exact Hip|]. split; [exact Hlen|].
  exact (insert_elements_of_list Z moved_int true true never three [10; 20; 30] 1 [7; 8]
           owns_three Hip Hlen).
Defined.

Example insert_list_run :
  insert_list Z moved_int true true never (begin (self three) +p 1) [7; 8] three =
    Ok (Ptr (Some 3%nat) 1)
       (State (Vector (Ptr (Some 3%nat) 0) 5 8)
              [None; None; None;
               Some [Some 10; Some 7; Some 8; Some 20; Some 30; None; None; None]] 5).
Proof. reflexivity. Qed.

(** ** X15: [erase(begin() + 1)] on [{10, 20, 30}] *)

Lemma erase_one_element_witness :
  let run := erase Z moved_int true true never (begin (self three) +p 1) three in
  0 <= 1 < size (self three) /\
  (forall r s', run = Ok r s' ->
     contents Z s' = Some (take (Z.to_nat 1) [10; 20; 30] ++
                           drop (Z.to_nat (1 + 1)) [10; 20; 30]) /\
     size (self s') = size (self three) - 1 /\
     capacity (self s') = capacity (self three) /\
     begin (self s') = begin (self three) /\
     r = begin (self s') +p 1 /\
     (forall p, base p <> base (begin (self three)) ->
        slot Z (heap s') p = slot Z (heap three) p)) /\
  ((forall k, never k = false) -> exists r s', run = Ok r s').
Proof.
  assert (Hip : 0 <= 1 < size (self three)) by (unfold size; simpl; lia).
  intros run. split; [exact Hip|].
  exact (erase_one_element Z moved_int true true never three [10; 20; 30] 1 owns_three Hip).
Defined.

Example erase_run :
  erase Z moved_int true true never (begin (self three) +p 1) three =
    Ok (Ptr (Some 2%nat) 1)
       (State (Vector (Ptr (Some 2%nat) 0) 2 4)
              [None; None; Some [Some 10; Some 30; None; None]] 3).
Proof. reflexivity. Qed.

(** ** X16: [erase(insert(begin() + 1, 99))] on [{10, 20, 30}] *)

Lemma insert_then_erase_witness :
  0 <= 1 <= size (self three) /\
  insert Z moved_int true true never (begin (self three) +p 1) 99 three =
    Ok (Ptr (Some 2%nat) 1) three_with_99 /\
  (forall r2 s2, erase Z moved_int true true never (Ptr (Some 2%nat) 1) three_with_99 = Ok r2 s2 ->
     contents Z s2 = Some [10; 20; 30] /\ size (self s2) = size (self three) /\
     r2 = Ptr (Some 2%nat) 1) /\
  ((forall k, never k = false) ->
   exists r2 s2, erase Z moved_int true true never (Ptr (Some 2%nat) 1) three_with_99 = Ok r2 s2).
Proof.
  assert (Hip : 0 <= 1 <= size (self three)) by (unfold size; simpl; lia).
  assert (Hins : insert Z moved_int true true never (begin (self three) +p 1) 99 three =
                 Ok (Ptr (Some 2%nat) 1) three_with_99) by reflexivity.
  split; [exact Hip|]. split; [exact Hins|].
  exact (insert_then_erase Z moved_int true true never three [10; 20; 30] 1 99
           (Ptr (Some 2%nat) 1) three_with_99 owns_three Hip Hins).
Defined.

(** ** X17: [erase(begin(), begin() + 1)] on [{10, 20, 30}] *)

Lemma erase_range_returns_end_witness :
  let run := erase_range Z moved_int true true never
               (begin (self three) +p 0) (begin (self three) +p 1) three in
  0 <= 0 <= 1 /\ 1 <= size (self three) /\ (0 < 1 \/ 1 = size (self three)) /\
  (forall r s', run = Ok r s' ->
     contents Z s' = Some (take (Z.to_nat 0) [10; 20; 30] ++
                           drop (Z.to_nat 1) [10; 20; 30]) /\
     size (self s') = size (self three) - (1 - 0) /\
     capacity (self s') = capacity (self three) /\
     begin (self s') = begin (self three) /\
     r = end_ (self s') /\
     (1 < size (self three) -> r <> begin (self s') +p 0) /\
     (forall p, base p <> base (begin (self three)) ->
        slot Z (heap s') p = slot Z (heap three) p)) /\
  ((forall k, never k = false) -> exists r s', run = Ok r s').
Proof.
  assert (Hi : 0 <= 0 <= 1) by lia.
  assert (Hj : 1 <= size (self three)) by (unfold size; simpl; lia).
  assert (Hne : 0 < 1 \/ 1 = size (self three)) by (left; lia).
  intros run. split; [exact Hi|]. split; [exact Hj|]. split; [exact Hne|].
  exact (erase_range_returns_end Z moved_int true true never three [10; 20; 30] 0 1
           owns_three Hi Hj Hne).
Defined.

(** The first element is erased; the iterator returned is [begin() + 2],
    the end of the two elements left, not [begin()]. *)
Example erase_first_run :
  erase_range Z moved_int true true never
    (begin (self three) +p 0) (begin (self three) +p 1) three =
  Ok (Ptr (Some 2%nat) 2)
     (State (Vector (Ptr (Some 2%nat) 0) 2 4)
            [None; None; Some [Some 20; Some 30; None; None]] 3).
Proof. reflexivity. Qed.

(** ** X18: [reserve(5)] on [{10, 20, 30}] with capacity 4 *)

Lemma reserve_exactly_witness :
  let run := reserve Z moved_int true true never 5 three in
  let relocates :=
    (exists p s0, allocate Z 5 three = Ok p s0) /\
    (true = true \/ forall k, never k = false) in
  0 <= 5 /\
  (forall u s', run = Ok u s' ->
     size (self three) <= 5 /\
     capacity (self s') = 5 /\ size (self s') = size (self three) /\
     contents Z s' = Some [10; 20; 30] /\ begin (self s') <> begin (self three) /\
     preserved Z three s' (self three)) /\
  (ptrdiff_max < 5 -> run = Throw bad_alloc three) /\
  (size (self three) <= 5 ->
     (forall f, run <> Fault f) /\ (relocates -> exists s', run = Ok tt s')) /\
  (5 < size (self three) -> relocates -> exists f, run = Fault f).
Proof.
  intros run relocates. split; [lia|].
  apply (reserve_exactly Z moved_int true true never three [10; 20; 30] 5 owns_three). lia.
Defined.

(** A request for the capacity the container has still moves it, and a
    request below the size goes wrong. *)
Example reserve_same_capacity_run :
  reserve Z moved_int true true never 4 three =
    Ok tt (State (Vector (Ptr (Some 3%nat) 0) 3 4)
                 [None; None; None; Some [Some 10; Some 20; Some 30; None]] 3) /\
  reserve Z moved_int true true never 2 three = Fault (bad_access (Ptr (Some 3%nat) 2)).
Proof. split; reflexivity. Qed.

(** ** X19: three calls of [push_back] *)

Lemma push_back_doubles_capacity_witness :
  [10; 20; 30] <> [] /\
  push_all Z moved_int true true never [10; 20; 30] start = Ok tt three /\
  size (self three) = Z.of_nat (length [10; 20; 30]) /\
  (exists k : nat, capacity (self three) = 2 ^ Z.of_nat k) /\
  size (self three) <= capacity (self three) < 2 * size (self three).
Proof.
  assert (Hne : [10; 20; 30] <> @nil Z) by discriminate.
  assert (Hrun : push_all Z moved_int true true never [10; 20; 30] start = Ok tt three)
    by reflexivity.
  split; [exact Hne|]. split; [exact Hrun|].
  exact (push_back_doubles_capacity Z moved_int true true never [10; 20; 30] [] 0 three Hne Hrun).
Defined.

(** ** X20: [b = std::move(a)] for [a = {10, 20, 30}], then [a.push_back(5)] *)

Lemma move_assign_then_use_witness :
  exists source' s',
    move_assign Z (self three) before_move = Ok source' s' /\
    contents Z s' = Some [10; 20; 30] /\
    begin (self s') = begin (self three) /\
    (capacity (self three) <> 0 -> forall value h c,
       push_back Z moved_int true true never value (State source' h c) =
         Fault (bad_access nullptr)) /\
    (capacity (self three) = 0 -> source' = vector_default).
Proof.
  apply (move_assign_then_use Z moved_int true true never before_move [] (self three)
           [10; 20; 30] (owns_default Z (heap before_move)) owns_three).
  intros loc _. simpl. discriminate.
Defined.

Example push_back_on_moved_from :
  (push_all Z moved_int true true never [10; 20; 30] ;;
   a <- this Z ;;
   set_self Z vector_default ;;
   a' <- move_assign Z a ;;
   set_self Z a' ;;
   push_back Z moved_int true true never 5) start = Fault (bad_access nullptr).
Proof. reflexivity. Qed.

(** ** X21: the destructor of [{10, 20, 30}] *)

Lemma destructor_releases_witness :
  (exists s', destructor Z three = Ok tt s' /\
     size (self s') = 0 /\
     (forall k, slot Z (heap s') (begin (self three) +p k) = None) /\
     (forall loc, base (begin (self three)) = Some loc ->
        block_len Z (heap s') loc = None) /\
     length (heap s') = length (heap three) /\
     (forall loc, Some loc <> base (begin (self three)) ->
        block_len Z (heap s') loc = block_len Z (heap three) loc) /\
     (forall p, base p <> base (begin (self three)) ->
        slot Z (heap s') p = slot Z (heap three) p)) /\
  (forall k, 0 <= k < size (self three) ->
     exists f,
       destructor Z
         (State (self three) (store Z (heap three) (begin (self three) +p k) None)
                (calls three)) = Fault f).
Proof.
  exact (destructor_releases Z three [10; 20; 30] owns_three).
Defined.

(** The destructor, and the destructor of a container whose second slot
    holds no element. *)
Example destructor_run :
  destructor Z three = Ok tt (State (Vector (Ptr (Some 2%nat) 0) 0 4) [None; None; None] 3) /\
  destructor Z (State (self three) [None; None; Some [Some 10; None; Some 30; None]] 3) =
    Fault (destroy_not_live (Ptr (Some 2%nat) 1)).
Proof. split; reflexivity. Qed.

(** ** X22: [a.swap(b)] for [a = {9, 9}] and [b = {1, 2, 3}] *)

Lemma swap_exchanges_witness :
  exists other' s',
    swap Z one_two_three nines_is_this = Ok other' s' /\
    heap s' = heap nines_is_this /\
    self s' = one_two_three /\ other' = self nines_is_this /\
    contents Z s' = Some [1; 2; 3] /\
    owns Z (heap s') other' [9; 9] /\
    swap Z other' s' = Ok one_two_three nines_is_this.
Proof.
  exact (swap_exchanges Z nines_is_this [9; 9] one_two_three [1; 2; 3]
           owns_nines owns_one_two_three).
Defined.

(** ** X23: [vector<int>(v.begin() + 2, v.begin() + 1)] *)

Lemma range_constructor_inverted_witness :
  base (begin (self three) +p 2) = base (begin (self three) +p 1) /\
  off (begin (self three) +p 1) < off (begin (self three) +p 2) /\
  off (begin (self three) +p 2) - off (begin (self three) +p 1) <= ptrdiff_max /\
  vector_from_range Z never (begin (self three) +p 2) (begin (self three) +p 1) three =
    Throw bad_alloc three.
Proof.
  assert (Hlt : off (begin (self three) +p 1) < off (begin (self three) +p 2))
    by (simpl; lia).
  assert (Hdist : off (begin (self three) +p 2) - off (begin (self three) +p 1)
                  <= ptrdiff_max) by (vm_compute; discriminate).
  split; [reflexivity|]. split; [exact Hlt|]. split; [exact Hdist|].
  exact (range_constructor_inverted Z never (begin (self three) +p 2)
           (begin (self three) +p 1) three eq_refl Hlt Hdist).
Defined.

(** ** X24: the position [begin() + 7] of a container of size 3 *)

Lemma out_of_range_positions_witness :
  let pos := begin (self three) +p 7 in
  base pos = base (begin (self three)) /\
  (off pos < off (begin (self three)) \/ off (end_ (self three)) < off pos) /\
  (forall value, insert Z moved_int true true never pos value three = Throw out_of_range three) /\
  (forall count value, count <> 0 ->
     insert_n Z moved_int true true never pos count value three = Throw out_of_range three) /\
  (forall ilist, insert_list Z moved_int true true never pos ilist three =
     Throw out_of_range three) /\
  (forall elems, insert_dispatch_float Z moved_int true true never pos elems three =
     Throw out_of_range three) /\
  (forall first last, insert_range Z moved_int true true never pos first last three =
     Throw out_of_range three) /\
  erase Z moved_int true true never pos three = Throw out_of_range three /\
  (forall last, base last = base pos ->
     erase_range Z moved_int true true never pos last three = Throw out_of_range three) /\
  (forall first, base first = base pos -> off (end_ (self three)) < off pos ->
     erase_range Z moved_int true true never first pos three = Throw out_of_range three).
Proof.
  assert (Hout : off (begin (self three) +p 7) < off (begin (self three)) \/
                 off (end_ (self three)) < off (begin (self three) +p 7))
    by (right; simpl; lia).
  intros pos. split; [reflexivity|]. split; [exact Hout|].
  exact (out_of_range_positions Z moved_int true true never three (begin (self three) +p 7)
           eq_refl Hout).
Defined.

(** ** X25: [insert(begin() + 1, 99)] on [{10, 20, 30}] when the copy of 30 throws *)

Lemma insert_throw_destroys_tail_witness :
  false = false /\
  0 <= 1 /\ 1 + 1 < size (self three) /\ size (self three) < capacity (self three) /\
  at_call 3 (calls three) = true /\
  exists s',
    insert Z moved_int false true (at_call 3) (begin (self three) +p 1) 99 three =
      Throw element_error s' /\
    self s' = self three /\
    (forall k, 1 + 1 <= k < size (self three) ->
       slot Z (heap s') (begin (self three) +p k) = Some None) /\
    contents Z s' = None.
Proof.
  assert (Hip : 0 <= 1) by lia.
  assert (Hlt : 1 + 1 < size (self three)) by (unfold size; simpl; lia).
  assert (Hroom : size (self three) < capacity (self three))
    by (unfold size, capacity; simpl; lia).
  assert (Hfail : at_call 3 (calls three) = true) by reflexivity.
  split; [reflexivity|].
  split; [exact Hip|]. split; [exact Hlt|]. split; [exact Hroom|]. split; [exact Hfail|].
  exact (insert_throw_destroys_tail Z moved_int false true (at_call 3) three [10; 20; 30] 1 99
           eq_refl owns_three Hip Hlt Hroom Hfail).
Defined.

(** The store after that call: the size is 3, and the third of the slots
    it counts holds nothing.  With a move constructor that cannot throw the
    same call returns, whatever [fails] says. *)
Example insert_throw_run :
  insert Z moved_int false true (at_call 3) (begin (self three) +p 1) 99 three =
    Throw element_error
      (State (Vector (Ptr (Some 2%nat) 0) 3 4)
             [None; None; Some [Some 10; Some 20; None; None]] 4) /\
  insert Z moved_int true true (fun _ => true) (begin (self three) +p 1) 99 three =
    Ok (Ptr (Some 2%nat) 1) three_with_99.
Proof. split; reflexivity. Qed.

(** ** X26: [push_back(40)] on [{10, 20, 30}] with capacity 4 *)

Lemma push_back_in_place_witness :
  let run := push_back Z moved_int true true never 40 three in
  size (self three) < capacity (self three) /\
  (forall u s', run = Ok u s' ->
     contents Z s' = Some ([10; 20; 30] ++ [40]) /\
     size (self s') = size (self three) + 1 /\
     capacity (self s') = capacity (self three) /\
     begin (self s') = begin (self three) /\
     length (heap s') = length (heap three) /\
     (forall p, p <> end_ (self three) -> slot Z (heap s') p = slot Z (heap three) p)) /\
  (forall e s', run = Throw e s' ->
     e = element_error /\ self s' = self three /\ heap s' = heap three) /\
  (forall f, run <> Fault f) /\
  (never (calls three) = false -> exists s', run = Ok tt s').
Proof.
  assert (Hroom : size (self three) < capacity (self three))
    by (unfold size, capacity; simpl; lia).
  intros run. split; [exact Hroom|].
  exact (push_back_in_place Z moved_int true true never three [10; 20; 30] 40 owns_three Hroom).
Defined.
